(** * The chunked reader driver of datatable's CSV reader

    A shallow embedding of [ChunkedDataReader] (csv/reader.cc): the chunking
    planner, the boundary computer, the reconciler [order_chunk], the output
    allocator [realloc_output_columns] and the loop of [read_all], followed
    by the properties that the design document states about them.

    Conventions.
    - [size_t] values are integers in [0, 2^64); every [size_t] operation of
      the source is written with its wrap-around ([sz_add], [sz_sub],
      [sz_mul]).  Pointers into the input are integers (byte addresses).
    - [double] values are IEEE 754 binary64 numbers, [spec_float] with
      precision 53 and [emax] 1024, rounded to nearest-even as the hardware
      does.
    - Code runs in a small monad with state, exceptions and undefined
      behaviour (division by zero, a floating-point value converted to an
      integer type that cannot hold it). *)

From Stdlib Require Import QArith Qpower Lqa.
From Stdlib Require Import ZArith List Bool Lia.
From Stdlib Require Import Floats.SpecFloat.
Import ListNotations.

Local Open Scope Z_scope.

(* ------------------------------------------------------------------ *)
(** ** Machine integers *)

Module Machine.

Definition size_modulus : Z := 2 ^ 64.

(** Conversion of an integer value to [size_t]: reduction modulo 2^64. *)
Definition to_size_t (z : Z) : Z := z mod size_modulus.

(** Conversion to [int]: two's complement reduction to 32 bits. *)
Definition to_int (z : Z) : Z := (z + 2 ^ 31) mod 2 ^ 32 - 2 ^ 31.

Definition is_size_t (z : Z) : Prop := 0 <= z < size_modulus.
Definition is_int (z : Z) : Prop := - 2 ^ 31 <= z < 2 ^ 31.

Definition sz_add (a b : Z) : Z := to_size_t (a + b).
Definition sz_sub (a b : Z) : Z := to_size_t (a - b).
Definition sz_mul (a b : Z) : Z := to_size_t (a * b).

(** [std::max<size_t>(a, b)] is [(a < b) ? b : a]. *)
Definition std_max (a b : Z) : Z := if a <? b then b else a.

End Machine.
Import Machine.

(* ------------------------------------------------------------------ *)
(** ** Double precision numbers *)

Module Double.

Definition double : Type := spec_float.

Definition prec : Z := 53.
Definition emax : Z := 1024.

Definition mul : double -> double -> double := SFmul prec emax.
Definition div : double -> double -> double := SFdiv prec emax.
Definition add : double -> double -> double := SFadd prec emax.
Definition ltb : double -> double -> bool := SFltb.
Definition leb : double -> double -> bool := SFleb.

(** Conversion of an integer to [double], rounded to nearest-even. *)
Definition of_Z (z : Z) : double := binary_normalize prec emax z 0 false.

(** The literals of the source. *)
Definition one : double := S754_finite false 4503599627370496 (-52).
Definition zero : double := S754_zero false.
(** [1.2] is the double nearest to 6/5. *)
Definition d1_2 : double := S754_finite false 5404319552844595 (-52).
(** [0.75] *)
Definition d0_75 : double := S754_finite false 6755399441055744 (-53).

(** The integer part of a finite number, rounded toward zero. *)
Definition truncate (x : double) : option Z :=
  match x with
  | S754_zero _ => Some 0
  | S754_finite s m e =>
      let a := if 0 <=? e then Z.shiftl (Z.pos m) e
               else Z.shiftr (Z.pos m) (- e) in
      Some (if s then - a else a)
  | S754_infinity _ | S754_nan => None
  end.

(** [static_cast<size_t>(x)]: the value is truncated; the behaviour is
    undefined ([None]) when the truncated value is not a [size_t]. *)
Definition to_size_t (x : double) : option Z :=
  match truncate x with
  | Some t => if (0 <=? t) && (t <? size_modulus) then Some t else None
  | None => None
  end.

(** [std::max(a, b)] on doubles is [(a < b) ? b : a]. *)
Definition std_max (a b : double) : double := if ltb a b then b else a.

End Double.

(* ------------------------------------------------------------------ *)
(** ** Exceptions and the monad of the driver *)

(** The kinds of error of the design document.  A failed [xassert] is an
    [InternalInvariantError]. *)
Inductive exn : Type :=
  | ParseError
  | AllocationError
  | KeyboardInterrupt
  | InternalInvariantError.

Definition exn_eqb (a b : exn) : bool :=
  match a, b with
  | ParseError, ParseError
  | AllocationError, AllocationError
  | KeyboardInterrupt, KeyboardInterrupt
  | InternalInvariantError, InternalInvariantError => true
  | _, _ => false
  end.

(** What a call of an external collaborator gives back. *)
Inductive result (A : Type) : Type :=
  | Ok (a : A)
  | Raise (e : exn).
Arguments Ok {A} a.
Arguments Raise {A} e.

(** The outcome of running a piece of the driver from a state: it returns,
    it throws (the state reached when the exception left is kept, as the
    objects of the source are mutated in place), or its behaviour is
    undefined. *)
Inductive outcome (S A : Type) : Type :=
  | Ret (a : A) (s : S)
  | Throw (e : exn) (s : S)
  | Undefined.
Arguments Ret {S A} a s.
Arguments Throw {S A} e s.
Arguments Undefined {S A}.

Definition M (S A : Type) : Type := S -> outcome S A.

Definition ret {S A} (a : A) : M S A := fun s => Ret a s.

Definition bind {S A B} (m : M S A) (k : A -> M S B) : M S B :=
  fun s =>
    match m s with
    | Ret a s' => k a s'
    | Throw e s' => Throw e s'
    | Undefined => Undefined
    end.

Definition throw {S A} (e : exn) : M S A := fun s => Throw e s.
Definition undefined {S A} : M S A := fun _ => Undefined.
Definition get {S} : M S S := fun s => Ret s s.
Definition gets {S A} (f : S -> A) : M S A := fun s => Ret (f s) s.
Definition modify {S} (f : S -> S) : M S unit := fun s => Ret tt (f s).

(** [try { m } catch (...) { h }] *)
Definition try_catch {S A} (m : M S A) (h : exn -> M S A) : M S A :=
  fun s =>
    match m s with
    | Ret a s' => Ret a s'
    | Throw e s' => h e s'
    | Undefined => Undefined
    end.

(** A computation on a part [S] of the state [T]. *)
Definition zoom {S T A} (proj : T -> S) (upd : S -> T -> T) (m : M S A)
  : M T A :=
  fun t =>
    match m (proj t) with
    | Ret a s => Ret a (upd s t)
    | Throw e s => Throw e (upd s t)
    | Undefined => Undefined
    end.

(** A value whose computation may be undefined. *)
Definition defined {S A} (o : option A) : M S A :=
  match o with
  | Some a => ret a
  | None => undefined
  end.

Declare Scope drv_scope.
Delimit Scope drv_scope with drv.
Notation "x <- m ;; k" := (bind m (fun x => k))
  (at level 100, m at next level, right associativity) : drv_scope.
Notation "m ;; k" := (bind m (fun _ => k))
  (at level 100, right associativity) : drv_scope.
Local Open Scope drv_scope.

(** [xassert(b)].  Modelled from the spec: utils/assert.h is not among the
    sources; the design document makes a violated assertion of the driver an
    [InternalInvariantError]. *)
Definition xassert {S} (b : bool) : M S unit :=
  if b then ret tt else throw InternalInvariantError.

(** Unsigned division; dividing by zero is undefined. *)
Definition sz_div {S} (a b : Z) : M S Z :=
  if b =? 0 then undefined else ret (a / b).

(* ------------------------------------------------------------------ *)
(** ** Data of the reader *)

Record ChunkCoordinates : Type := mkCC {
  start : Z;
  end_ : Z;
  true_start : bool;
  true_end : bool
}.

(** A default-constructed [ChunkCoordinates]. *)
Definition cc_null : ChunkCoordinates := mkCC 0 0 false false.

(** What the driver does to the outside, in order. *)
Inductive Event : Type :=
  | Trace (arg : Z)
  | Progress (amount : Double.double) (status : Z)
  | ReadChunk (xcc : ChunkCoordinates)
  | PushBuffers (row0 used_nrows : Z)
  | OrderBuffer (row0 used_nrows : Z)
  | SetNrows (n : Z).

(** The [GenericReader] the driver works for: the input range, the options,
    the column store (its number of rows) and the journal of events. *)
Record GenericReader : Type := mkG {
  sof : Z;
  eof : Z;
  g_nthreads : Z;
  max_nrows : Z;
  report_progress : bool;
  columns : Z;
  journal : list Event
}.

Record ChunkedDataReader : Type := mkReader {
  g : GenericReader;
  chunkSize : Z;
  chunkCount : Z;
  inputStart : Z;
  inputEnd : Z;
  lastChunkEnd : Z;
  lineLength : Double.double;
  nthreads : Z;
  nrows_written : Z;
  nrows_allocated : Z;
  nrows_max : Z
}.

Definition set_g (x : GenericReader) (r : ChunkedDataReader) :=
  mkReader x (chunkSize r) (chunkCount r) (inputStart r) (inputEnd r)
    (lastChunkEnd r) (lineLength r) (nthreads r) (nrows_written r)
    (nrows_allocated r) (nrows_max r).
Definition set_chunkSize (x : Z) (r : ChunkedDataReader) :=
  mkReader (g r) x (chunkCount r) (inputStart r) (inputEnd r)
    (lastChunkEnd r) (lineLength r) (nthreads r) (nrows_written r)
    (nrows_allocated r) (nrows_max r).
Definition set_chunkCount (x : Z) (r : ChunkedDataReader) :=
  mkReader (g r) (chunkSize r) x (inputStart r) (inputEnd r)
    (lastChunkEnd r) (lineLength r) (nthreads r) (nrows_written r)
    (nrows_allocated r) (nrows_max r).
Definition set_lastChunkEnd (x : Z) (r : ChunkedDataReader) :=
  mkReader (g r) (chunkSize r) (chunkCount r) (inputStart r) (inputEnd r)
    x (lineLength r) (nthreads r) (nrows_written r)
    (nrows_allocated r) (nrows_max r).
Definition set_nthreads (x : Z) (r : ChunkedDataReader) :=
  mkReader (g r) (chunkSize r) (chunkCount r) (inputStart r) (inputEnd r)
    (lastChunkEnd r) (lineLength r) x (nrows_written r)
    (nrows_allocated r) (nrows_max r).
Definition set_nrows_written (x : Z) (r : ChunkedDataReader) :=
  mkReader (g r) (chunkSize r) (chunkCount r) (inputStart r) (inputEnd r)
    (lastChunkEnd r) (lineLength r) (nthreads r) x
    (nrows_allocated r) (nrows_max r).
Definition set_nrows_allocated (x : Z) (r : ChunkedDataReader) :=
  mkReader (g r) (chunkSize r) (chunkCount r) (inputStart r) (inputEnd r)
    (lastChunkEnd r) (lineLength r) (nthreads r) (nrows_written r)
    x (nrows_max r).

Definition emit (ev : Event) (x : GenericReader) : GenericReader :=
  mkG (sof x) (eof x) (g_nthreads x) (max_nrows x) (report_progress x)
    (columns x) (journal x ++ [ev]).
Definition set_columns (n : Z) (x : GenericReader) : GenericReader :=
  mkG (sof x) (eof x) (g_nthreads x) (max_nrows x) (report_progress x)
    n (journal x).

(** [g.trace(...)] with the number it prints. *)
Definition trace (arg : Z) : M ChunkedDataReader unit :=
  modify (fun r => set_g (emit (Trace arg) (g r)) r).

(* ------------------------------------------------------------------ *)
(** ** The chunking planner *)

Definition determine_chunking_strategy : M ChunkedDataReader unit :=
  r <- get ;;
  let inputSize := to_size_t (inputEnd r - inputStart r) in
  size1000 <- defined (Double.to_size_t
                         (Double.mul (Double.of_Z 1000) (lineLength r))) ;;
  let zThreads := to_size_t (nthreads r) in
  modify (set_chunkSize (std_max size1000 (Z.shiftl 1 18))) ;;
  r <- get ;;
  q <- sz_div inputSize (chunkSize r) ;;
  modify (set_chunkCount (std_max q 1)) ;;
  r <- get ;;
  (if chunkCount r >? zThreads then
     q' <- sz_div (sz_sub (chunkCount r) 1) zThreads ;;
     modify (set_chunkCount (sz_mul zThreads (sz_add 1 q')))
   else
     modify (set_nthreads (to_int (chunkCount r))) ;;
     r <- get ;;
     trace (nthreads r)) ;;
  r <- get ;;
  cs <- sz_div inputSize (chunkCount r) ;;
  modify (set_chunkSize cs).

(** The constructor; [columns reader] is [g.columns.get_nrows()]. *)
Definition new_reader (reader : GenericReader) (meanLineLen : Double.double)
  : outcome ChunkedDataReader unit :=
  let r := {| g := reader;
              chunkSize := 0;
              chunkCount := 0;
              inputStart := sof reader;
              inputEnd := eof reader;
              lastChunkEnd := sof reader;
              lineLength := Double.std_max meanLineLen Double.one;
              nthreads := g_nthreads reader;
              nrows_written := 0;
              nrows_allocated := columns reader;
              nrows_max := max_nrows reader |} in
  (xassert (nrows_allocated r <=? nrows_max r) ;;
   determine_chunking_strategy) r.

(* ------------------------------------------------------------------ *)
(** ** Collaborators *)

(** The parse context of a worker.  The driver reads and writes [row0] and
    [used_nrows]; the rest belongs to the concrete parser. *)
Record LocalParseContext (P : Type) : Type := mkCtx {
  row0 : Z;
  used_nrows : Z;
  priv : P
}.
Arguments mkCtx {P} _ _ _.
Arguments row0 {P} _.
Arguments used_nrows {P} _.
Arguments priv {P} _.

Definition set_row0 {P} (x : Z) (c : LocalParseContext P) :=
  mkCtx x (used_nrows c) (priv c).
Definition set_used_nrows {P} (x : Z) (c : LocalParseContext P) :=
  mkCtx (row0 c) x (priv c).

(** The operations a concrete parser provides.  Each one may raise, and
    leaves the context (and, for [read_chunk], the actual coordinates it
    writes through its second argument) in the state it reached. *)
Class ParseContextOps (P : Type) : Type := {
  init_thread_context : LocalParseContext P;
  read_chunk : ChunkCoordinates -> ChunkCoordinates -> LocalParseContext P ->
               result unit * ChunkCoordinates * LocalParseContext P;
  push_buffers : LocalParseContext P -> result unit * LocalParseContext P;
  orderBuffer : LocalParseContext P -> result unit * LocalParseContext P;
  adjust_chunk_coordinates :
    ChunkCoordinates -> LocalParseContext P -> ChunkCoordinates
}.

(** The base class leaves the coordinates as they are. *)
Definition adjust_chunk_coordinates_base {P}
  (c : ChunkCoordinates) (_ : LocalParseContext P) : ChunkCoordinates := c.

(** What the run-time system decides: the size of the team OpenMP grants,
    the thread that the dynamic schedule gives each chunk to, the readings
    of the wall clock, and whether a resize of the column store or a call of
    the progress callback raises. *)
Class Host : Type := {
  omp_get_num_threads : positive;
  schedule : nat -> nat;
  wallclock : nat -> Double.double;
  set_nrows_raises : Z -> option exn;
  progress_raises : Double.double -> Z -> option exn
}.

(** Modelled from the spec: [OmpExceptionManager] is not among the sources.
    It is a single slot that keeps the first exception captured. *)
Definition OmpExceptionManager : Type := option exn.

Definition oem_exception_caught (o : OmpExceptionManager) : bool :=
  match o with Some _ => true | None => false end.
Definition oem_is_keyboard_interrupt (o : OmpExceptionManager) : bool :=
  match o with Some KeyboardInterrupt => true | _ => false end.
Definition oem_capture_exception (e : exn) (o : OmpExceptionManager)
  : OmpExceptionManager :=
  match o with Some _ => o | None => Some e end.

(* ------------------------------------------------------------------ *)
(** ** The driver *)

Section Driver.

Context {P : Type} {ops : ParseContextOps P} {host : Host}.

(** The variables that every thread of the parallel region of [read_all]
    declares for itself. *)
Record Worker : Type := mkWorker {
  tMaster : bool;
  tShowProgress : bool;
  tShowAlways : bool;
  tShowWhen : Double.double;
  tctx : LocalParseContext P;
  txcc : ChunkCoordinates;
  tacc : ChunkCoordinates
}.

Definition set_tShowAlways (x : bool) (w : Worker) :=
  mkWorker (tMaster w) (tShowProgress w) x (tShowWhen w) (tctx w) (txcc w)
    (tacc w).
Definition set_tctx (x : LocalParseContext P) (w : Worker) :=
  mkWorker (tMaster w) (tShowProgress w) (tShowAlways w) (tShowWhen w) x
    (txcc w) (tacc w).
Definition set_txcc (x : ChunkCoordinates) (w : Worker) :=
  mkWorker (tMaster w) (tShowProgress w) (tShowAlways w) (tShowWhen w)
    (tctx w) x (tacc w).
Definition set_tacc (x : ChunkCoordinates) (w : Worker) :=
  mkWorker (tMaster w) (tShowProgress w) (tShowAlways w) (tShowWhen w)
    (tctx w) (txcc w) x.

(** What a thread works on inside the parallel region: the reader and the
    exception manager, which all threads share, the number of clock readings
    taken so far, and its own variables. *)
Record Thread : Type := mkThread {
  rdr : ChunkedDataReader;
  oem : OmpExceptionManager;
  ticks : nat;
  me : Worker
}.

Definition set_rdr (x : ChunkedDataReader) (t : Thread) :=
  mkThread x (oem t) (ticks t) (me t).
Definition set_oem (x : OmpExceptionManager) (t : Thread) :=
  mkThread (rdr t) x (ticks t) (me t).
Definition set_ticks (x : nat) (t : Thread) :=
  mkThread (rdr t) (oem t) x (me t).
Definition set_me (x : Worker) (t : Thread) :=
  mkThread (rdr t) (oem t) (ticks t) x.

(** A method of the reader called from a thread. *)
Definition on_reader {A} (m : M ChunkedDataReader A) : M Thread A :=
  zoom rdr set_rdr m.

Definition journal_event (ev : Event) : M ChunkedDataReader unit :=
  modify (fun r => set_g (emit ev (g r)) r).

(** [g.columns.set_nrows(n)] *)
Definition columns_set_nrows (n : Z) : M ChunkedDataReader unit :=
  match set_nrows_raises n with
  | Some e => throw e
  | None =>
      modify (fun r => set_g (set_columns n (emit (SetNrows n) (g r))) r)
  end.

(** [g.progress(amount, status)] *)
Definition progress (amount : Double.double) (status : Z)
  : M ChunkedDataReader unit :=
  journal_event (Progress amount status) ;;
  match progress_raises amount status with
  | Some e => throw e
  | None => ret tt
  end.

(** [wallclock()] *)
Definition read_wallclock : M Thread Double.double :=
  t <- get ;;
  modify (set_ticks (S (ticks t))) ;;
  ret (wallclock (ticks t)).

Definition exception_caught : M Thread bool :=
  gets (fun t => oem_exception_caught (oem t)).
Definition capture_exception (e : exn) : M Thread unit :=
  modify (fun t => set_oem (oem_capture_exception e (oem t)) t).

(** [tctx->read_chunk(txcc, tacc)] *)
Definition ctx_read_chunk : M Thread unit :=
  t <- get ;;
  on_reader (journal_event (ReadChunk (txcc (me t)))) ;;
  let '(res, acc, ctx) :=
    read_chunk (txcc (me t)) (tacc (me t)) (tctx (me t)) in
  modify (fun t => set_me (set_tacc acc (set_tctx ctx (me t))) t) ;;
  match res with
  | Ok _ => ret tt
  | Raise e => throw e
  end.

(** [tctx->push_buffers()] *)
Definition ctx_push_buffers : M Thread unit :=
  t <- get ;;
  on_reader (journal_event
               (PushBuffers (row0 (tctx (me t))) (used_nrows (tctx (me t))))) ;;
  let '(res, ctx) := push_buffers (tctx (me t)) in
  modify (fun t => set_me (set_tctx ctx (me t)) t) ;;
  match res with
  | Ok _ => ret tt
  | Raise e => throw e
  end.

(** [tctx->orderBuffer()] *)
Definition ctx_orderBuffer : M Thread unit :=
  t <- get ;;
  on_reader (journal_event
               (OrderBuffer (row0 (tctx (me t))) (used_nrows (tctx (me t))))) ;;
  let '(res, ctx) := orderBuffer (tctx (me t)) in
  modify (fun t => set_me (set_tctx ctx (me t)) t) ;;
  match res with
  | Ok _ => ret tt
  | Raise e => throw e
  end.

Definition compute_chunk_boundaries (i : Z) (ctx : LocalParseContext P)
  : M ChunkedDataReader ChunkCoordinates :=
  r <- get ;;
  xassert (i <? chunkCount r) ;;
  let isFirstChunk := i =? 0 in
  let isLastChunk := i =? sz_sub (chunkCount r) 1 in
  let c := cc_null in
  let c :=
    if (nthreads r =? 1) || isFirstChunk
    then mkCC (lastChunkEnd r) (end_ c) true (true_end c)
    else mkCC (inputStart r + sz_mul i (chunkSize r)) (end_ c)
           (true_start c) (true_end c) in
  let c :=
    if isLastChunk
    then mkCC (start c) (inputEnd r) (true_start c) true
    else mkCC (start c) (start c + chunkSize r) (true_start c) (true_end c) in
  ret (adjust_chunk_coordinates c ctx).

Definition work_done_amount (r : ChunkedDataReader) : Double.double :=
  let done := Double.of_Z (lastChunkEnd r - inputStart r) in
  let total := Double.of_Z (inputEnd r - inputStart r) in
  Double.div done total.

(** [1.2 * new_alloc * chunkCount / (ichunk + 1)], in double precision. *)
Definition exp_nrows (new_alloc chunkCount ichunk : Z) : Double.double :=
  Double.div
    (Double.mul (Double.mul Double.d1_2 (Double.of_Z new_alloc))
       (Double.of_Z chunkCount))
    (Double.of_Z (sz_add ichunk 1)).

Definition realloc_output_columns (ichunk new_alloc : Z)
  : M ChunkedDataReader unit :=
  r <- get ;;
  new_alloc <-
    (if ichunk =? sz_sub (chunkCount r) 1 then ret new_alloc
     else
       t <- defined (Double.to_size_t
                       (exp_nrows new_alloc (chunkCount r) ichunk)) ;;
       ret (std_max t (sz_add 1024 (nrows_allocated r)))) ;;
  let new_alloc := if new_alloc >? nrows_max r then nrows_max r
                   else new_alloc in
  modify (set_nrows_allocated new_alloc) ;;
  trace new_alloc ;;
  columns_set_nrows new_alloc.

(** [order_chunk(tacc, txcc, tctx)]; [n] is the value of the counter [i]
    when the condition of the [while] is tested. *)
Fixpoint order_chunk_loop (n : nat) : M Thread unit :=
  match n with
  | O => ret tt
  | S i =>
      t <- get ;;
      let acc := tacc (me t) in
      if (start acc =? lastChunkEnd (rdr t))
         && (end_ acc >=? lastChunkEnd (rdr t))
      then modify (fun t => set_rdr (set_lastChunkEnd (end_ acc) (rdr t)) t)
      else
        modify (fun t =>
                  let xcc := txcc (me t) in
                  set_me (set_txcc (mkCC (lastChunkEnd (rdr t)) (end_ xcc)
                                      true (true_end xcc)) (me t)) t) ;;
        ctx_read_chunk ;;
        xassert (negb (Nat.eqb i 0)) ;;
        order_chunk_loop i
  end.

Definition order_chunk : M Thread unit := order_chunk_loop 2.

(** *** The loop of [read_all] *)

(** The body of the [try] of the parse phase of iteration [i]. *)
Definition parse_phase (i : Z) : M Thread unit :=
  t <- get ;;
  show <-
    (if tShowAlways (me t) then ret true
     else if tShowProgress (me t) then
       now <- read_wallclock ;;
       ret (Double.leb (tShowWhen (me t)) now)
     else ret false) ;;
  (if show : bool then
     on_reader (r <- get ;; progress (work_done_amount r) 0) ;;
     modify (fun t => set_me (set_tShowAlways true (me t)) t)
   else ret tt) ;;
  ctx_push_buffers ;;
  t <- get ;;
  c <- on_reader (compute_chunk_boundaries i (tctx (me t))) ;;
  modify (fun t => set_me (set_txcc c (me t)) t) ;;
  ctx_read_chunk.

(** The body of the [try] of the ordered stage of iteration [i]. *)
Definition commit_phase (i : Z) : M Thread unit :=
  modify (fun t =>
            set_me (set_tctx (set_row0 (nrows_written (rdr t)) (tctx (me t)))
                      (me t)) t) ;;
  order_chunk ;;
  t <- get ;;
  let nrows_new :=
    sz_add (nrows_written (rdr t)) (used_nrows (tctx (me t))) in
  nrows_new <-
    (if nrows_new >? nrows_allocated (rdr t) then
       if nrows_allocated (rdr t) =? nrows_max (rdr t) then
         modify (fun t =>
                   set_me (set_tctx
                             (set_used_nrows
                                (sz_sub (nrows_allocated (rdr t))
                                   (nrows_written (rdr t)))
                                (tctx (me t)))
                             (me t)) t) ;;
         ret (nrows_allocated (rdr t))
       else
         on_reader (realloc_output_columns i nrows_new) ;;
         ret nrows_new
     else ret nrows_new) ;;
  modify (fun t => set_rdr (set_nrows_written nrows_new (rdr t)) t) ;;
  ctx_orderBuffer.

(** One iteration of the [omp for ordered] loop, run by the thread that the
    schedule chose. *)
Definition chunk_iteration (i : Z) : M Thread unit :=
  caught <- exception_caught ;;
  if caught : bool then ret tt
  else
    try_catch (parse_phase i) capture_exception ;;
    caught <- exception_caught ;;
    if caught : bool then ret tt
    else try_catch (commit_phase i) capture_exception.

(** The two blocks of an iteration, as a thread runs them: the [try] of the
    parse phase with its [catch], outside the ordered stage, and the
    [ordered] block, which starts by looking at the exception manager. *)
Definition parse_block (i : Z) : M Thread unit :=
  try_catch (parse_phase i) capture_exception.

Definition ordered_block (i : Z) : M Thread unit :=
  caught <- exception_caught ;;
  if caught : bool then ret tt
  else try_catch (commit_phase i) capture_exception.

(** What a thread does between the end of the loop and the end of the
    parallel region. *)
Definition discard_buffers : M Thread unit :=
  caught <- exception_caught ;;
  if caught : bool then
    modify (fun t => set_me (set_tctx (set_used_nrows 0 (tctx (me t)))
                               (me t)) t)
  else ret tt.

Definition final_push : M Thread unit :=
  t <- get ;;
  if negb (used_nrows (tctx (me t)) =? 0) then
    try_catch ctx_push_buffers capture_exception
  else ret tt.

Definition final_progress : M Thread unit :=
  t <- get ;;
  if tShowAlways (me t) then
    let status :=
      1 + Z.b2z (oem_exception_caught (oem t))
        + Z.b2z (oem_is_keyboard_interrupt (oem t)) in
    on_reader (progress (work_done_amount (rdr t)) status)
  else ret tt.

Definition thread_epilogue : M Thread unit :=
  discard_buffers ;;
  final_push ;;
  final_progress.

(** The variables of thread number [k] as it declares them after the
    barrier.  Only the master reads the clock. *)
Definition init_worker (isMaster : bool) : M Thread unit :=
  t <- get ;;
  let r := rdr t in
  let showProgress := report_progress (g r) && isMaster in
  let showAlways :=
    showProgress && (inputEnd r - inputStart r >? Z.shiftl 1 28) in
  showWhen <-
    (if showProgress then
       now <- read_wallclock ;; ret (Double.add now Double.d0_75)
     else ret Double.zero) ;;
  modify (set_me (mkWorker isMaster showProgress showAlways showWhen
                    init_thread_context cc_null cc_null)).

(** The state of the whole parallel region: what the threads share and the
    variables of each of them, the master first. *)
Record Region : Type := mkRegion {
  shared_rdr : ChunkedDataReader;
  shared_oem : OmpExceptionManager;
  clock : nat;
  workers : list Worker
}.

Fixpoint replace_nth {A} (k : nat) (x : A) (l : list A) : list A :=
  match l, k with
  | [], _ => []
  | _ :: l', O => x :: l'
  | y :: l', S k' => y :: replace_nth k' x l'
  end.

Definition leave_thread (k : nat) (t : Thread) (rg : Region) : Region :=
  mkRegion (rdr t) (oem t) (ticks t) (replace_nth k (me t) (workers rg)).

(** Thread [k] runs [m]. *)
Definition on_worker {A} (k : nat) (m : M Thread A) : M Region A :=
  fun rg =>
    match nth_error (workers rg) k with
    | None => Undefined
    | Some w =>
        match m (mkThread (shared_rdr rg) (shared_oem rg) (clock rg) w) with
        | Ret a t => Ret a (leave_thread k t rg)
        | Throw e t => Throw e (leave_thread k t rg)
        | Undefined => Undefined
        end
    end.

Fixpoint for_each {S A} (l : list A) (body : A -> M S unit) : M S unit :=
  match l with
  | [] => ret tt
  | x :: l' => body x ;; for_each l' body
  end.

Definition blank_worker : Worker :=
  mkWorker false false false Double.zero init_thread_context cc_null cc_null.

(** The block of the master thread that opens the region. *)
Definition master_block : M ChunkedDataReader unit :=
  r <- get ;;
  let actual_nthreads := to_int (Z.pos omp_get_num_threads) in
  if negb (actual_nthreads =? nthreads r) then
    modify (set_nthreads actual_nthreads) ;;
    trace actual_nthreads ;;
    determine_chunking_strategy
  else ret tt.

Definition team : nat := Pos.to_nat omp_get_num_threads.

(** The parallel region, with the iterations of the loop taken one after
    the other, in the order of their ordered stages: iteration [i] runs on
    thread [schedule i] (reduced modulo the size of the team), its parse
    block followed at once by its ordered block.  These are the runs in
    which no thread parses ahead of the ordered stage, and all the runs of
    a team of one thread; the runs in which the parse blocks of several
    threads overlap are those of [run_blocks] below. *)
Definition parallel_region : M Region unit :=
  zoom shared_rdr
    (fun r rg => mkRegion r (shared_oem rg) (clock rg) (workers rg))
    master_block ;;
  for_each (seq 0 team)
    (fun k => on_worker k (init_worker (Nat.eqb k 0))) ;;
  rg <- get ;;
  for_each (seq 0 (Z.to_nat (chunkCount (shared_rdr rg))))
    (fun i => on_worker (Nat.modulo (schedule i) team)
                (chunk_iteration (Z.of_nat i))) ;;
  for_each (seq 0 team) (fun k => on_worker k thread_epilogue).

Definition read_all : M ChunkedDataReader unit :=
  fun r =>
    match parallel_region
            (mkRegion r None 0 (repeat blank_worker team)) with
    | Undefined => Undefined
    | Throw _ _ =>
        (* an exception that leaves the parallel region *)
        Undefined
    | Ret _ rg =>
        match shared_oem rg with
        | Some e => Throw e (shared_rdr rg)
        | None =>
            (r' <- get ;;
             columns_set_nrows (nrows_written r') ;;
             if nrows_written r' <? nrows_max r' then
               xassert (lastChunkEnd r' =? inputEnd r')
             else ret tt) (shared_rdr rg)
        end
    end.

(** *** The blocks of the loop, side by side *)

(** In a team of several threads the parse blocks of different iterations
    run side by side, outside the ordered stage; only the ordered blocks
    run one at a time, in the order of the iterations.  A run of the loop is
    then a sequence of blocks, each run as a whole by the thread of its
    iteration, on the state that the blocks before it have left. *)
Inductive Block : Type :=
  | ParseBlock (i : nat)
  | OrderedBlock (i : nat).

Definition block_index (b : Block) : nat :=
  match b with
  | ParseBlock i | OrderedBlock i => i
  end.

(** The body of the loop before the ordered stage: an iteration that finds
    an exception captured goes on to the next one, and otherwise runs its
    parse block. *)
Definition parse_stage (i : Z) : M Thread unit :=
  caught <- exception_caught ;;
  if caught : bool then ret tt else parse_block i.

(** A block, run by the thread of its iteration.  Each block is taken as a
    whole: a parse block works on the parse context of its own thread, and
    reads of what the threads share only the plan, which the loop does
    not change, [lastChunkEnd] for chunk 0 or in a team of one, where no
    ordered block can run beside it, and [lastChunkEnd] for the progress
    report of the master.  An iteration that found an exception captured at
    its top has no ordered block; its ordered block here finds the
    exception still captured and does nothing. *)
Definition run_block (b : Block) : M Region unit :=
  match b with
  | ParseBlock i =>
      on_worker (Nat.modulo (schedule i) team) (parse_stage (Z.of_nat i))
  | OrderedBlock i =>
      on_worker (Nat.modulo (schedule i) team) (ordered_block (Z.of_nat i))
  end.

Definition run_blocks (bs : list Block) : M Region unit :=
  for_each bs run_block.

(** The order of [parallel_region]: each parse block is followed at once
    by its ordered block. *)
Definition one_by_one (n : nat) : list Block :=
  flat_map (fun i => [ParseBlock i; OrderedBlock i]) (seq 0 n).

(** The orders that the loop allows for [n] iterations.  The ordered blocks
    come in the order of the iterations; the parse block of an iteration
    comes before its ordered block; a thread takes an iteration only when
    it has finished the one it had; and every iteration is run.  [parsed]
    lists the iterations whose parse block has been run, [busy] those of
    them whose ordered block has not, and [next] is the iteration whose
    ordered block comes next. *)
Fixpoint allowed_from (n : nat) (parsed busy : list nat) (next : nat)
  (bs : list Block) : bool :=
  match bs with
  | [] => Nat.eqb next n && Nat.eqb (length busy) 0
  | ParseBlock i :: bs' =>
      negb (existsb (Nat.eqb i) parsed)
      && negb (existsb
                 (fun j => Nat.eqb (Nat.modulo (schedule j) team)
                             (Nat.modulo (schedule i) team)) busy)
      && allowed_from n (i :: parsed) (i :: busy) next bs'
  | OrderedBlock i :: bs' =>
      Nat.eqb i next
      && existsb (Nat.eqb i) busy
      && allowed_from n parsed
           (filter (fun j => negb (Nat.eqb j i)) busy) (S next) bs'
  end.

Definition allowed (n : nat) (bs : list Block) : bool :=
  allowed_from n [] [] 0 bs.

End Driver.

Arguments Worker : clear implicits.
Arguments Thread : clear implicits.
Arguments Region : clear implicits.

(* ------------------------------------------------------------------ *)
(** * Notions used in the statements *)

(** ** Arithmetic *)

(** The quotient rounded up. *)
Definition ceil_div (a b : Z) : Z := (a + b - 1) / b.

(** A mantissa of 53 bits. *)
Definition canonical (m : positive) : Prop := 2 ^ 52 <= Z.pos m < 2 ^ 53.

(** [2^64] and [1.2 * 2^64] as doubles. *)
Definition two64 : Double.double := S754_finite false 4503599627370496 12.
Definition K_mant : positive := 5404319552844595.
Definition K : Double.double := S754_finite false K_mant 12.

Definition is_two64 (x : Double.double) : bool :=
  match x with
  | S754_finite false m e => Pos.eqb m 4503599627370496 && (e =? 12)
  | _ => false
  end.

(** ** Outcomes *)

(** [post o Q]: when the run returned or threw, the state it left is in
    [Q]. *)
Definition post {S A} (o : outcome S A) (Q : S -> Prop) : Prop :=
  match o with
  | Ret _ s | Throw _ s => Q s
  | Undefined => True
  end.

(** [hoare P m Q]: from a state in [P], when [m] returns or throws, the
    state it leaves is in [Q]. *)
Definition hoare {S A} (P : S -> Prop) (m : M S A) (Q : S -> Prop) : Prop :=
  forall s, P s -> post (m s) Q.

(** The state in which a run ends, whether it returns or throws. *)
Definition final_state {S A} (o : outcome S A) : option S :=
  match o with
  | Ret _ s | Throw _ s => Some s
  | Undefined => None
  end.

(** ** The journal *)

Definition is_ReadChunk (ev : Event) : bool :=
  match ev with ReadChunk _ => true | _ => false end.
Definition is_PushBuffers (ev : Event) : bool :=
  match ev with PushBuffers _ _ => true | _ => false end.
Definition is_Progress (ev : Event) : bool :=
  match ev with Progress _ _ => true | _ => false end.

(** The number of calls of [read_chunk] that a journal records. *)
Definition read_chunk_calls (j : list Event) : nat :=
  length (filter is_ReadChunk j).

(** The calls of [push_buffers] that a journal records. *)
Definition pushes (j : list Event) : list Event := filter is_PushBuffers j.

(** ** The words of the design document *)

(** The sizing policy: the projection
    [1.2 * new_required * chunk_count / (i + 1)] taken exactly and rounded
    up. *)
Definition documented_new_alloc (r : ChunkedDataReader) (i new_required : Z)
  : Z :=
  let new_alloc :=
    if i =? chunkCount r - 1 then new_required
    else Z.max (ceil_div (6 * new_required * chunkCount r) (5 * (i + 1)))
           (nrows_allocated r + 1024) in
  Z.min new_alloc (nrows_max r).


(** ** The reconciler and the allocator, step by step *)

(** The condition under which [order_chunk] accepts the coordinates. *)
Definition accepts (acc : ChunkCoordinates) (lce : Z) : bool :=
  (start acc =? lce) && (end_ acc >=? lce).

(** The size that [realloc_output_columns] asks for before it is clamped:
    the request itself for the last chunk, and otherwise the larger of the
    projection [exp_nrows], truncated, and of [1024 + nrows_allocated].
    There is none when the projection is not a [size_t]. *)
Definition projected_alloc (r : ChunkedDataReader) (ichunk new_alloc : Z)
  : option Z :=
  if ichunk =? sz_sub (chunkCount r) 1 then Some new_alloc
  else
    match Double.to_size_t (exp_nrows new_alloc (chunkCount r) ichunk) with
    | Some t => Some (Z.max t (sz_add 1024 (nrows_allocated r)))
    | None => None
    end.

(** The reader after a reallocation to [n] rows: before the column store
    is resized, and after. *)
Definition realloc_started (n : Z) (r : ChunkedDataReader) :=
  set_g (emit (Trace n) (g r)) (set_nrows_allocated n r).
Definition realloc_done (n : Z) (r : ChunkedDataReader) :=
  let r1 := realloc_started n r in
  set_g (set_columns n (emit (SetNrows n) (g r1))) r1.

Section Steps.

Context {P : Type} {ops : ParseContextOps P}.

Definition calls (t : Thread P) : nat :=
  read_chunk_calls (journal (g (rdr t))).

(** Accepting: [lastChunkEnd = acc.end]. *)
Definition advance (t : Thread P) : Thread P :=
  set_rdr (set_lastChunkEnd (end_ (tacc (me t))) (rdr t)) t.

(** The second half of the body of the loop of [order_chunk]: the expected
    coordinates are moved to [lastChunkEnd], marked as a true start, and the
    chunk is parsed again.  The result of the parser and the state it
    leaves. *)
Definition reparse (t : Thread P) : result unit * Thread P :=
  let xcc := mkCC (lastChunkEnd (rdr t)) (end_ (txcc (me t))) true
               (true_end (txcc (me t))) in
  let '(res, acc, ctx) := read_chunk xcc (tacc (me t)) (tctx (me t)) in
  (res,
   mkThread (set_g (emit (ReadChunk xcc) (g (rdr t))) (rdr t)) (oem t)
     (ticks t)
     (mkWorker (tMaster (me t)) (tShowProgress (me t)) (tShowAlways (me t))
        (tShowWhen (me t)) ctx xcc acc)).


Definition with_event (ev : Event) (t : Thread P) : Thread P :=
  set_rdr (set_g (emit ev (g (rdr t))) (rdr t)) t.

Definition zero_used_nrows (t : Thread P) : Thread P :=
  set_me (set_tctx (set_used_nrows 0 (tctx (me t))) (me t)) t.

Definition region_pushes (rg : Region P) : list Event :=
  pushes (journal (g (shared_rdr rg))).

End Steps.

(** ** Properties that the parts of the loop leave alone *)

(** A property of the reader that does not depend on [g], on
    [nrows_allocated], on [lastChunkEnd]. *)
Definition g_insensitive (Q : ChunkedDataReader -> Prop) : Prop :=
  forall r x, Q r -> Q (set_g x r).
Definition alloc_insensitive (Q : ChunkedDataReader -> Prop) : Prop :=
  forall r x, Q r -> Q (set_nrows_allocated x r).
Definition lce_insensitive (Q : ChunkedDataReader -> Prop) : Prop :=
  forall r x, Q r -> Q (set_lastChunkEnd x r).
Definition written_insensitive (Q : ChunkedDataReader -> Prop) : Prop :=
  forall r x, Q r -> Q (set_nrows_written x r).

(** A property of the reader that does not depend on what the planner
    decides: the chunk size, the chunk count (a [size_t]) and the number of
    threads. *)
Definition plan_insensitive (Q : ChunkedDataReader -> Prop) : Prop :=
  (forall r x, Q r -> Q (set_chunkSize x r)) /\
  (forall r x, 0 <= x < 2 ^ 64 -> Q r -> Q (set_chunkCount x r)) /\
  (forall r x, Q r -> Q (set_nthreads x r)).

(** A property of the reader, for a given number of chunks. *)
Definition at_chunkCount (Q : ChunkedDataReader -> Prop) (c : Z)
  (r : ChunkedDataReader) : Prop :=
  Q r /\ chunkCount r = c.

(** [nrows_allocated] stays between [a] and [nrows_max = mx]. *)
Definition alloc_between (a mx : Z) (r : ChunkedDataReader) : Prop :=
  a <= nrows_allocated r <= mx /\ nrows_max r = mx.

(** A property of the reader, seen from a thread and from the region. *)
Definition lift_rdr {P} (Q : ChunkedDataReader -> Prop) (t : Thread P)
  : Prop := Q (rdr t).
Definition lift_region {P} (Q : ChunkedDataReader -> Prop) (rg : Region P)
  : Prop := Q (shared_rdr rg).

(** A property of the variables of a thread that does not depend on its
    parse context nor on its chunk coordinates. *)
Definition flags_only {P} (W : Worker P -> Prop) : Prop :=
  (forall w x, W w -> W (set_tctx x w)) /\
  (forall w x, W w -> W (set_txcc x w)) /\
  (forall w x, W w -> W (set_tacc x w)).

Definition lift_me {P} (W : Worker P -> Prop) (t : Thread P) : Prop :=
  W (me t).


(** A part of the loop that leaves [nrows_allocated] as it is. *)
Definition keeps_nrows_allocated {P A} (m : M (Thread P) A) : Prop :=
  forall t, post (m t)
              (fun t' => nrows_allocated (rdr t') = nrows_allocated (rdr t)).

(** ** Further notions *)

(** A run that lets no exception out. *)
Definition never_throws {S A} (o : outcome S A) : Prop :=
  match o with
  | Throw _ _ => False
  | _ => True
  end.

(** The exception manager, seen from a thread. *)
Definition lift_oem {P} (o : OmpExceptionManager) (t : Thread P) : Prop :=
  oem t = o.

(** The capacity discipline of a reader whose column store has reached the
    row limit. *)
Definition at_cap (r : ChunkedDataReader) : Prop :=
  0 <= nrows_written r <= nrows_allocated r /\
  nrows_allocated r = nrows_max r.

(** The capacity discipline. *)
Definition capacity_discipline (r : ChunkedDataReader) : Prop :=
  0 <= nrows_written r <= nrows_allocated r /\
  nrows_allocated r <= nrows_max r.

(** The value of a positive finite double, as a rational number. *)
Definition pval (m : positive) (e : Z) : Q :=
  (inject_Z (Z.pos m) * 2 ^ e)%Q.

(** The relative error of one rounding is at most [2^-52]. *)
Definition eps : Q := (1 # 4503599627370496)%Q.

(** The progress reports that a journal records. *)
Definition progress_events (r : ChunkedDataReader) : list Event :=
  filter is_Progress (journal (g r)).

(** A property of the reader that, of all that the driver does, only a
    progress report can change. *)
Definition progress_only (Q : ChunkedDataReader -> Prop) : Prop :=
  (forall r ev, is_Progress ev = false ->
                Q r -> Q (set_g (emit ev (g r)) r)) /\
  (forall r n, Q r -> Q (set_g (set_columns n (g r)) r)) /\
  lce_insensitive Q /\ alloc_insensitive Q /\ written_insensitive Q /\
  plan_insensitive Q.

(** A worker that shows no progress, a thread and a parallel region whose
    workers show none. *)
Definition quiet {P} (w : Worker P) : Prop :=
  tShowProgress w = false /\ tShowAlways w = false.

Definition quiet_thread {P} (Q : ChunkedDataReader -> Prop) (t : Thread P)
  : Prop :=
  lift_rdr Q t /\ lift_me quiet t.

Definition quiet_region {P} (Q : ChunkedDataReader -> Prop) (rg : Region P)
  : Prop :=
  Q (shared_rdr rg) /\ Forall quiet (workers rg).

(** A parser whose [read_chunk] leaves [row0] to the driver. *)
Definition read_chunk_keeps_row0 {P} (ops : ParseContextOps P) : Prop :=
  forall xcc acc ctx, row0 (snd (read_chunk xcc acc ctx)) = row0 ctx.

(** Where the rows of the chunk being committed go. *)
Definition rows_at {P} (w a : Z) (t : Thread P) : Prop :=
  row0 (tctx (me t)) = w /\ nrows_written (rdr t) = w /\
  nrows_allocated (rdr t) = a.

(** A property of the reader that no entry of the journal changes. *)
Definition journal_insensitive (Q : ChunkedDataReader -> Prop) : Prop :=
  forall r ev, Q r -> Q (set_g (emit ev (g r)) r).

(** The column store has the rows that the reader counts as allocated. *)
Definition store_in_step (r : ChunkedDataReader) : Prop :=
  columns (g r) = nrows_allocated r.

(** A property of what the threads share, the reader and the exception
    manager, seen from a thread and from the region. *)
Definition lift_shared {P}
  (Inv : ChunkedDataReader -> OmpExceptionManager -> Prop) (t : Thread P)
  : Prop := Inv (rdr t) (oem t).
Definition lift_shared_region {P}
  (Inv : ChunkedDataReader -> OmpExceptionManager -> Prop) (rg : Region P)
  : Prop := Inv (shared_rdr rg) (shared_oem rg).

(** A property of the reader that holds as long as no exception has been
    captured. *)
Definition unless_failed (Q : ChunkedDataReader -> Prop)
  (r : ChunkedDataReader) (o : OmpExceptionManager) : Prop :=
  o = None -> Q r.

(** A thread that has seen an exception captured. *)
Definition caught {P} (t : Thread P) : Prop :=
  oem_exception_caught (oem t) = true.






(** ** Scenarios *)

(** A host that grants [n] threads, gives chunk [i] to thread [i mod n],
    whose clock stands still, and where nothing raises. *)
Definition still_host (n : positive) : Host :=
  {| omp_get_num_threads := n;
     schedule := fun i => i;
     wallclock := fun _ => Double.zero;
     set_nrows_raises := fun _ => None;
     progress_raises := fun _ _ => None |}.

(** A parser that consumes exactly the range it is given and finds [rows]
    rows in it. *)
Definition exact_parser (rows : Z) : ParseContextOps unit :=
  {| init_thread_context := mkCtx 0 0 tt;
     read_chunk := fun xcc _ ctx =>
       (Ok tt, mkCC (start xcc) (end_ xcc) false false,
        set_used_nrows rows ctx);
     push_buffers := fun ctx => (Ok tt, set_used_nrows 0 ctx);
     orderBuffer := fun ctx => (Ok tt, ctx);
     adjust_chunk_coordinates := adjust_chunk_coordinates_base |}.

(** A parser that reads on to the end of the input at [eof] (one record
    that spans the chunks). *)
Definition greedy_parser (eof : Z) : ParseContextOps unit :=
  {| init_thread_context := mkCtx 0 0 tt;
     read_chunk := fun xcc _ ctx =>
       (Ok tt, mkCC (start xcc) eof false false,
        set_used_nrows (if start xcc <? eof then 1 else 0) ctx);
     push_buffers := fun ctx => (Ok tt, set_used_nrows 0 ctx);
     orderBuffer := fun ctx => (Ok tt, ctx);
     adjust_chunk_coordinates := adjust_chunk_coordinates_base |}.

(** A parser that never starts where it is told to. *)
Definition stubborn_parser : ParseContextOps unit :=
  {| init_thread_context := mkCtx 0 0 tt;
     read_chunk := fun xcc _ ctx =>
       (Ok tt, mkCC (start xcc + 1) (end_ xcc) false false,
        set_used_nrows 1 ctx);
     push_buffers := fun ctx => (Ok tt, set_used_nrows 0 ctx);
     orderBuffer := fun ctx => (Ok tt, ctx);
     adjust_chunk_coordinates := adjust_chunk_coordinates_base |}.

(** S1 of the design document: 100 bytes, lines of 10 bytes, 4 threads
    asked for. *)
Definition reader_S1 : ChunkedDataReader :=
  mkReader (mkG 0 100 4 1000000 false 0 []) 0 0 0 100 0 (Double.of_Z 10) 4
    0 0 1000000.

(** S2: 1 MiB, lines of 50 bytes, 4 threads. *)
Definition reader_S2 : ChunkedDataReader :=
  mkReader (mkG 0 (2 ^ 20) 4 1000000 false 0 []) 0 0 0 (2 ^ 20) 0
    (Double.of_Z 50) 4 0 0 1000000.

(** A reader of 100 bytes in one chunk, capped at 10 rows, with nothing
    allocated yet, as its constructor leaves it. *)
Definition capped_g : GenericReader := mkG 0 100 1 10 true 0 [].

Definition capped_reader : ChunkedDataReader :=
  mkReader (mkG 0 100 1 10 true 0 [Trace 1]) 100 1 0 100 0 Double.one 1
    0 0 10.

(** A reader of 512 KiB in two chunks for one thread. *)
Definition two_chunk_g : GenericReader := mkG 0 (2 ^ 19) 1 1000000 true 5 [].

Definition two_chunk_reader : ChunkedDataReader :=
  mkReader two_chunk_g (2 ^ 18) 2 0 (2 ^ 19) 0 Double.one 1 0 5 1000000.

(** A reader halfway through eight chunks, with 1000 rows allocated. *)
Definition growing_reader : ChunkedDataReader :=
  mkReader (mkG 0 (2 ^ 21) 1 1000000 false 1000 []) (2 ^ 18) 8 0 (2 ^ 21)
    (2 ^ 18) Double.one 1 900 1000 1000000.

(** The variables of the only thread of a team of one, as [init_worker]
    leaves them when no progress is shown at once. *)
Definition lone_worker (showProgress : bool) : Worker unit :=
  mkWorker true showProgress false
    (if showProgress then Double.d0_75 else Double.zero)
    (mkCtx 0 0 tt) cc_null cc_null.

Definition lone_thread (r : ChunkedDataReader) : Thread unit :=
  mkThread r None (if report_progress (g r) then 1%nat else 0%nat)
    (lone_worker (report_progress (g r))).

Definition lone_region (r : ChunkedDataReader) : Region unit :=
  mkRegion r None (if report_progress (g r) then 1%nat else 0%nat)
    [lone_worker (report_progress (g r))].

(** S2 as the planner leaves it: four chunks of 256 KiB for four threads. *)
Definition planned_S2 : ChunkedDataReader :=
  mkReader (mkG 0 (2 ^ 20) 4 1000000 false 0 []) (2 ^ 18) 4 0 (2 ^ 20) 0
    (Double.of_Z 50) 4 0 0 1000000.

(** A thread that has parsed the first of two chunks. *)
Definition parsed_thread : Thread unit :=
  mkThread two_chunk_reader None 1
    (mkWorker true true false Double.d0_75 (mkCtx 0 7 tt)
       (mkCC 0 (2 ^ 18) true false) (mkCC 0 (2 ^ 18 + 3) false false)).

(** A team of two after one of them has captured a parse error. *)
Definition failed_region : Region unit :=
  mkRegion capped_reader (Some ParseError) 1
    [mkWorker true true false Double.d0_75 (mkCtx 0 7 tt) cc_null cc_null;
     mkWorker false false false Double.zero (mkCtx 7 7 tt) cc_null cc_null].

(** A reader whose column store is at the row limit of 10 rows, 3 of them
    written. *)
Definition full_reader : ChunkedDataReader :=
  mkReader (mkG 0 100 1 10 false 10 []) 100 1 0 100 0 Double.one 1 3 10 10.

(** The reader that a run over 100 bytes with 5 rows leaves. *)
Definition short_run_result : ChunkedDataReader :=
  Eval vm_compute in
    match @read_all unit (exact_parser 5) (still_host 1) capped_reader with
    | Ret _ r' => r'
    | _ => capped_reader
    end.

(** A reader of 512 KiB in two chunks for one thread, without a row
    limit. *)
Definition unlimited_reader : ChunkedDataReader :=
  mkReader (mkG 0 (2 ^ 19) 1 (2 ^ 64 - 1) false 5 []) (2 ^ 18) 2 0 (2 ^ 19)
    0 Double.one 1 0 5 (2 ^ 64 - 1).

(** The thread [parsed_thread] after the commit phase of its chunk. *)
Definition committed_thread : Thread unit :=
  Eval vm_compute in
    match @commit_phase unit (exact_parser 5) (still_host 1) 0 parsed_thread
    with
    | Ret _ t' => t'
    | _ => parsed_thread
    end.

(** A parser whose [read_chunk] raises. *)
Definition failing_parser : ParseContextOps unit :=
  {| init_thread_context := mkCtx 0 0 tt;
     read_chunk := fun xcc acc ctx => (Raise ParseError, acc, ctx);
     push_buffers := fun ctx => (Ok tt, set_used_nrows 0 ctx);
     orderBuffer := fun ctx => (Ok tt, ctx);
     adjust_chunk_coordinates := adjust_chunk_coordinates_base |}.




(** A team of four before the loop over the four chunks of S2, and an
    order of the blocks in which the threads parse ahead of the ordered
    stage. *)
Definition team_region : Region unit :=
  mkRegion planned_S2 None 0
    (repeat (mkWorker false false false Double.zero (mkCtx 0 0 tt) cc_null
               cc_null) 4).

Definition parse_ahead : list Block :=
  [ParseBlock 0; ParseBlock 1; ParseBlock 2; OrderedBlock 0; ParseBlock 3;
   OrderedBlock 1; OrderedBlock 2; OrderedBlock 3].

(* ------------------------------------------------------------------ *)
(** * Properties *)

(** ** Machine arithmetic *)

Lemma to_size_t_id z : 0 <= z < 2 ^ 64 -> to_size_t z = z.
Proof. intros H. unfold to_size_t, size_modulus. apply Z.mod_small. lia. Qed.

Lemma to_size_t_range z : 0 <= to_size_t z < 2 ^ 64.
Proof. unfold to_size_t, size_modulus. apply Z.mod_pos_bound. lia. Qed.

Lemma to_int_id z : - 2 ^ 31 <= z < 2 ^ 31 -> to_int z = z.
Proof. intros H. unfold to_int. rewrite Z.mod_small; lia. Qed.

Lemma std_max_eq a b : std_max a b = Z.max a b.
Proof. unfold std_max. destruct (Z.ltb_spec a b); lia. Qed.

Lemma double_to_size_t_range x t :
  Double.to_size_t x = Some t -> 0 <= t < 2 ^ 64.
Proof.
  unfold Double.to_size_t.
  destruct (Double.truncate x) as [u|]; [|discriminate].
  destruct (Z.leb_spec 0 u); destruct (Z.ltb_spec u size_modulus); simpl;
    try discriminate.
  intros [= <-]. unfold size_modulus in *. lia.
Qed.

Lemma ceil_div_spec a b :
  0 < b -> b * (ceil_div a b - 1) < a <= b * ceil_div a b.
Proof.
  intros Hb. unfold ceil_div.
  pose proof (Z.div_mod (a + b - 1) b ltac:(lia)) as E.
  pose proof (Z.mod_pos_bound (a + b - 1) b Hb) as Hm.
  lia.
Qed.

Lemma ceil_div_alt a b : 0 < b -> 1 + (a - 1) / b = ceil_div a b.
Proof.
  intros Hb. unfold ceil_div.
  replace (a + b - 1) with (a - 1 + 1 * b) by lia.
  rewrite Z.div_add by lia. lia.
Qed.

(** ** Doubles

    What rounding to nearest does to a mantissa, read off the definitions
    of [SpecFloat], as far as the allocator needs it: near the top of
    [size_t] the projection [exp_nrows] is too large for a [size_t]. *)

Lemma digits2_pos_spec (p : positive) :
  2 ^ (Z.pos (digits2_pos p) - 1) <= Z.pos p < 2 ^ Z.pos (digits2_pos p).
Proof.
  induction p as [p IH|p IH|]; cbn [digits2_pos].
  - rewrite Pos2Z.inj_succ. replace (Z.succ (Z.pos (digits2_pos p)) - 1) with (Z.succ (Z.pos (digits2_pos p) - 1)) by lia.
    rewrite !Z.pow_succ_r by lia. lia.
  - rewrite Pos2Z.inj_succ. replace (Z.succ (Z.pos (digits2_pos p)) - 1) with (Z.succ (Z.pos (digits2_pos p) - 1)) by lia.
    rewrite !Z.pow_succ_r by lia. lia.
  - cbn. lia.
Qed.

Lemma digits2_pos_unique (p : positive) (d : Z) :
  2 ^ (d - 1) <= Z.pos p < 2 ^ d -> Z.pos (digits2_pos p) = d.
Proof.
  intros [Hlo Hhi]. pose proof (digits2_pos_spec p) as [Slo Shi].
  set (D := Z.pos (digits2_pos p)) in *.
  assert (0 < d).
  { destruct (Z.ltb_spec 0 d); [lia|].
    assert (2 ^ d <= 2 ^ 0) by (destruct (Z.eq_dec d 0); [subst; lia|rewrite Z.pow_neg_r by lia; lia]).
    change (2 ^ 0) with 1 in *. lia. }
  destruct (Z.lt_trichotomy D d) as [Hlt|[Heq|Hgt]]; [|exact Heq|].
  - assert (2 ^ D <= 2 ^ (d - 1)) by (apply Z.pow_le_mono_r; lia). lia.
  - assert (2 ^ d <= 2 ^ (D - 1)) by (apply Z.pow_le_mono_r; lia). lia.
Qed.

Lemma shr_1_m (mrs : shr_record) :
  0 <= shr_m mrs -> shr_m (shr_1 mrs) = shr_m mrs / 2 /\ 0 <= shr_m (shr_1 mrs).
Proof.
  destruct mrs as [m r s]. cbn [shr_m]. intros Hm.
  destruct m as [|[p|p|]|p]; cbn [shr_1 shr_m].
  - split; [reflexivity|lia].
  - rewrite Pos2Z.inj_xI. split; [|lia]. apply Z.div_unique with (r := 1); lia.
  - rewrite Pos2Z.inj_xO. split; [|lia]. apply Z.div_unique with (r := 0); lia.
  - split; [reflexivity|lia].
  - lia.
Qed.

Lemma pow2_xO (p : positive) : 2 ^ Z.pos p~0 = 2 ^ Z.pos p * 2 ^ Z.pos p.
Proof.
  rewrite <- Z.pow_add_r by lia. f_equal. lia.
Qed.

Lemma pow2_xI (p : positive) : 2 ^ Z.pos p~1 = 2 * 2 ^ Z.pos p * 2 ^ Z.pos p.
Proof.
  rewrite <- Z.mul_assoc, <- Z.pow_add_r by lia.
  rewrite <- Z.pow_succ_r by lia. f_equal. lia.
Qed.

Lemma iter_shr_m (p : positive) : forall mrs,
  0 <= shr_m mrs ->
  shr_m (iter_pos shr_1 p mrs) = shr_m mrs / 2 ^ Z.pos p /\
  0 <= shr_m (iter_pos shr_1 p mrs).
Proof.
  assert (Hpos : forall q : positive, 0 < 2 ^ Z.pos q) by (intros; apply Z.pow_pos_nonneg; lia).
  induction p as [p IH|p IH|]; intros mrs Hm; cbn [iter_pos].
  - destruct (shr_1_m mrs Hm) as [E1 H1].
    destruct (IH _ H1) as [E2 H2]. destruct (IH _ H2) as [E3 H3].
    split; [|exact H3]. rewrite E3, E2, E1, pow2_xI.
    pose proof (Hpos p).
    rewrite !Z.div_div by lia. f_equal. lia.
  - destruct (IH _ Hm) as [E2 H2]. destruct (IH _ H2) as [E3 H3].
    split; [|exact H3]. rewrite E3, E2, pow2_xO.
    pose proof (Hpos p).
    rewrite !Z.div_div by lia. reflexivity.
  - destruct (shr_1_m mrs Hm) as [E1 H1]. split; [|exact H1]. rewrite E1. reflexivity.
Qed.

Lemma round_nearest_even_cases (q : Z) (l : location) :
  round_nearest_even q l = q \/ round_nearest_even q l = q + 1.
Proof.
  destruct l as [|[ | | ]]; cbn [round_nearest_even]; auto.
  destruct (Z.even q); auto.
Qed.

Lemma loc_of_shr_record_of_loc (m : Z) (l : location) :
  loc_of_shr_record (shr_record_of_loc m l) = l /\ shr_m (shr_record_of_loc m l) = m.
Proof. destruct l as [|[ | | ]]; split; reflexivity. Qed.

(** What rounding gives for a mantissa of at least 53 digits, away from
    the subnormal and infinite ranges. *)
Lemma binary_round_aux_spec (m : positive) (e : Z) (l : location) :
  let D := Z.pos (digits2_pos m) in
  let k := D - 53 in
  let q := Z.pos m / 2 ^ k in
  53 <= D -> -1074 <= e + k -> e + k < 971 ->
  exists m' : positive,
    (binary_round_aux 53 1024 false (Z.pos m) e l = S754_finite false m' (e + k) /\
     (Z.pos m' = q \/ Z.pos m' = q + 1) /\ 2 ^ 52 <= Z.pos m' < 2 ^ 53) \/
    (binary_round_aux 53 1024 false (Z.pos m) e l = S754_finite false m' (e + k + 1) /\
     Z.pos m' = 2 ^ 52 /\ q + 1 = 2 ^ 53).
Proof.
  intros D k q HD Hlo Hhi.
  assert (ED : Z.pos (digits2_pos m) = D) by reflexivity.
  assert (Ek : k = D - 53) by reflexivity.
  assert (Eq : q = Z.pos m / 2 ^ k) by reflexivity.
  clearbody q k D.
  pose proof (digits2_pos_spec m) as [Mlo Mhi]. rewrite ED in Mlo, Mhi.
  assert (Hk : 0 <= k) by lia.
  assert (Hpk : 0 < 2 ^ k) by (apply Z.pow_pos_nonneg; lia).
  assert (Hq : 2 ^ 52 <= q < 2 ^ 53).
  { rewrite Eq. replace D with (53 + k) in Mhi by lia.
    replace (D - 1) with (52 + k) in Mlo by lia.
    rewrite Z.pow_add_r in Mlo, Mhi by lia.
    split; [apply Z.div_le_lower_bound; lia | apply Z.div_lt_upper_bound; lia]. }
  unfold binary_round_aux, shr_fexp.
  cbn [Zdigits2]. rewrite ED.
  assert (Hf : fexp 53 1024 (D + e) - e = k).
  { unfold fexp, emin. lia. }
  rewrite Hf.
  (* the first shift *)
  assert (H1 : exists mrs, shr (shr_record_of_loc (Z.pos m) l) e k = (mrs, e + k) /\ shr_m mrs = q).
  { unfold shr. destruct k as [|p|p]; try lia.
    - eexists. split; [rewrite Z.add_0_r; reflexivity|].
      rewrite (proj2 (loc_of_shr_record_of_loc _ _)). rewrite Eq. cbn. now rewrite Z.div_1_r.
    - eexists. split; [reflexivity|].
      destruct (iter_shr_m p (shr_record_of_loc (Z.pos m) l)) as [E _].
      { rewrite (proj2 (loc_of_shr_record_of_loc _ _)). lia. }
      rewrite E, (proj2 (loc_of_shr_record_of_loc _ _)). now rewrite Eq. }
  destruct H1 as (mrs & -> & Hm).
  rewrite Hm.
  set (m1 := round_nearest_even q (loc_of_shr_record mrs)).
  assert (Hm1 : m1 = q \/ m1 = q + 1) by apply round_nearest_even_cases.
  destruct (Z.ltb_spec m1 (2 ^ 53)) as [Hlt|Hge].
  - (* no second shift *)
    assert (Hm1pos : 0 < m1) by lia.
    destruct m1 as [|p1|p1] eqn:E1; try lia.
    assert (Hd1 : Z.pos (digits2_pos p1) = 53) by (apply digits2_pos_unique; lia).
    cbn [Zdigits2]. rewrite Hd1.
    assert (Hf1 : fexp 53 1024 (53 + (e + k)) - (e + k) = 0) by (unfold fexp, emin; lia).
    rewrite Hf1. cbn [shr shr_record_of_loc shr_m].
    assert (Hle : (e + k <=? 1024 - 53) = true) by (apply Z.leb_le; lia).
    rewrite Hle. exists p1. left. repeat split; lia.
  - (* the rounded mantissa is 2^53 *)
    assert (E1 : m1 = 2 ^ 53) by lia.
    rewrite E1. change (2 ^ 53) with (Z.pos (xO 4503599627370496)).
    cbn [Zdigits2].
    assert (Hf1 : fexp 53 1024 (Z.pos (digits2_pos 4503599627370496~0) + (e + k)) - (e + k) = 1).
    { change (Z.pos (digits2_pos 4503599627370496~0)) with 54. unfold fexp, emin. lia. }
    rewrite Hf1. cbn [shr shr_record_of_loc iter_pos shr_1 shr_m].
    assert (Hle : (e + k + 1 <=? 1024 - 53) = true) by (apply Z.leb_le; lia).
    rewrite Hle. exists 4503599627370496%positive. right. repeat split; lia.
Qed.

Lemma binary_round_aux_exact (m : positive) (e : Z) :
  Z.pos (digits2_pos m) = 53 -> -1074 <= e <= 971 ->
  binary_round_aux 53 1024 false (Z.pos m) e loc_Exact = S754_finite false m e.
Proof.
  intros HD He. unfold binary_round_aux, shr_fexp. cbn [Zdigits2]. rewrite HD.
  assert (Hf : fexp 53 1024 (53 + e) - e = 0) by (unfold fexp, emin; lia).
  rewrite Hf. cbn [shr shr_record_of_loc loc_of_shr_record shr_m round_nearest_even Zdigits2].
  rewrite HD, Hf. cbn [shr shr_record_of_loc shr_m].
  assert (Hle : (e <=? 1024 - 53) = true) by (apply Z.leb_le; lia).
  now rewrite Hle.
Qed.

Lemma pos_iter_xO (m d : positive) :
  Z.pos (Pos.iter xO m d) = Z.pos m * 2 ^ Z.pos d.
Proof.
  induction d as [|d IH] using Pos.peano_ind.
  - cbn. lia.
  - rewrite Pos.iter_succ, Pos2Z.inj_xO, IH, Pos2Z.inj_succ, Z.pow_succ_r by lia. lia.
Qed.

Lemma of_Z_spec (z : positive) :
  Z.pos z < 2 ^ 64 ->
  let D := Z.pos (digits2_pos z) in
  exists (m : positive) (e : Z),
    Double.of_Z (Z.pos z) = S754_finite false m e /\ canonical m /\
    ((D <= 53 /\ e = D - 53 /\ Z.pos m = Z.pos z * 2 ^ (53 - D)) \/
     (53 < D /\ e = D - 53 /\
      (Z.pos m = Z.pos z / 2 ^ (D - 53) \/ Z.pos m = Z.pos z / 2 ^ (D - 53) + 1)) \/
     (53 < D /\ e = D - 52 /\ Z.pos m = 2 ^ 52 /\ Z.pos z / 2 ^ (D - 53) + 1 = 2 ^ 53)).
Proof.
  intros Hz D.
  assert (ED : Z.pos (digits2_pos z) = D) by reflexivity. clearbody D.
  pose proof (digits2_pos_spec z) as [Zlo Zhi]. rewrite ED in Zlo, Zhi.
  assert (HD1 : 1 <= D) by lia.
  assert (HD64 : D <= 64).
  { destruct (Z.leb_spec D 64); [assumption|].
    assert (2 ^ 64 <= 2 ^ (D - 1)) by (apply Z.pow_le_mono_r; lia). lia. }
  unfold Double.of_Z, binary_normalize, binary_round.
  rewrite ED.
  assert (Hf : fexp Double.prec Double.emax (D + 0) = D - 53).
  { unfold fexp, emin, Double.prec, Double.emax. lia. }
  rewrite Hf. unfold shl_align, Double.prec, Double.emax.
  destruct (Z.ltb_spec D 53) as [Hlt|Hge].
  - (* short mantissa: it is shifted to 53 digits, exactly *)
    destruct (D - 53 - 0) as [|p|p] eqn:Es; try lia.
    assert (Ep : Z.pos p = 53 - D) by lia.
    assert (Hm : Z.pos (Pos.iter xO z p) = Z.pos z * 2 ^ (53 - D)).
    { rewrite pos_iter_xO, Ep. reflexivity. }
    assert (Hc : canonical (Pos.iter xO z p)).
    { unfold canonical. rewrite Hm.
      assert (Ha : 0 < 2 ^ (53 - D)) by (apply Z.pow_pos_nonneg; lia).
      assert (E52 : 2 ^ 52 = 2 ^ (D - 1) * 2 ^ (53 - D))
        by (rewrite <- Z.pow_add_r by lia; f_equal; lia).
      assert (E53 : 2 ^ 53 = 2 ^ D * 2 ^ (53 - D))
        by (rewrite <- Z.pow_add_r by lia; f_equal; lia).
      rewrite E52, E53. split.
      - apply Z.mul_le_mono_nonneg_r; lia.
      - apply Z.mul_lt_mono_pos_r; lia. }
    rewrite binary_round_aux_exact.
    + eexists _, _. split; [reflexivity|]. split; [exact Hc|]. left.
      split; [lia|]. split; [lia|exact Hm].
    + apply digits2_pos_unique. exact Hc.
    + lia.
  - destruct (D - 53 - 0) as [|p|p] eqn:Es; try lia.
    + (* exactly 53 digits *)
      assert (E53 : D = 53) by lia.
      rewrite binary_round_aux_exact by lia.
      exists z, 0. split; [reflexivity|]. split; [unfold canonical; rewrite E53 in *; lia|].
      left. rewrite E53. change (2 ^ (53 - 53)) with 1. repeat split; lia.
    + (* more than 53 digits: rounded *)
      destruct (binary_round_aux_spec z 0 loc_Exact) as (m' & [(E & Hm & Hc)|(E & Hm & Hq)]);
        rewrite ?ED in *; try lia.
      * exists m', (D - 53). split; [rewrite E; f_equal; lia|]. split; [exact Hc|].
        right. left. repeat split; try lia. 
      * exists m', (D - 52). split; [rewrite E; f_equal; lia|].
        split; [unfold canonical; lia|].
        right. right. repeat split; try lia.
Qed.

Lemma canonical_digits (m : positive) : canonical m -> Z.pos (digits2_pos m) = 53.
Proof. intros H. apply digits2_pos_unique. exact H. Qed.

Lemma mul_K_spec (mc : positive) (ec : Z) :
  canonical mc -> -52 <= ec <= 12 ->
  exists (mp : positive) (ep : Z),
    Double.mul K (S754_finite false mc ec) = S754_finite false mp ep /\
    canonical mp /\ ep <= 12 + ec + 54 /\
    (12 + ec + 53 <= ep \/
     (ep = 12 + ec + 52 /\ Z.pos mc + 1 <= Z.pos mp /\
      Z.pos K_mant * Z.pos mc < 2 ^ 105)).
Proof.
  intros Hc He. unfold Double.mul, K, SFmul. cbn [xorb].
  set (P := (K_mant * mc)%positive).
  assert (HP : Z.pos P = Z.pos K_mant * Z.pos mc) by reflexivity.
  unfold canonical in Hc.
  assert (HPlo : 2 ^ 104 <= Z.pos P).
  { rewrite HP. change (2 ^ 104) with (2 ^ 52 * 2 ^ 52).
    apply Z.mul_le_mono_nonneg; unfold K_mant; lia. }
  assert (HPhi : Z.pos P < 2 ^ 106).
  { rewrite HP. change (2 ^ 106) with (2 ^ 53 * 2 ^ 53).
    apply Z.mul_lt_mono_nonneg; unfold K_mant; lia. }
  destruct (Z.ltb_spec (Z.pos P) (2 ^ 105)) as [Hlt|Hge].
  - assert (HD : Z.pos (digits2_pos P) = 105) by (apply digits2_pos_unique; lia).
    destruct (binary_round_aux_spec P (12 + ec) loc_Exact)
      as (m' & [(E & Hm & Hcm)|(E & Hm & Hq)]); rewrite ?HD in *; try lia.
    + exists m', (12 + ec + 52). unfold Double.prec, Double.emax.
      split; [rewrite E; f_equal; lia|]. split; [exact Hcm|]. split; [lia|].
      right. split; [reflexivity|]. split; [|lia].
      change (105 - 53) with 52 in Hm.
      assert (Z.pos mc + 1 <= Z.pos P / 2 ^ 52).
      { apply Z.div_le_lower_bound; [lia|]. rewrite HP. unfold K_mant. lia. }
      lia.
    + exists m', (12 + ec + 53). unfold Double.prec, Double.emax.
      split; [rewrite E; f_equal; lia|]. split; [unfold canonical; lia|]. lia.
  - assert (HD : Z.pos (digits2_pos P) = 106) by (apply digits2_pos_unique; lia).
    destruct (binary_round_aux_spec P (12 + ec) loc_Exact)
      as (m' & [(E & Hm & Hcm)|(E & Hm & Hq)]); rewrite ?HD in *; try lia.
    + exists m', (12 + ec + 53). unfold Double.prec, Double.emax.
      split; [rewrite E; f_equal; lia|]. split; [exact Hcm|]. lia.
    + exists m', (12 + ec + 54). unfold Double.prec, Double.emax.
      split; [rewrite E; f_equal; lia|]. split; [unfold canonical; lia|]. lia.
Qed.

Lemma div_spec (mp md : positive) (ep ed : Z) :
  canonical mp -> canonical md -> -200 <= ep <= 200 -> -200 <= ed <= 200 ->
  exists (m' : positive) (e' : Z),
    Double.div (S754_finite false mp ep) (S754_finite false md ed)
      = S754_finite false m' e' /\
    canonical m' /\ ep - ed - 53 <= e' /\
    (Z.pos md <= Z.pos mp -> ep - ed - 52 <= e').
Proof.
  intros Hp Hd Hep Hed. unfold Double.div, SFdiv, SFdiv_core_binary. cbn [xorb Zdigits2].
  rewrite (canonical_digits mp Hp), (canonical_digits md Hd).
  unfold Double.prec, Double.emax.
  assert (Hf : Z.min (fexp 53 1024 (53 + ep - (53 + ed))) (ep - ed) = ep - ed - 53).
  { unfold fexp, emin. lia. }
  rewrite Hf.
  replace (ep - ed - (ep - ed - 53)) with 53 by lia.
  unfold canonical in Hp, Hd.
  assert (Hs : Z.shiftl (Z.pos mp) 53 = Z.pos mp * 2 ^ 53) by (apply Z.shiftl_mul_pow2; lia).
  rewrite Hs.
  pose proof (Z.div_eucl_eq (Z.pos mp * 2 ^ 53) (Z.pos md) ltac:(lia)) as Heq.
  pose proof (Z.mod_pos_bound (Z.pos mp * 2 ^ 53) (Z.pos md) ltac:(lia)) as Hr.
  unfold Z.modulo in Hr.
  destruct (Z.div_eucl (Z.pos mp * 2 ^ 53) (Z.pos md)) as [q r].
  assert (Hq : 2 ^ 52 <= q < 2 ^ 54) by nia.
  destruct q as [|q|q]; try lia.
  destruct (Z.ltb_spec (Z.pos q) (2 ^ 53)) as [Hlt|Hge].
  - assert (HD : Z.pos (digits2_pos q) = 53) by (apply digits2_pos_unique; lia).
    assert (Hnot : ~ Z.pos md <= Z.pos mp) by nia.
    destruct (binary_round_aux_spec q (ep - ed - 53) (new_location (Z.pos md) r))
      as (m' & [(E & Hm & Hcm)|(E & Hm & Hq')]); rewrite ?HD in *; try lia.
    + exists m', (ep - ed - 53). split; [rewrite E; f_equal; lia|].
      split; [exact Hcm|]. split; [lia|]. intros; contradiction.
    + exists m', (ep - ed - 52). split; [rewrite E; f_equal; lia|].
      split; [unfold canonical; lia|]. lia.
  - assert (HD : Z.pos (digits2_pos q) = 54) by (apply digits2_pos_unique; lia).
    destruct (binary_round_aux_spec q (ep - ed - 53) (new_location (Z.pos md) r))
      as (m' & [(E & Hm & Hcm)|(E & Hm & Hq')]); rewrite ?HD in *; try lia.
    + exists m', (ep - ed - 52). split; [rewrite E; f_equal; lia|].
      split; [exact Hcm|]. lia.
    + exists m', (ep - ed - 51). split; [rewrite E; f_equal; lia|].
      split; [unfold canonical; lia|]. lia.
Qed.

Lemma digits2_pos_mono (c d : positive) :
  Z.pos d <= Z.pos c -> Z.pos (digits2_pos d) <= Z.pos (digits2_pos c).
Proof.
  intros H. pose proof (digits2_pos_spec c) as [_ Hc].
  pose proof (digits2_pos_spec d) as [Hd _].
  destruct (Z.leb_spec (Z.pos (digits2_pos d)) (Z.pos (digits2_pos c))); [assumption|].
  assert (2 ^ Z.pos (digits2_pos c) <= 2 ^ (Z.pos (digits2_pos d) - 1))
    by (apply Z.pow_le_mono_r; lia).
  lia.
Qed.

Lemma of_Z_order (c d : positive) :
  Z.pos d < Z.pos c -> Z.pos c < 2 ^ 64 ->
  exists (mc md : positive) (ec ed : Z),
    Double.of_Z (Z.pos c) = S754_finite false mc ec /\
    Double.of_Z (Z.pos d) = S754_finite false md ed /\
    canonical mc /\ canonical md /\
    -52 <= ec <= 12 /\ -52 <= ed <= 12 /\
    (ed < ec \/
     (ec = ed /\ Z.pos md <= Z.pos mc + 1) \/
     (ec = ed - 1 /\ Z.pos mc = 2 ^ 53 - 1 /\ Z.pos md = 2 ^ 52)).
Proof.
  intros Hdc Hc.
  destruct (of_Z_spec c Hc) as (mc & ec & Ec & Cc & Sc).
  destruct (of_Z_spec d ltac:(lia)) as (md & ed & Ed & Cd & Sd).
  pose proof (digits2_pos_mono c d ltac:(lia)) as Hmono.
  pose proof (digits2_pos_spec c) as [Clo Chi].
  pose proof (digits2_pos_spec d) as [Dlo Dhi].
  set (Dc := Z.pos (digits2_pos c)) in *.
  set (Dd := Z.pos (digits2_pos d)) in *.
  assert (HDc : 1 <= Dc <= 64).
  { split; [unfold Dc; lia|].
    destruct (Z.leb_spec Dc 64); [assumption|].
    assert (2 ^ 64 <= 2 ^ (Dc - 1)) by (apply Z.pow_le_mono_r; lia). lia. }
  assert (HDd : 1 <= Dd) by (unfold Dd; lia).
  exists mc, md, ec, ed.
  split; [exact Ec|]. split; [exact Ed|]. split; [exact Cc|]. split; [exact Cd|].
  unfold canonical in Cc, Cd.
  destruct Sc as [(Hc1 & Hc2 & Hc3)|[(Hc1 & Hc2 & Hc3)|(Hc1 & Hc2 & Hc3 & Hc4)]];
  destruct Sd as [(Hd1 & Hd2 & Hd3)|[(Hd1 & Hd2 & Hd3)|(Hd1 & Hd2 & Hd3 & Hd4)]];
    (split; [lia|]); (split; [lia|]); try lia.
  - (* both exact *)
    destruct (Z.eq_dec Dc Dd) as [E|N]; [|left; lia].
    right. left. split; [lia|]. rewrite Hc3, Hd3, E.
    assert (0 < 2 ^ (53 - Dd)) by (apply Z.pow_pos_nonneg; lia). nia.
  - (* both rounded in their binade *)
    destruct (Z.eq_dec Dc Dd) as [E|N]; [|left; lia].
    right. left. split; [lia|].
    assert (Z.pos d / 2 ^ (Dd - 53) <= Z.pos c / 2 ^ (Dc - 53)).
    { rewrite E. apply Z.div_le_mono; [apply Z.pow_pos_nonneg|]; lia. }
    lia.
  - (* d is rounded up to a power of two, c is not *)
    destruct (Z.eq_dec Dc Dd) as [E|N].
    + right. right. split; [lia|].
      assert (Z.pos d / 2 ^ (Dd - 53) <= Z.pos c / 2 ^ (Dc - 53)).
      { rewrite E. apply Z.div_le_mono; [apply Z.pow_pos_nonneg|]; lia. }
      lia.
    + destruct (Z.eq_dec Dc (Dd + 1)) as [E1|N1]; [|left; lia].
      right. left. split; [lia|]. lia.
Qed.

Lemma is_two64_eq x : is_two64 x = true -> x = two64.
Proof.
  destruct x as [| | |[] m e]; try discriminate. cbn [is_two64].
  intros H. apply andb_prop in H as [Hm He].
  apply Pos.eqb_eq in Hm. apply Z.eqb_eq in He. subst. reflexivity.
Qed.

Lemma of_Z_near_two64_check :
  forallb (fun k => is_two64 (Double.of_Z (2 ^ 64 - 1023 + Z.of_nat k))) (seq 0 1023) = true.
Proof. vm_compute. reflexivity. Qed.

Lemma of_Z_near_two64 (n : Z) :
  2 ^ 64 - 1024 < n < 2 ^ 64 -> Double.of_Z n = two64.
Proof.
  intros Hn. apply is_two64_eq.
  pose proof of_Z_near_two64_check as H. rewrite forallb_forall in H.
  specialize (H (Z.to_nat (n - (2 ^ 64 - 1023)))).
  rewrite Z2Nat.id in H by lia.
  replace (2 ^ 64 - 1023 + (n - (2 ^ 64 - 1023))) with n in H by lia.
  apply H. apply in_seq. lia.
Qed.

Lemma to_size_t_large (m : positive) (e : Z) :
  canonical m -> 12 <= e -> Double.to_size_t (S754_finite false m e) = None.
Proof.
  intros Hc He. unfold Double.to_size_t, Double.truncate.
  assert (H0 : (0 <=? e) = true) by (apply Z.leb_le; lia). rewrite H0.
  rewrite Z.shiftl_mul_pow2 by lia.
  assert (2 ^ 12 <= 2 ^ e) by (apply Z.pow_le_mono_r; lia).
  unfold canonical in Hc.
  assert (Hbig : size_modulus <= Z.pos m * 2 ^ e).
  { unfold size_modulus. change (2 ^ 64) with (2 ^ 52 * 2 ^ 12).
    apply Z.mul_le_mono_nonneg; lia. }
  destruct (Z.ltb_spec (Z.pos m * 2 ^ e) size_modulus); [lia|].
  now rewrite andb_false_r.
Qed.

(** Near the top of [size_t] the projection of the allocator does not fit
    a [size_t]. *)
Lemma projection_overflows (n c d : Z) :
  2 ^ 64 - 1024 < n < 2 ^ 64 -> 1 <= d -> d < c -> c < 2 ^ 64 ->
  Double.to_size_t
    (Double.div (Double.mul (Double.mul Double.d1_2 (Double.of_Z n)) (Double.of_Z c))
       (Double.of_Z d)) = None.
Proof.
  intros Hn Hd Hdc Hc.
  rewrite (of_Z_near_two64 n Hn).
  replace (Double.mul Double.d1_2 two64) with K by (vm_compute; reflexivity).
  destruct c as [|c|c]; try lia. destruct d as [|d|d]; try lia.
  destruct (of_Z_order c d Hdc Hc)
    as (mc & md & ec & ed & Ec & Ed & Cc & Cd & Hec & Hed & Hrel).
  rewrite Ec, Ed.
  destruct (mul_K_spec mc ec Cc Hec) as (mp & ep & Ep & Cp & Hep & Hmul).
  rewrite Ep.
  destruct (div_spec mp md ep ed Cp Cd ltac:(lia) ltac:(lia))
    as (m' & e' & E' & C' & He' & Hge).
  rewrite E'. apply to_size_t_large; [exact C'|].
  unfold canonical in *.
  destruct Hrel as [Hlt|[(Heq & Hm)|(Heq & Hmc & Hmd)]].
  - destruct Hmul as [H|(H & _)]; lia.
  - destruct Hmul as [H|(H & Hmp & _)]; [lia|].
    specialize (Hge ltac:(lia)). lia.
  - destruct Hmul as [H|(H & Hmp & HP)].
    + specialize (Hge ltac:(lia)). lia.
    + exfalso. rewrite Hmc in HP. unfold K_mant in HP. lia.
Qed.

(** ** The chunking planner *)

(** The planner in closed form, on the inputs it is meant for. *)
Lemma planner_result (r : ChunkedDataReader) (size1000 : Z) :
  0 <= inputEnd r - inputStart r < 2 ^ 64 ->
  Double.to_size_t (Double.mul (Double.of_Z 1000) (lineLength r))
    = Some size1000 ->
  1 <= nthreads r < 2 ^ 31 ->
  let inputSize := inputEnd r - inputStart r in
  let chunkCount0 := Z.max (inputSize / Z.max size1000 (2 ^ 18)) 1 in
  determine_chunking_strategy r =
    if chunkCount0 >? nthreads r then
      let n := nthreads r * (1 + (chunkCount0 - 1) / nthreads r) in
      Ret tt (set_chunkSize (inputSize / n) (set_chunkCount n r))
    else
      Ret tt (set_chunkSize (inputSize / chunkCount0)
                (set_g (emit (Trace chunkCount0) (g r))
                   (set_nthreads chunkCount0 (set_chunkCount chunkCount0 r)))).
Proof.
  intros Hin Hconv Hth inputSize chunkCount0.
  pose proof (double_to_size_t_range _ _ Hconv) as Hs.
  assert (Hcs : 2 ^ 18 <= Z.max size1000 (2 ^ 18) < 2 ^ 64) by lia.
  assert (Hq : 0 <= inputSize / Z.max size1000 (2 ^ 18) < 2 ^ 46).
  { split. apply Z.div_pos; lia.
    apply Z.div_lt_upper_bound; [lia|].
    unfold inputSize. nia. }
  assert (Hc0 : 1 <= chunkCount0 < 2 ^ 46) by (unfold chunkCount0; lia).
  unfold determine_chunking_strategy, bind, get.
  rewrite Hconv. cbn [defined ret modify chunkSize set_chunkSize].
  rewrite (to_size_t_id (inputEnd r - inputStart r)) by lia.
  rewrite (to_size_t_id (nthreads r)) by lia.
  change (Z.shiftl 1 18) with (2 ^ 18).
  rewrite std_max_eq.
  unfold sz_div at 1.
  destruct (Z.eqb_spec (Z.max size1000 (2 ^ 18)) 0) as [E|_]; [lia|].
  cbn [ret chunkCount set_chunkCount]. rewrite std_max_eq.
  fold inputSize. fold chunkCount0.
  destruct (chunkCount0 >? nthreads r) eqn:Hgt.
  - apply Z.gtb_lt in Hgt.
    unfold sz_sub. rewrite (to_size_t_id (chunkCount0 - 1)) by lia.
    unfold sz_div at 1.
    destruct (Z.eqb_spec (nthreads r) 0) as [E|_]; [lia|].
    cbn [ret modify].
    assert (Hq' : 0 <= (chunkCount0 - 1) / nthreads r < 2 ^ 46).
    { split. apply Z.div_pos; lia.
      apply Z.div_lt_upper_bound; nia. }
    unfold sz_add. rewrite (to_size_t_id (1 + _)) by lia.
    assert (Hm : 0 < nthreads r * (1 + (chunkCount0 - 1) / nthreads r)
                 < 2 ^ 47).
    { pose proof (Z.mul_div_le (chunkCount0 - 1) (nthreads r)).
      rewrite Z.mul_add_distr_l.
      assert (0 <= nthreads r * ((chunkCount0 - 1) / nthreads r))
        by (apply Z.mul_nonneg_nonneg; lia).
      lia. }
    unfold sz_mul. rewrite to_size_t_id by lia.
    cbn [chunkCount set_chunkCount].
    unfold sz_div.
    destruct (Z.eqb_spec
                (nthreads r * (1 + (chunkCount0 - 1) / nthreads r)) 0)
      as [E|_]; [lia|].
    reflexivity.
  - assert (Hle : chunkCount0 <= nthreads r).
    { destruct (Z.gtb_spec chunkCount0 (nthreads r)); [discriminate|lia]. }
    rewrite to_int_id by lia.
    cbn [modify trace ret chunkCount nthreads set_chunkCount set_nthreads
           set_g].
    unfold sz_div.
    destruct (Z.eqb_spec chunkCount0 0) as [E|_]; [lia|].
    reflexivity.
Qed.

(** C3.  For an input of [input_size >= 0] bytes, a mean line length of at
    least 1.0 (whose thousandfold, truncated, is the [size_t] [size1000])
    and [nthreads >= 1], the planner returns with
    [chunk_size0 = max(size1000, 2^18)],
    [chunk_count0 = max(input_size / chunk_size0, 1)];
    when [chunk_count0 > nthreads] the chunk count is
    [nthreads * ceil(chunk_count0 / nthreads)] and [nthreads] is kept,
    otherwise [nthreads] becomes [chunk_count0], which is also the chunk
    count; and the chunk size is [input_size / chunk_count]. *)
Theorem planner_computes_strategy (r : ChunkedDataReader) (size1000 : Z) :
  0 <= inputEnd r - inputStart r < 2 ^ 64 ->
  Double.leb Double.one (lineLength r) = true ->
  Double.to_size_t (Double.mul (Double.of_Z 1000) (lineLength r))
    = Some size1000 ->
  1 <= nthreads r < 2 ^ 31 ->
  let input_size := inputEnd r - inputStart r in
  let chunk_size0 := Z.max size1000 (2 ^ 18) in
  let chunk_count0 := Z.max (input_size / chunk_size0) 1 in
  exists r',
    determine_chunking_strategy r = Ret tt r' /\
    (chunk_count0 > nthreads r ->
       chunkCount r' = nthreads r * ceil_div chunk_count0 (nthreads r) /\
       nthreads r' = nthreads r) /\
    (chunk_count0 <= nthreads r ->
       nthreads r' = chunk_count0 /\ chunkCount r' = chunk_count0) /\
    chunkSize r' = input_size / chunkCount r'.
Proof.
  intros Hin _ Hconv Hth input_size chunk_size0 chunk_count0.
  pose proof (planner_result r size1000 Hin Hconv Hth) as E.
  cbv zeta in E. fold input_size chunk_size0 chunk_count0 in E.
  destruct (chunk_count0 >? nthreads r) eqn:Hgt.
  - apply Z.gtb_lt in Hgt. eexists. split; [exact E|].
    unfold set_chunkSize, set_chunkCount.
    cbn [chunkCount nthreads chunkSize].
    rewrite ceil_div_alt by lia. repeat split; lia.
  - assert (chunk_count0 <= nthreads r).
    { destruct (Z.gtb_spec chunk_count0 (nthreads r)); [discriminate|lia]. }
    eexists. split; [exact E|].
    unfold set_chunkSize, set_chunkCount, set_nthreads, set_g.
    cbn [chunkCount nthreads chunkSize]. repeat split; lia.
Qed.

(** C8.  Planner idempotence: on an input of [input_size >= 0] bytes, with
    a mean line length whose thousandfold is a [size_t] and
    [nthreads >= 1], the planner returns, and run again from the state it
    left (with the [nthreads] it may have reduced) it returns with the same
    [chunkSize], [chunkCount] and [nthreads]. *)
Theorem planner_idempotent (r : ChunkedDataReader) (size1000 : Z) :
  0 <= inputEnd r - inputStart r < 2 ^ 64 ->
  Double.leb Double.one (lineLength r) = true ->
  Double.to_size_t (Double.mul (Double.of_Z 1000) (lineLength r))
    = Some size1000 ->
  1 <= nthreads r < 2 ^ 31 ->
  exists r1 r2,
    determine_chunking_strategy r = Ret tt r1 /\
    determine_chunking_strategy r1 = Ret tt r2 /\
    chunkSize r2 = chunkSize r1 /\
    chunkCount r2 = chunkCount r1 /\
    nthreads r2 = nthreads r1.
Proof.
  intros Hin _ Hconv Hth.
  pose proof (planner_result r size1000 Hin Hconv Hth) as E.
  cbv zeta in E.
  set (inputSize := inputEnd r - inputStart r) in *.
  set (chunkCount0 := Z.max (inputSize / Z.max size1000 (2 ^ 18)) 1) in *.
  destruct (chunkCount0 >? nthreads r) eqn:Hgt.
  - eexists. eexists. split; [exact E|].
    match type of E with _ = Ret tt ?r1 =>
      pose proof (planner_result r1 size1000 Hin Hconv Hth) as E1 end.
    cbv zeta in E1. cbn [inputEnd inputStart nthreads set_chunkSize
                           set_chunkCount] in E1.
    fold inputSize chunkCount0 in E1. rewrite Hgt in E1.
    split; [exact E1|]. cbn. auto.
  - assert (Hle : chunkCount0 <= nthreads r).
    { destruct (Z.gtb_spec chunkCount0 (nthreads r)); [discriminate|lia]. }
    assert (Hth1 : 1 <= chunkCount0 < 2 ^ 31) by (unfold chunkCount0; lia).
    eexists. eexists. split; [exact E|].
    match type of E with _ = Ret tt ?r1 =>
      pose proof (planner_result r1 size1000 Hin Hconv Hth1) as E1 end.
    cbv zeta in E1. cbn [inputEnd inputStart nthreads set_chunkSize
                           set_chunkCount set_nthreads set_g] in E1.
    fold inputSize chunkCount0 in E1.
    replace (chunkCount0 >? chunkCount0) with false in E1
      by (symmetry; rewrite Z.gtb_ltb; apply Z.ltb_irrefl).
    split; [exact E1|]. cbn. auto.
Qed.

Lemma Some_inj {A} (a b : A) : Some a = Some b -> a = b.
Proof. intros H. now inversion H. Qed.

Lemma Ret_inj {S A} (a b : A) (s t : S) : Ret a s = Ret b t -> a = b /\ s = t.
Proof. intros H. now inversion H. Qed.

Lemma Throw_inj {S A} (e f : exn) (s t : S) :
  @Throw S A e s = Throw f t -> e = f /\ s = t.
Proof. intros H. now inversion H. Qed.


(** Case analysis along a run that is known to return. *)
Ltac run_step :=
  match goal with
  | H : Undefined = Ret _ _ |- _ => discriminate H
  | H : Throw _ _ = Ret _ _ |- _ => discriminate H
  | H : Ret _ _ = Ret _ _ |- _ =>
      apply Ret_inj in H; destruct H as [? ?]; subst
  | H : ?lhs = Ret _ _ |- _ =>
      match lhs with
      | context [match ?x with _ => _ end] => destruct x eqn:?
      end
  end.



(* ------------------------------------------------------------------ *)
(** ** A program logic for the driver *)

Section Rules.

Context {S : Type}.
Implicit Types P Q : S -> Prop.

Lemma hoare_conseq {A} P P' Q Q' (m : M S A) :
  hoare P' m Q' -> (forall s, P s -> P' s) -> (forall s, Q' s -> Q s) ->
  hoare P m Q.
Proof.
  intros H HP HQ s Hs. specialize (H s (HP s Hs)). unfold post in *.
  destruct (m s); auto.
Qed.

Lemma hoare_ret {A} P (a : A) : hoare P (ret a) P.
Proof. intros s Hs. exact Hs. Qed.

Lemma hoare_ret' {A} P Q (a : A) : (forall s, P s -> Q s) -> hoare P (ret a) Q.
Proof. intros H s Hs. apply H, Hs. Qed.

Lemma hoare_throw {A} P (e : exn) : hoare P (@throw S A e) P.
Proof. intros s Hs. exact Hs. Qed.

Lemma hoare_undefined {A} P Q : hoare P (@undefined S A) Q.
Proof. intros s Hs. exact I. Qed.

Lemma hoare_defined {A} P (o : option A) : hoare P (defined o) P.
Proof. destruct o; [apply hoare_ret | apply hoare_undefined]. Qed.

Lemma hoare_xassert P b : hoare P (xassert b) P.
Proof. destruct b; [apply hoare_ret | apply hoare_throw]. Qed.

Lemma hoare_sz_div P a b : hoare P (sz_div a b) P.
Proof.
  unfold sz_div. destruct (b =? 0); [apply hoare_undefined | apply hoare_ret].
Qed.

Lemma hoare_gets {A} P (f : S -> A) : hoare P (gets f) P.
Proof. intros s Hs. exact Hs. Qed.

Lemma hoare_modify P Q (f : S -> S) :
  (forall s, P s -> Q (f s)) -> hoare P (modify f) Q.
Proof. intros H s Hs. apply H, Hs. Qed.

Lemma hoare_bind {A B} P Q R (m : M S A) (k : A -> M S B) :
  hoare P m Q -> (forall s, Q s -> R s) -> (forall a, hoare Q (k a) R) ->
  hoare P (bind m k) R.
Proof.
  intros Hm HQR Hk s Hs. specialize (Hm s Hs). unfold bind, post in *.
  destruct (m s) as [a s'| e s'|]; auto.
  apply (Hk a s' Hm).
Qed.

(** The usual case: the same assertion between the two parts. *)
Lemma hoare_seq {A B} P Q (m : M S A) (k : A -> M S B) :
  hoare P m Q -> (forall a, hoare Q (k a) Q) -> hoare P (bind m k) Q.
Proof. intros Hm Hk. apply (hoare_bind P Q Q); auto. Qed.

(** Reading the state: what follows runs from the state that was read. *)
Lemma hoare_get_bind {B} P Q (k : S -> M S B) :
  (forall s0, P s0 -> hoare (fun s => s = s0) (k s0) Q) ->
  hoare P (bind get k) Q.
Proof.
  intros H s Hs. unfold bind, get. apply (H s Hs). reflexivity.
Qed.

Lemma hoare_gets_bind {A B} P Q (f : S -> A) (k : A -> M S B) :
  (forall s0, P s0 -> hoare (fun s => s = s0) (k (f s0)) Q) ->
  hoare P (bind (gets f) k) Q.
Proof.
  intros H s Hs. unfold bind, gets. apply (H s Hs). reflexivity.
Qed.

Lemma hoare_try_catch {A} P Q R (m : M S A) (h : exn -> M S A) :
  hoare P m Q -> (forall s, Q s -> R s) -> (forall e, hoare Q (h e) R) ->
  hoare P (try_catch m h) R.
Proof.
  intros Hm HQR Hh s Hs. specialize (Hm s Hs). unfold try_catch, post in *.
  destruct (m s) as [a s'| e s'|]; auto.
  apply (Hh e s' Hm).
Qed.

Lemma hoare_for_each {A} P (l : list A) (body : A -> M S unit) :
  (forall x, In x l -> hoare P (body x) P) -> hoare P (for_each l body) P.
Proof.
  induction l as [|x l IH]; intros H; cbn [for_each].
  - apply hoare_ret.
  - apply hoare_seq.
    + apply H. now left.
    + intros _. apply IH. intros y Hy. apply H. now right.
Qed.

End Rules.

Lemma hoare_zoom {S T A} (P Q : S -> Prop) (P' Q' : T -> Prop)
  (proj : T -> S) (upd : S -> T -> T) (m : M S A) :
  hoare P m Q ->
  (forall t, P' t -> P (proj t)) ->
  (forall t s, P' t -> Q s -> Q' (upd s t)) ->
  hoare P' (zoom proj upd m) Q'.
Proof.
  intros Hm HP HQ t Ht. specialize (Hm (proj t) (HP t Ht)).
  unfold zoom, post in *. destruct (m (proj t)); auto.
Qed.

Lemma post_impl {S A} (o : outcome S A) (Q Q' : S -> Prop) :
  post o Q -> (forall s, Q s -> Q' s) -> post o Q'.
Proof. destruct o; cbn; auto. Qed.

Lemma hoare_conj {S A} (P1 P2 Q1 Q2 : S -> Prop) (m : M S A) :
  hoare P1 m Q1 -> hoare P2 m Q2 ->
  hoare (fun s => P1 s /\ P2 s) m (fun s => Q1 s /\ Q2 s).
Proof.
  intros H1 H2 s [Hs1 Hs2]. specialize (H1 s Hs1). specialize (H2 s Hs2).
  destruct (m s); cbn in *; auto.
Qed.

Lemma hoare_bind_undefined {S A B} (P Q : S -> Prop) (k : A -> M S B) :
  hoare P (bind undefined k) Q.
Proof. intros s Hs. exact I. Qed.

(** Reading the state without a use for what was read. *)
Lemma hoare_get_bind' {S B} (P Q : S -> Prop) (k : S -> M S B) :
  (forall s0, hoare P (k s0) Q) -> hoare P (bind get k) Q.
Proof. intros H s Hs. unfold bind, get. apply (H s s Hs). Qed.

Lemma hoare_if {S A} (P Q : S -> Prop) (b : bool) (m1 m2 : M S A) :
  hoare P m1 Q -> hoare P m2 Q -> hoare P (if b then m1 else m2) Q.
Proof. destruct b; auto. Qed.

Lemma hoare_bind_ret {S A B} (P Q : S -> Prop) (a : A) (k : A -> M S B) :
  hoare P (k a) Q -> hoare P (bind (ret a) k) Q.
Proof. intros H s Hs. exact (H s Hs). Qed.

(** The rules that need no thought. *)
Ltac hoare_auto :=
  repeat first
    [ apply hoare_ret | apply hoare_throw | apply hoare_undefined
    | apply hoare_defined | apply hoare_xassert | apply hoare_sz_div
    | apply hoare_gets
    | apply hoare_get_bind'; intro
    | apply hoare_seq; [|intro]
    | apply hoare_if
    | assumption ].

(* ------------------------------------------------------------------ *)
(** ** The reconciler *)

Lemma read_chunk_calls_app j ev :
  read_chunk_calls (j ++ [ev]) =
  (read_chunk_calls j + if is_ReadChunk ev then 1 else 0)%nat.
Proof.
  unfold read_chunk_calls. rewrite filter_app, length_app. cbn [filter].
  destruct (is_ReadChunk ev); reflexivity.
Qed.

Section Reconciler.

Context {P : Type} {ops : ParseContextOps P} {host : Host}.

Lemma reparse_facts (t : Thread P) :
  let t1 := snd (reparse t) in
  calls t1 = S (calls t) /\
  lastChunkEnd (rdr t1) = lastChunkEnd (rdr t) /\
  start (txcc (me t1)) = lastChunkEnd (rdr t) /\
  true_start (txcc (me t1)) = true /\
  last (journal (g (rdr t1))) (Trace 0) = ReadChunk (txcc (me t1)).
Proof.
  unfold reparse.
  destruct (read_chunk _ (tacc (me t)) (tctx (me t))) as [[res acc] ctx].
  unfold calls.
  cbn [snd rdr me g journal emit set_g txcc start true_start lastChunkEnd].
  rewrite read_chunk_calls_app, last_last. cbn [is_ReadChunk].
  repeat split. lia.
Qed.

(** One turn of the loop of [order_chunk]. *)
Lemma order_chunk_loop_step (i : nat) (t : Thread P) :
  order_chunk_loop (S i) t =
  if accepts (tacc (me t)) (lastChunkEnd (rdr t)) then Ret tt (advance t)
  else match reparse t with
       | (Raise e, t1) => Throw e t1
       | (Ok _, t1) =>
           if Nat.eqb i 0 then Throw InternalInvariantError t1
           else order_chunk_loop i t1
       end.
Proof.
  cbn [order_chunk_loop]. unfold bind at 1, get at 1. unfold accepts.
  destruct ((start (tacc (me t)) =? lastChunkEnd (rdr t))
            && (end_ (tacc (me t)) >=? lastChunkEnd (rdr t))).
  - reflexivity.
  - unfold reparse, bind, modify, ctx_read_chunk, get, on_reader, zoom,
      journal_event, modify, bind, xassert.
    cbn [me rdr txcc tacc tctx set_me set_txcc set_rdr oem ticks].
    destruct (read_chunk _ (tacc (me t)) (tctx (me t))) as [[res acc] ctx].
    destruct res as [[]|e]; [|reflexivity].
    destruct (Nat.eqb i 0); reflexivity.
Qed.

(** C2 (as the code has it).  [order_chunk] makes at most two attempts.
    If the actual coordinates start at [lastChunkEnd] and do not end before
    it, it accepts them at once: [lastChunkEnd] becomes their end and
    [read_chunk] is not called.  Otherwise it parses the chunk again from
    [lastChunkEnd], with [true_start] set: if that call raises, its
    exception leaves; if the new coordinates are accepted, [lastChunkEnd]
    becomes their end, after one call of [read_chunk].  If the condition is
    still not met on the second attempt, [read_chunk] is called a second
    time, and then [order_chunk] fails: with the exception of that call if it
    raises, with [InternalInvariantError] if it returns; [lastChunkEnd] is
    as it was. *)
Theorem order_chunk_bounded_retry (t : Thread P) :
  let lce := lastChunkEnd (rdr t) in
  if accepts (tacc (me t)) lce then
    order_chunk t = Ret tt (advance t) /\
    calls (advance t) = calls t /\
    lastChunkEnd (rdr (advance t)) = end_ (tacc (me t))
  else
    let (res1, t1) := reparse t in
    calls t1 = S (calls t) /\
    start (txcc (me t1)) = lce /\
    true_start (txcc (me t1)) = true /\
    last (journal (g (rdr t1))) (Trace 0) = ReadChunk (txcc (me t1)) /\
    match res1 with
    | Raise e => order_chunk t = Throw e t1
    | Ok _ =>
        if accepts (tacc (me t1)) lce then
          order_chunk t = Ret tt (advance t1) /\
          calls (advance t1) = S (calls t) /\
          lastChunkEnd (rdr (advance t1)) = end_ (tacc (me t1))
        else
          let (res2, t2) := reparse t1 in
          calls t2 = S (S (calls t)) /\
          lastChunkEnd (rdr t2) = lce /\
          order_chunk t =
            Throw match res2 with
                  | Raise e => e
                  | Ok _ => InternalInvariantError
                  end t2
    end.
Proof.
  intros lce. unfold order_chunk. rewrite order_chunk_loop_step.
  destruct (accepts (tacc (me t)) lce) eqn:Hacc; fold lce; rewrite Hacc.
  { repeat split. }
  pose proof (reparse_facts t) as F1. cbv zeta in F1.
  destruct (reparse t) as [res1 t1]. cbn [snd] in F1.
  destruct F1 as (Hc1 & Hl1 & Hs1 & Ht1 & Hj1).
  repeat (split; [assumption|]).
  destruct res1 as [[]|e]; [|reflexivity].
  cbn [Nat.eqb]. rewrite order_chunk_loop_step. rewrite Hl1. fold lce.
  destruct (accepts (tacc (me t1)) lce) eqn:Hacc1.
  { repeat split. exact Hc1. }
  pose proof (reparse_facts t1) as F2. cbv zeta in F2.
  destruct (reparse t1) as [res2 t2]. cbn [snd] in F2.
  destruct F2 as (Hc2 & Hl2 & _).
  split; [lia|]. split; [unfold lce; lia|].
  destruct res2 as [[]|e]; reflexivity.
Qed.

(** [order_chunk] never moves [lastChunkEnd] backwards. *)
Lemma order_chunk_loop_lce (L : Z) (n : nat) :
  hoare (fun t : Thread P => L <= lastChunkEnd (rdr t))
    (order_chunk_loop n)
    (fun t => L <= lastChunkEnd (rdr t)).
Proof.
  induction n as [|i IH]; intros t Ht.
  - exact Ht.
  - rewrite order_chunk_loop_step.
    destruct (accepts (tacc (me t)) (lastChunkEnd (rdr t))) eqn:Hacc.
    + unfold accepts in Hacc. apply andb_prop in Hacc as [_ Hge].
      cbn. apply Z.geb_le in Hge. lia.
    + pose proof (reparse_facts t) as F. cbv zeta in F.
      destruct (reparse t) as [res t1]. cbn [snd] in F.
      destruct F as (_ & Hl & _).
      destruct res as [[]|e]; cbn [post]; [|lia].
      destruct (Nat.eqb i 0); cbn [post]; [lia|].
      apply IH. lia.
Qed.

End Reconciler.

(* ------------------------------------------------------------------ *)
(** ** What the parts of the loop leave alone *)

Section Frames.

Context {P : Type} {ops : ParseContextOps P} {host : Host}.
Variable Q : ChunkedDataReader -> Prop.
Hypothesis Qg : g_insensitive Q.

Lemma frame_journal_event ev : hoare Q (journal_event ev) Q.
Proof. apply hoare_modify. intros r Hr. apply Qg, Hr. Qed.

Lemma frame_trace n : hoare Q (trace n) Q.
Proof. apply hoare_modify. intros r Hr. apply Qg, Hr. Qed.

Lemma frame_progress a s : hoare Q (progress a s) Q.
Proof.
  unfold progress. apply hoare_seq; [apply frame_journal_event|].
  intros _. destruct (progress_raises a s); hoare_auto.
Qed.

Lemma frame_columns_set_nrows n : hoare Q (columns_set_nrows n) Q.
Proof.
  unfold columns_set_nrows. destruct (set_nrows_raises n); hoare_auto.
  apply hoare_modify. intros r Hr. apply Qg, Hr.
Qed.

Lemma frame_on_reader {A} (m : M ChunkedDataReader A) :
  hoare Q m Q -> hoare (@lift_rdr P Q) (on_reader m) (@lift_rdr P Q).
Proof.
  intros H. unfold on_reader. apply (hoare_zoom Q Q); auto.
Qed.

Lemma frame_set_me (f : Thread P -> Worker P) :
  hoare (@lift_rdr P Q) (modify (fun t => set_me (f t) t)) (@lift_rdr P Q).
Proof. apply hoare_modify. auto. Qed.

Lemma frame_read_wallclock :
  hoare (@lift_rdr P Q) read_wallclock (@lift_rdr P Q).
Proof.
  unfold read_wallclock. hoare_auto. apply hoare_modify. auto.
Qed.

Lemma frame_exception_caught :
  hoare (@lift_rdr P Q) exception_caught (@lift_rdr P Q).
Proof. apply hoare_gets. Qed.

Lemma frame_capture_exception e :
  hoare (@lift_rdr P Q) (capture_exception e) (@lift_rdr P Q).
Proof. apply hoare_modify. auto. Qed.

Lemma frame_ctx_read_chunk :
  hoare (@lift_rdr P Q) ctx_read_chunk (@lift_rdr P Q).
Proof.
  unfold ctx_read_chunk. apply hoare_get_bind'. intros t.
  apply hoare_seq; [apply frame_on_reader, frame_journal_event|]. intros _.
  destruct (read_chunk _ _ _) as [[res acc] ctx].
  apply hoare_seq; [apply frame_set_me|]. intros _.
  destruct res; hoare_auto.
Qed.

Lemma frame_ctx_push_buffers :
  hoare (@lift_rdr P Q) ctx_push_buffers (@lift_rdr P Q).
Proof.
  unfold ctx_push_buffers. apply hoare_get_bind'. intros t.
  apply hoare_seq; [apply frame_on_reader, frame_journal_event|]. intros _.
  destruct (push_buffers _) as [res ctx].
  apply hoare_seq; [apply frame_set_me|]. intros _.
  destruct res; hoare_auto.
Qed.

Lemma frame_ctx_orderBuffer :
  hoare (@lift_rdr P Q) ctx_orderBuffer (@lift_rdr P Q).
Proof.
  unfold ctx_orderBuffer. apply hoare_get_bind'. intros t.
  apply hoare_seq; [apply frame_on_reader, frame_journal_event|]. intros _.
  destruct (orderBuffer _) as [res ctx].
  apply hoare_seq; [apply frame_set_me|]. intros _.
  destruct res; hoare_auto.
Qed.

Lemma frame_compute_chunk_boundaries i ctx :
  hoare Q (compute_chunk_boundaries i ctx) Q.
Proof. unfold compute_chunk_boundaries. hoare_auto. Qed.

Lemma frame_parse_phase i :
  hoare (@lift_rdr P Q) (parse_phase i) (@lift_rdr P Q).
Proof.
  unfold parse_phase. apply hoare_get_bind'. intros t.
  apply hoare_seq.
  { destruct (tShowAlways (me t)); [apply hoare_ret|].
    destruct (tShowProgress (me t)); [|apply hoare_ret].
    apply hoare_seq; [apply frame_read_wallclock|]. intros. apply hoare_ret. }
  intros show. apply hoare_seq.
  { destruct show; [|apply hoare_ret].
    apply hoare_seq; [|intros; apply frame_set_me].
    apply frame_on_reader. apply hoare_get_bind'. intros.
    apply frame_progress. }
  intros _. apply hoare_seq; [apply frame_ctx_push_buffers|]. intros _.
  apply hoare_get_bind'. intros t'.
  apply hoare_seq;
    [apply frame_on_reader, frame_compute_chunk_boundaries|]. intros c.
  apply hoare_seq; [apply frame_set_me|]. intros _.
  apply frame_ctx_read_chunk.
Qed.

Lemma frame_thread_epilogue :
  hoare (@lift_rdr P Q) thread_epilogue (@lift_rdr P Q).
Proof.
  unfold thread_epilogue, discard_buffers, final_push, final_progress.
  apply hoare_seq.
  { apply hoare_seq; [apply frame_exception_caught|]. intros c.
    destruct c; [apply frame_set_me | apply hoare_ret]. }
  intros _. apply hoare_seq.
  { apply hoare_get_bind'. intros t.
    destruct (negb _); [|apply hoare_ret].
    apply (hoare_try_catch _ (@lift_rdr P Q)); auto.
    - apply frame_ctx_push_buffers.
    - apply frame_capture_exception. }
  intros _. apply hoare_get_bind'. intros t.
  destruct (tShowAlways (me t)); [|apply hoare_ret].
  apply frame_on_reader, frame_progress.
Qed.

Lemma frame_init_worker b :
  hoare (@lift_rdr P Q) (init_worker b) (@lift_rdr P Q).
Proof.
  unfold init_worker. apply hoare_get_bind'. intros t.
  apply hoare_seq.
  { destruct (_ && b); [|apply hoare_ret].
    apply hoare_seq; [apply frame_read_wallclock|]. intros. apply hoare_ret. }
  intros w. apply hoare_modify. auto.
Qed.

(** An iteration keeps what its commit phase keeps. *)
Lemma frame_chunk_iteration i :
  hoare (@lift_rdr P Q) (commit_phase i) (@lift_rdr P Q) ->
  hoare (@lift_rdr P Q) (chunk_iteration i) (@lift_rdr P Q).
Proof.
  intros Hc. unfold chunk_iteration.
  apply hoare_seq; [apply frame_exception_caught|]. intros c.
  destruct c; [apply hoare_ret|].
  apply hoare_seq.
  { apply (hoare_try_catch _ (@lift_rdr P Q)); auto.
    - apply frame_parse_phase.
    - apply frame_capture_exception. }
  intros _. apply hoare_seq; [apply frame_exception_caught|]. intros c.
  destruct c; [apply hoare_ret|].
  apply (hoare_try_catch _ (@lift_rdr P Q)); auto.
  apply frame_capture_exception.
Qed.

Lemma frame_on_worker {A} k (m : M (Thread P) A) :
  hoare (@lift_rdr P Q) m (@lift_rdr P Q) -> hoare (@lift_region P Q) (on_worker k m) (@lift_region P Q).
Proof.
  intros H rg Hrg. unfold on_worker.
  destruct (nth_error (workers rg) k) as [w|]; [|exact I].
  specialize (H (mkThread (shared_rdr rg) (shared_oem rg) (clock rg) w) Hrg).
  destruct (m _); cbn in *; auto.
Qed.

End Frames.

(* ------------------------------------------------------------------ *)
(** ** The values of doubles *)

Section Values.

Local Open Scope Q_scope.

Lemma pow2_pos (e : Z) : 0 < 2 ^ e.
Proof. apply Qpower_0_lt. reflexivity. Qed.

Lemma pow2_add (a b : Z) : 2 ^ (a + b) == 2 ^ a * 2 ^ b.
Proof. apply Qpower_plus. discriminate. Qed.

Lemma pow2_inject (k : Z) : (0 <= k)%Z -> inject_Z (2 ^ k) == 2 ^ k.
Proof. intros H. apply (Zpower_Qpower 2 k H). Qed.

Lemma pval_pos (m : positive) (e : Z) : 0 < pval m e.
Proof.
  unfold pval. apply Qmult_lt_0_compat; [|apply pow2_pos].
  change 0 with (inject_Z 0). rewrite <- Zlt_Qlt. lia.
Qed.

(** A value [y] in the same unit interval [[q s, (q + 1) s]] as [V], for
    [q >= 2^52], is within [eps] of [V]. *)
Lemma unit_interval (q s V y : Q) :
  inject_Z (2 ^ 52) <= q -> 0 < s ->
  q * s <= V -> V <= (q + 1) * s ->
  q * s <= y -> y <= (q + 1) * s ->
  (1 - eps) * V <= y /\ y <= (1 + eps) * V.
Proof.
  intros Hq Hs HV1 HV2 Hy1 Hy2.
  assert (Hqs : inject_Z (2 ^ 52) * s <= q * s).
  { apply Qmult_le_compat_r; [exact Hq | apply Qlt_le_weak, Hs]. }
  change (inject_Z (2 ^ 52)) with (4503599627370496 # 1) in Hqs.
  unfold eps. set (Z0 := q * s) in *.
  assert (E : (q + 1) * s == Z0 + s) by (unfold Z0; ring).
  rewrite E in *. split; lra.
Qed.

Lemma inject_Z_le (a b : Z) : (a <= b)%Z -> inject_Z a <= inject_Z b.
Proof. intros H. rewrite <- Zle_Qle. exact H. Qed.

(** Rounding a mantissa of at least 53 bits: the result is within [eps] of
    every value [V] that lies between [m 2^e] and [(m + 1) 2^e]. *)
Lemma round_val (m : positive) (e : Z) (l : location) (V : Q) :
  let D := Z.pos (digits2_pos m) in
  let k := (D - 53)%Z in
  (53 <= D)%Z -> (-1074 <= e + k)%Z -> (e + k < 971)%Z ->
  inject_Z (Z.pos m) * 2 ^ e <= V ->
  V <= inject_Z (Z.pos m + 1) * 2 ^ e ->
  exists m' e',
    binary_round_aux 53 1024 false (Z.pos m) e l = S754_finite false m' e' /\
    canonical m' /\ (e + k <= e' <= e + k + 1)%Z /\
    (1 - eps) * V <= pval m' e' /\ pval m' e' <= (1 + eps) * V.
Proof.
  intros D k HD Hlo Hhi HV1 HV2.
  pose proof (digits2_pos_spec m) as [Mlo Mhi]. fold D in Mlo, Mhi.
  set (q := (Z.pos m / 2 ^ k)%Z).
  assert (Hk : (0 <= k)%Z) by (unfold k; lia).
  assert (Hpk : (0 < 2 ^ k)%Z) by (apply Z.pow_pos_nonneg; lia).
  assert (Hq1 : (q * 2 ^ k <= Z.pos m)%Z).
  { unfold q. rewrite Z.mul_comm. apply Z.mul_div_le. lia. }
  assert (Hq2 : (Z.pos m + 1 <= (q + 1) * 2 ^ k)%Z).
  { unfold q. pose proof (Z.mul_succ_div_gt (Z.pos m) (2 ^ k) Hpk). lia. }
  assert (Hq52 : (2 ^ 52 <= q)%Z).
  { unfold q. apply Z.div_le_lower_bound; [lia|].
    replace (2 ^ k * 2 ^ 52)%Z with (2 ^ (D - 1))%Z; [lia|].
    rewrite <- Z.pow_add_r by lia. f_equal. unfold k. lia. }
  set (s := 2 ^ (e + k)).
  assert (Hs : 0 < s) by apply pow2_pos.
  assert (Es : s == 2 ^ e * inject_Z (2 ^ k)).
  { unfold s. rewrite pow2_add, pow2_inject by lia. reflexivity. }
  assert (HVlo : inject_Z q * s <= V).
  { apply Qle_trans with (inject_Z (Z.pos m) * 2 ^ e); [|exact HV1].
    rewrite Es.
    setoid_replace (inject_Z q * (2 ^ e * inject_Z (2 ^ k)))
      with (inject_Z (q * 2 ^ k) * 2 ^ e)
      by (rewrite inject_Z_mult; ring).
    apply Qmult_le_compat_r; [apply inject_Z_le, Hq1|].
    apply Qlt_le_weak, pow2_pos. }
  assert (HVhi : V <= (inject_Z q + 1) * s).
  { apply Qle_trans with (inject_Z (Z.pos m + 1) * 2 ^ e); [exact HV2|].
    rewrite Es.
    setoid_replace ((inject_Z q + 1) * (2 ^ e * inject_Z (2 ^ k)))
      with (inject_Z ((q + 1) * 2 ^ k) * 2 ^ e)
      by (rewrite inject_Z_mult, inject_Z_plus; ring).
    apply Qmult_le_compat_r; [apply inject_Z_le, Hq2|].
    apply Qlt_le_weak, pow2_pos. }
  destruct (binary_round_aux_spec m e l HD Hlo Hhi)
    as (m' & [(E & Hm & Hc)|(E & Hm & Hq)]); fold D k q in E, Hm.
  - exists m', (e + k)%Z. fold k. split; [exact E|]. split; [exact Hc|].
    split; [lia|].
    apply (unit_interval (inject_Z q) s V); auto.
    + apply inject_Z_le, Hq52.
    + unfold pval. fold s. apply Qmult_le_compat_r;
        [apply inject_Z_le; lia | apply Qlt_le_weak, Hs].
    + unfold pval. fold s.
      setoid_replace (inject_Z q + 1) with (inject_Z (q + 1))
        by (rewrite inject_Z_plus; reflexivity).
      apply Qmult_le_compat_r;
        [apply inject_Z_le; lia | apply Qlt_le_weak, Hs].
  - exists m', (e + k + 1)%Z. fold k. split; [exact E|].
    split; [unfold canonical; lia|]. split; [lia|].
    change ((q + 1)%Z = (2 ^ 53)%Z) in Hq.
    assert (Ey : pval m' (e + k + 1) == (inject_Z q + 1) * s).
    { unfold pval. rewrite Hm, pow2_add. fold s.
      setoid_replace (inject_Z q + 1) with (inject_Z (q + 1))
        by (rewrite inject_Z_plus; reflexivity).
      rewrite Hq. change (2 ^ 1) with (2 # 1).
      change (inject_Z (2 ^ 53)) with (inject_Z (2 ^ 52) * (2 # 1)). ring. }
    rewrite Ey.
    apply (unit_interval (inject_Z q) s V); auto.
    + apply inject_Z_le, Hq52.
    + assert (0 <= s) by (apply Qlt_le_weak, Hs). lra.
    + apply Qle_refl.
Qed.

Lemma inject_Z_pow2 (k : Z) : (0 <= k)%Z -> inject_Z (2 ^ k) * 2 ^ (- k) == 1.
Proof.
  intros Hk. rewrite pow2_inject by exact Hk. rewrite <- pow2_add.
  replace (k + - k)%Z with 0%Z by lia. reflexivity.
Qed.

(** The conversion of an integer to double is within [eps] of it. *)
Lemma of_Z_val (z : positive) :
  (Z.pos z < 2 ^ 64)%Z ->
  exists m e,
    Double.of_Z (Z.pos z) = S754_finite false m e /\ canonical m /\
    (-52 <= e <= 12)%Z /\
    (1 - eps) * inject_Z (Z.pos z) <= pval m e /\
    pval m e <= (1 + eps) * inject_Z (Z.pos z).
Proof.
  intros Hz. destruct (of_Z_spec z Hz) as (m & e & E & Hc & Hs).
  pose proof (digits2_pos_spec z) as [Zlo Zhi].
  set (D := Z.pos (digits2_pos z)) in *. cbv zeta in Hs. fold D in Hs.
  assert (HD1 : (1 <= D)%Z) by (unfold D; lia).
  assert (HD64 : (D <= 64)%Z).
  { destruct (Z.leb_spec D 64); [assumption|].
    assert (2 ^ 64 <= 2 ^ (D - 1))%Z by (apply Z.pow_le_mono_r; lia). lia. }
  exists m, e. split; [exact E|]. split; [exact Hc|]. split; [lia|].
  assert (Hz0 : 0 <= inject_Z (Z.pos z)).
  { change 0 with (inject_Z 0). apply inject_Z_le. lia. }
  destruct Hs as [(H1 & H2 & H3)|Hs].
  - (* exact *)
    assert (Ev : pval m e == inject_Z (Z.pos z)).
    { unfold pval. rewrite H3, H2, inject_Z_mult.
      replace (D - 53)%Z with (- (53 - D))%Z by lia.
      rewrite <- Qmult_assoc, inject_Z_pow2 by lia. ring. }
    rewrite Ev. unfold eps. split; lra.
  - set (k := (D - 53)%Z) in *.
    set (q := (Z.pos z / 2 ^ k)%Z) in *.
    assert (Hk : (0 < k)%Z) by (unfold k; destruct Hs as [Hs|Hs]; lia).
    assert (Hpk : (0 < 2 ^ k)%Z) by (apply Z.pow_pos_nonneg; lia).
    assert (Hq1 : (q * 2 ^ k <= Z.pos z)%Z).
    { unfold q. rewrite Z.mul_comm. apply Z.mul_div_le. lia. }
    assert (Hq2 : (Z.pos z <= (q + 1) * 2 ^ k)%Z).
    { unfold q. pose proof (Z.mul_succ_div_gt (Z.pos z) (2 ^ k) Hpk). lia. }
    assert (Hq52 : (2 ^ 52 <= q)%Z).
    { unfold q. apply Z.div_le_lower_bound; [lia|].
      replace (2 ^ k * 2 ^ 52)%Z with (2 ^ (D - 1))%Z; [lia|].
      rewrite <- Z.pow_add_r by lia. f_equal. unfold k. lia. }
    set (s := inject_Z (2 ^ k)).
    assert (Hs0 : 0 < s).
    { unfold s. change 0 with (inject_Z 0). rewrite <- Zlt_Qlt. lia. }
    assert (Es : s == 2 ^ k) by (apply pow2_inject; lia).
    apply (unit_interval (inject_Z q) s).
    + apply inject_Z_le, Hq52.
    + exact Hs0.
    + unfold s. rewrite <- inject_Z_mult. apply inject_Z_le, Hq1.
    + unfold s.
      setoid_replace (inject_Z q + 1) with (inject_Z (q + 1))
        by (rewrite inject_Z_plus; reflexivity).
      rewrite <- inject_Z_mult. apply inject_Z_le, Hq2.
    + destruct Hs as [(H1 & H2 & H3)|(H1 & H2 & H3 & H4)].
      * unfold pval. rewrite H2. fold k. rewrite <- Es.
        apply Qmult_le_compat_r; [|apply Qlt_le_weak, Hs0].
        apply inject_Z_le. fold q in H3. lia.
      * unfold pval. rewrite H2, H3.
        replace (D - 52)%Z with (k + 1)%Z by (unfold k; lia).
        rewrite pow2_add, <- Es. change (2 ^ 1) with 2.
        fold q in H4.
        assert (inject_Z q <= inject_Z (2 ^ 53)) by (apply inject_Z_le; lia).
        change (inject_Z (2 ^ 53)) with (inject_Z (2 ^ 52) * 2) in H.
        assert (0 <= s) by (apply Qlt_le_weak, Hs0).
        assert (inject_Z q * s <= inject_Z (2 ^ 52) * 2 * s)
          by (apply Qmult_le_compat_r; assumption).
        lra.
    + destruct Hs as [(H1 & H2 & H3)|(H1 & H2 & H3 & H4)].
      * unfold pval. rewrite H2. fold k. rewrite <- Es.
        setoid_replace (inject_Z q + 1) with (inject_Z (q + 1))
          by (rewrite inject_Z_plus; reflexivity).
        apply Qmult_le_compat_r; [|apply Qlt_le_weak, Hs0].
        apply inject_Z_le. fold q in H3. lia.
      * unfold pval. rewrite H2, H3.
        replace (D - 52)%Z with (k + 1)%Z by (unfold k; lia).
        rewrite pow2_add, <- Es. change (2 ^ 1) with 2.
        fold q in H4.
        setoid_replace (inject_Z q + 1) with (inject_Z (q + 1))
          by (rewrite inject_Z_plus; reflexivity).
        rewrite H4.
        change (inject_Z (2 ^ 53)) with (inject_Z (2 ^ 52) * 2).
        assert (0 <= s) by (apply Qlt_le_weak, Hs0). lra.
Qed.

(** The product of two doubles is within [eps] of the product of their
    values. *)
Lemma mul_val (m1 m2 : positive) (e1 e2 : Z) :
  canonical m1 -> canonical m2 -> (-400 <= e1 + e2 <= 400)%Z ->
  exists m' e',
    Double.mul (S754_finite false m1 e1) (S754_finite false m2 e2)
    = S754_finite false m' e' /\
    canonical m' /\ (e1 + e2 + 51 <= e' <= e1 + e2 + 54)%Z /\
    (1 - eps) * (pval m1 e1 * pval m2 e2) <= pval m' e' /\
    pval m' e' <= (1 + eps) * (pval m1 e1 * pval m2 e2).
Proof.
  intros H1 H2 He. unfold Double.mul, SFmul, Double.prec, Double.emax.
  cbn [xorb]. unfold canonical in H1, H2.
  set (p := (m1 * m2)%positive).
  assert (Hp : Z.pos p = (Z.pos m1 * Z.pos m2)%Z) by reflexivity.
  assert (Hplo : (2 ^ 104 <= Z.pos p)%Z).
  { rewrite Hp. change (2 ^ 104)%Z with (2 ^ 52 * 2 ^ 52)%Z.
    apply Z.mul_le_mono_nonneg; lia. }
  assert (Hphi : (Z.pos p < 2 ^ 106)%Z).
  { rewrite Hp. change (2 ^ 106)%Z with (2 ^ 53 * 2 ^ 53)%Z.
    apply Z.mul_lt_mono_nonneg; lia. }
  assert (HD : (Z.pos (digits2_pos p) = 105 \/ Z.pos (digits2_pos p) = 106)%Z).
  { destruct (Z.ltb_spec (Z.pos p) (2 ^ 105)); [left|right];
      apply digits2_pos_unique; lia. }
  assert (EV : pval m1 e1 * pval m2 e2 == inject_Z (Z.pos p) * 2 ^ (e1 + e2)).
  { unfold pval. rewrite Hp, inject_Z_mult, pow2_add. ring. }
  destruct (round_val p (e1 + e2) loc_Exact (pval m1 e1 * pval m2 e2))
    as (m' & e' & E & Hc & He' & Hlo & Hhi); try lia.
  - rewrite EV. apply Qle_refl.
  - rewrite EV. apply Qmult_le_compat_r;
      [apply inject_Z_le; lia | apply Qlt_le_weak, pow2_pos].
  - exists m', e'. split; [exact E|]. split; [exact Hc|].
    split; [lia|]. split; assumption.
Qed.

(** The quotient of two doubles, times the divisor, is within [eps] of the
    dividend. *)
Lemma div_val (mp md : positive) (ep ed : Z) :
  canonical mp -> canonical md ->
  (-400 <= ep <= 400)%Z -> (-400 <= ed <= 400)%Z ->
  exists m' e',
    Double.div (S754_finite false mp ep) (S754_finite false md ed)
    = S754_finite false m' e' /\
    canonical m' /\
    (1 - eps) * pval mp ep <= pval m' e' * pval md ed /\
    pval m' e' * pval md ed <= (1 + eps) * pval mp ep.
Proof.
  intros Hp Hd Hep Hed. unfold Double.div, SFdiv, SFdiv_core_binary.
  cbn [xorb Zdigits2].
  rewrite (canonical_digits mp Hp), (canonical_digits md Hd).
  unfold Double.prec, Double.emax.
  assert (Hf : Z.min (fexp 53 1024 (53 + ep - (53 + ed))) (ep - ed)
               = (ep - ed - 53)%Z).
  { unfold fexp, emin. lia. }
  rewrite Hf. replace (ep - ed - (ep - ed - 53))%Z with 53%Z by lia.
  unfold canonical in Hp, Hd.
  assert (Hs : Z.shiftl (Z.pos mp) 53 = (Z.pos mp * 2 ^ 53)%Z)
    by (apply Z.shiftl_mul_pow2; lia).
  rewrite Hs.
  pose proof (Z.div_eucl_eq (Z.pos mp * 2 ^ 53) (Z.pos md) ltac:(lia)) as Heq.
  pose proof (Z.mod_pos_bound (Z.pos mp * 2 ^ 53) (Z.pos md) ltac:(lia))
    as Hr.
  unfold Z.modulo in Hr.
  destruct (Z.div_eucl (Z.pos mp * 2 ^ 53) (Z.pos md)) as [q r].
  assert (Hq : (2 ^ 52 <= q < 2 ^ 54)%Z) by nia.
  destruct q as [|q|q]; try lia.
  set (e0 := (ep - ed - 53)%Z).
  set (W := pval md ed).
  assert (HW : 0 < W) by apply pval_pos.
  set (V := pval mp ep / W).
  assert (HD : (Z.pos (digits2_pos q) = 53 \/ Z.pos (digits2_pos q) = 54)%Z).
  { destruct (Z.ltb_spec (Z.pos q) (2 ^ 53)); [left|right];
      apply digits2_pos_unique; lia. }
  assert (Escale : forall x : Z,
            inject_Z x * 2 ^ e0 * W
            == inject_Z (x * Z.pos md) * 2 ^ (e0 + ed)).
  { intros x. unfold W, pval. rewrite inject_Z_mult, pow2_add. ring. }
  assert (Enum : pval mp ep == inject_Z (Z.pos mp * 2 ^ 53) * 2 ^ (e0 + ed)).
  { unfold pval. rewrite inject_Z_mult.
    change (inject_Z (2 ^ 53)) with (inject_Z (2 ^ 53)).
    rewrite (pow2_inject 53) by lia.
    rewrite <- Qmult_assoc, <- pow2_add. unfold e0.
    replace (53 + (ep - ed - 53 + ed))%Z with ep by lia. reflexivity. }
  assert (Hpow : 0 <= 2 ^ (e0 + ed)) by (apply Qlt_le_weak, pow2_pos).
  destruct (round_val q e0 (new_location (Z.pos md) r) V)
    as (m' & e' & E & Hc & He' & Hlo & Hhi); try (unfold e0; lia).
  - unfold V. apply Qle_shift_div_l; [exact HW|].
    rewrite Escale, Enum.
    apply Qmult_le_compat_r; [apply inject_Z_le; lia | exact Hpow].
  - unfold V. apply Qle_shift_div_r; [exact HW|].
    rewrite Escale, Enum.
    apply Qmult_le_compat_r; [apply inject_Z_le; lia | exact Hpow].
  - exists m', e'. split; [exact E|]. split; [exact Hc|].
    assert (EV : V * W == pval mp ep).
    { unfold V. field. intros H0. rewrite H0 in HW.
      exact (Qlt_irrefl 0 HW). }
    split.
    + rewrite <- EV.
      setoid_replace ((1 - eps) * (V * W)) with ((1 - eps) * V * W) by ring.
      apply Qmult_le_compat_r; [exact Hlo | apply Qlt_le_weak, HW].
    + rewrite <- EV.
      setoid_replace ((1 + eps) * (V * W)) with ((1 + eps) * V * W) by ring.
      apply Qmult_le_compat_r; [exact Hhi | apply Qlt_le_weak, HW].
Qed.

(** The integer part of a double that is a [size_t]. *)
Lemma to_size_t_val (m : positive) (e : Z) (t : Z) :
  Double.to_size_t (S754_finite false m e) = Some t ->
  pval m e < inject_Z t + 1.
Proof.
  unfold Double.to_size_t, Double.truncate.
  destruct (Z.leb_spec 0 e) as [He|He].
  - rewrite Z.shiftl_mul_pow2 by lia.
    destruct (_ && _); [|discriminate]. intros H. apply Some_inj in H.
    subst t. unfold pval. rewrite inject_Z_mult, pow2_inject by lia.
    lra.
  - rewrite Z.shiftr_div_pow2 by lia.
    destruct (_ && _); [|discriminate]. intros H. apply Some_inj in H.
    subst t. unfold pval.
    assert (Hp : (0 < 2 ^ (- e))%Z) by (apply Z.pow_pos_nonneg; lia).
    pose proof (Z.mul_succ_div_gt (Z.pos m) (2 ^ (- e)) Hp) as Hlt.
    assert (Hq : inject_Z (Z.pos m)
                 < (inject_Z (Z.pos m / 2 ^ (- e)) + 1) * 2 ^ (- e)).
    { rewrite <- pow2_inject by lia.
      setoid_replace (inject_Z (Z.pos m / 2 ^ (- e)) + 1)
        with (inject_Z (Z.pos m / 2 ^ (- e) + 1))
        by (rewrite inject_Z_plus; reflexivity).
      rewrite <- inject_Z_mult, <- Zlt_Qlt. lia. }
    apply (Qmult_lt_r _ _ (2 ^ (- e))); [apply pow2_pos|].
    rewrite <- Qmult_assoc, <- pow2_add.
    replace (e + - e)%Z with 0%Z by lia.
    change (2 ^ 0) with 1. rewrite Qmult_1_r. exact Hq.
Qed.

Lemma Qmult_le_both (a b c d : Q) :
  0 <= a -> a <= b -> 0 <= c -> c <= d -> a * c <= b * d.
Proof.
  intros Ha Hab Hc Hcd.
  apply Qle_trans with (b * c).
  - apply Qmult_le_compat_r; assumption.
  - rewrite (Qmult_comm b c), (Qmult_comm b d).
    apply Qmult_le_compat_r; [assumption | lra].
Qed.

(** The projection of the allocator, when it is a [size_t], is at least
    the request. *)
Lemma projection_covers_request (n c d t : Z) :
  (1 <= n < 2 ^ 64)%Z -> (1 <= d < c)%Z -> (c < 2 ^ 64)%Z ->
  Double.to_size_t
    (Double.div
       (Double.mul (Double.mul Double.d1_2 (Double.of_Z n)) (Double.of_Z c))
       (Double.of_Z d)) = Some t ->
  (n <= t)%Z.
Proof.
  intros Hn Hd Hc.
  destruct n as [|n|n]; try lia. destruct c as [|c|c]; try lia.
  destruct d as [|d|d]; try lia.
  destruct (of_Z_val n ltac:(lia)) as (mn & en & En & Cn & Hen & Ln & _).
  destruct (of_Z_val c ltac:(lia)) as (mc & ec & Ec & Cc & Hec & Lc & _).
  destruct (of_Z_val d ltac:(lia)) as (md & ed & Ed & Cd & Hed & _ & Ud).
  rewrite En, Ec, Ed. unfold Double.d1_2.
  destruct (mul_val 5404319552844595 mn (-52) en) as
    (ma & ea & Ea & Ca & Hea & La & _);
    [unfold canonical; lia | exact Cn | lia |].
  rewrite Ea.
  destruct (mul_val ma mc ea ec Ca Cc ltac:(lia))
    as (mb & eb & Eb & Cb & Heb & Lb & _).
  rewrite Eb.
  destruct (div_val mb md eb ed Cb Cd ltac:(lia) ltac:(lia))
    as (mx & ex & Ex & Cx & Lx & _).
  rewrite Ex. intros Ht. apply to_size_t_val in Ht.
  set (vn := pval mn en) in *. set (vc := pval mc ec) in *.
  set (vd := pval md ed) in *. set (va := pval ma ea) in *.
  set (vb := pval mb eb) in *. set (vx := pval mx ex) in *.
  set (N := inject_Z (Z.pos n)) in *. set (C := inject_Z (Z.pos c)) in *.
  set (D := inject_Z (Z.pos d)) in *.
  assert (HN : 1 <= N) by (change 1 with (inject_Z 1); apply inject_Z_le; lia).
  assert (HD : 1 <= D) by (change 1 with (inject_Z 1); apply inject_Z_le; lia).
  assert (HCD : D + 1 <= C).
  { unfold C, D. change 1 with (inject_Z 1). rewrite <- inject_Z_plus.
    apply inject_Z_le. lia. }
  assert (EK : pval 5404319552844595 (-52)
               == 5404319552844595 # 4503599627370496) by reflexivity.
  rewrite EK in La.
  assert (Hvx : 0 < vx) by apply pval_pos.
  assert (Hvd : 0 < vd) by apply pval_pos.
  unfold eps in *.
  (* 1.2 n, rounded twice *)
  assert (A1 : (119 # 100) * N <= va) by lra.
  (* times c *)
  assert (B0 : (119 # 100) * N * ((1 - (1 # 4503599627370496)) * C)
               <= va * vc).
  { apply Qmult_le_both; lra. }
  assert (B1 : (118 # 100) * (N * C) <= vb).
  { apply Qle_trans with ((1 - (1 # 4503599627370496)) * (va * vc));
      [|exact Lb].
    apply Qle_trans
      with ((1 - (1 # 4503599627370496))
            * ((119 # 100) * N * ((1 - (1 # 4503599627370496)) * C))).
    - assert (0 <= N * C) by (apply Qmult_le_0_compat; lra).
      setoid_replace
        ((1 - (1 # 4503599627370496))
         * ((119 # 100) * N * ((1 - (1 # 4503599627370496)) * C)))
        with ((1 - (1 # 4503599627370496)) * (1 - (1 # 4503599627370496))
              * (119 # 100) * (N * C)) by ring.
      apply Qle_trans with ((118 # 100) * (N * C)); [apply Qle_refl|].
      apply Qmult_le_compat_r; [|assumption]. 
      unfold Qle, Qmult, Qminus, Qplus, Qopp. vm_compute. discriminate.
    - rewrite (Qmult_comm (1 - (1 # 4503599627370496)) (va * vc)).
      rewrite (Qmult_comm (1 - (1 # 4503599627370496)) (_ * _ * _)).
      apply Qmult_le_compat_r; [exact B0 | lra]. }
  (* divided by d *)
  assert (X1 : (117 # 100) * (N * C) <= vx * vd).
  { assert (0 <= N * C) by (apply Qmult_le_0_compat; lra). lra. }
  assert (X2 : vx * vd <= vx * ((101 # 100) * D)).
  { rewrite (Qmult_comm vx vd), (Qmult_comm vx (_ * D)).
    apply Qmult_le_compat_r; lra. }
  assert (X3 : N * D <= N * C).
  { rewrite (Qmult_comm N D), (Qmult_comm N C).
    apply Qmult_le_compat_r; lra. }
  assert (X4 : N * D <= vx * D).
  { assert (0 <= N * D) by (apply Qmult_le_0_compat; lra).
    setoid_replace (vx * ((101 # 100) * D)) with ((101 # 100) * (vx * D))
      in X2 by ring.
    lra. }
  assert (X5 : N <= vx).
  { apply (Qmult_le_r _ _ D); [lra | exact X4]. }
  assert (Hlt : N < inject_Z t + 1) by lra.
  unfold N in Hlt. change 1 with (inject_Z 1) in Hlt.
  rewrite <- inject_Z_plus, <- Zlt_Qlt in Hlt. lia.
Qed.

(** A double below [2^64] is a [size_t]. *)
Lemma to_size_t_defined (m : positive) (e : Z) :
  pval m e < inject_Z (2 ^ 64) ->
  exists t, Double.to_size_t (S754_finite false m e) = Some t.
Proof.
  intros Hv. unfold Double.to_size_t, Double.truncate.
  destruct (Z.leb_spec 0 e) as [He|He].
  - rewrite Z.shiftl_mul_pow2 by lia.
    assert (Hlt : (Z.pos m * 2 ^ e < 2 ^ 64)%Z).
    { unfold pval in Hv. rewrite <- pow2_inject, <- inject_Z_mult in Hv by lia.
      rewrite <- Zlt_Qlt in Hv. exact Hv. }
    assert (H0 : (0 <= Z.pos m * 2 ^ e)%Z).
    { apply Z.mul_nonneg_nonneg; [lia|]. apply Z.pow_nonneg. lia. }
    destruct (Z.leb_spec 0 (Z.pos m * 2 ^ e)); [|lia].
    unfold Machine.size_modulus.
    destruct (Z.ltb_spec (Z.pos m * 2 ^ e) (2 ^ 64)); [|lia].
    cbn [andb]. eexists. reflexivity.
  - rewrite Z.shiftr_div_pow2 by lia.
    assert (Hp : (0 < 2 ^ (- e))%Z) by (apply Z.pow_pos_nonneg; lia).
    assert (H0 : (0 <= Z.pos m / 2 ^ (- e))%Z) by (apply Z.div_pos; lia).
    assert (Hlt : (Z.pos m / 2 ^ (- e) < 2 ^ 64)%Z).
    { apply Z.div_lt_upper_bound; [exact Hp|].
      assert (Hq : inject_Z (Z.pos m) < inject_Z (2 ^ 64) * 2 ^ (- e)).
      { apply (Qmult_lt_r _ _ (2 ^ e)); [apply pow2_pos|].
        rewrite <- Qmult_assoc, <- pow2_add.
        replace (- e + e)%Z with 0%Z by lia.
        change (2 ^ 0) with 1. rewrite Qmult_1_r. exact Hv. }
      rewrite <- pow2_inject, <- inject_Z_mult, <- Zlt_Qlt in Hq by lia.
      lia. }
    destruct (Z.leb_spec 0 (Z.pos m / 2 ^ (- e))); [|lia].
    unfold Machine.size_modulus.
    destruct (Z.ltb_spec (Z.pos m / 2 ^ (- e)) (2 ^ 64)); [|lia].
    cbn [andb]. eexists. reflexivity.
Qed.

(** The projection of the allocator is a [size_t] as long as
    [n * c / d] is at most [2^63]. *)
Lemma projection_defined (n c d : Z) :
  (1 <= n < 2 ^ 64)%Z -> (1 <= c < 2 ^ 64)%Z -> (1 <= d < 2 ^ 64)%Z ->
  (n * c <= 2 ^ 63 * d)%Z ->
  exists t,
    Double.to_size_t
      (Double.div
         (Double.mul (Double.mul Double.d1_2 (Double.of_Z n)) (Double.of_Z c))
         (Double.of_Z d)) = Some t.
Proof.
  intros Hn Hc Hd Hb.
  destruct n as [|n|n]; try lia. destruct c as [|c|c]; try lia.
  destruct d as [|d|d]; try lia.
  destruct (of_Z_val n ltac:(lia)) as (mn & en & En & Cn & Hen & _ & Un).
  destruct (of_Z_val c ltac:(lia)) as (mc & ec & Ec & Cc & Hec & _ & Uc).
  destruct (of_Z_val d ltac:(lia)) as (md & ed & Ed & Cd & Hed & Ld & _).
  rewrite En, Ec, Ed. unfold Double.d1_2.
  destruct (mul_val 5404319552844595 mn (-52) en) as
    (ma & ea & Ea & Ca & Hea & _ & Ua);
    [unfold canonical; lia | exact Cn | lia |].
  rewrite Ea.
  destruct (mul_val ma mc ea ec Ca Cc ltac:(lia))
    as (mb & eb & Eb & Cb & Heb & _ & Ub).
  rewrite Eb.
  destruct (div_val mb md eb ed Cb Cd ltac:(lia) ltac:(lia))
    as (mx & ex & Ex & Cx & _ & Ux).
  rewrite Ex. apply to_size_t_defined.
  set (vn := pval mn en) in *. set (vc := pval mc ec) in *.
  set (vd := pval md ed) in *. set (va := pval ma ea) in *.
  set (vb := pval mb eb) in *. set (vx := pval mx ex) in *.
  set (N := inject_Z (Z.pos n)) in *. set (C := inject_Z (Z.pos c)) in *.
  set (D := inject_Z (Z.pos d)) in *.
  assert (HN : 1 <= N) by (change 1 with (inject_Z 1); apply inject_Z_le; lia).
  assert (HC : 1 <= C) by (change 1 with (inject_Z 1); apply inject_Z_le; lia).
  assert (HD : 1 <= D) by (change 1 with (inject_Z 1); apply inject_Z_le; lia).
  assert (HB : N * C <= inject_Z (2 ^ 63) * D).
  { unfold N, C, D. rewrite <- !inject_Z_mult. apply inject_Z_le. exact Hb. }
  assert (EK : pval 5404319552844595 (-52)
               == 5404319552844595 # 4503599627370496) by reflexivity.
  rewrite EK in Ua.
  assert (Hvn : 0 < vn) by apply pval_pos.
  assert (Hvc : 0 < vc) by apply pval_pos.
  assert (Hva : 0 < va) by apply pval_pos.
  assert (Hvb : 0 < vb) by apply pval_pos.
  assert (Hvx : 0 < vx) by apply pval_pos.
  assert (Hvd : 0 < vd) by apply pval_pos.
  unfold eps in *.
  assert (A1 : va <= (121 # 100) * N) by lra.
  assert (B0 : va * vc <= (121 # 100) * N * ((101 # 100) * C)).
  { apply Qmult_le_both; lra. }
  assert (HNC : 0 <= N * C) by (apply Qmult_le_0_compat; lra).
  assert (B1 : vb <= (125 # 100) * (N * C)).
  { setoid_replace ((121 # 100) * N * ((101 # 100) * C))
      with ((12221 # 10000) * (N * C)) in B0 by ring.
    assert (0 <= va * vc) by (apply Qmult_le_0_compat; lra).
    lra. }
  assert (X1 : vx * vd <= (126 # 100) * (N * C)) by lra.
  assert (X2 : vx * ((99 # 100) * D) <= vx * vd).
  { rewrite (Qmult_comm vx vd), (Qmult_comm vx (_ * D)).
    apply Qmult_le_compat_r; lra. }
  assert (X3 : vx * D <= (128 # 100) * (inject_Z (2 ^ 63) * D)).
  { setoid_replace (vx * ((99 # 100) * D)) with ((99 # 100) * (vx * D))
      in X2 by ring.
    lra. }
  assert (X4 : vx <= (128 # 100) * inject_Z (2 ^ 63)).
  { apply (Qmult_le_r _ _ D); [lra|].
    setoid_replace ((128 # 100) * inject_Z (2 ^ 63) * D)
      with ((128 # 100) * (inject_Z (2 ^ 63) * D)) by ring.
    exact X3. }
  apply Qle_lt_trans with ((128 # 100) * inject_Z (2 ^ 63)); [exact X4|].
  vm_compute. reflexivity.
Qed.

End Values.

(* ------------------------------------------------------------------ *)
(** ** The output allocator *)

Section Allocator.

Context {host : Host}.

Lemma realloc_output_columns_eq (r : ChunkedDataReader) (ichunk n : Z) :
  realloc_output_columns ichunk n r =
  match projected_alloc r ichunk n with
  | None => Undefined
  | Some a =>
      let a' := Z.min a (nrows_max r) in
      match set_nrows_raises a' with
      | Some e => Throw e (realloc_started a' r)
      | None => Ret tt (realloc_done a' r)
      end
  end.
Proof.
  unfold realloc_output_columns, projected_alloc, bind at 1, get at 1.
  assert (Hclamp : forall a,
    (if a >? nrows_max r then nrows_max r else a) = Z.min a (nrows_max r)).
  { intros a. destruct (Z.gtb_spec a (nrows_max r)); lia. }
  assert (Htail : forall a,
    bind (modify (set_nrows_allocated
                    (if a >? nrows_max r then nrows_max r else a)))
      (fun _ => bind (trace (if a >? nrows_max r then nrows_max r else a))
         (fun _ => columns_set_nrows
                     (if a >? nrows_max r then nrows_max r else a))) r =
    match set_nrows_raises (Z.min a (nrows_max r)) with
    | Some e => Throw e (realloc_started (Z.min a (nrows_max r)) r)
    | None => Ret tt (realloc_done (Z.min a (nrows_max r)) r)
    end).
  { intros a. rewrite Hclamp. unfold bind, modify, trace, columns_set_nrows.
    destruct (set_nrows_raises _); reflexivity. }
  destruct (ichunk =? sz_sub (chunkCount r) 1).
  - unfold bind at 1, ret at 1. apply Htail.
  - unfold bind at 1. unfold bind at 1.
    destruct (Double.to_size_t _) as [t|]; cbn [defined]; [|reflexivity].
    unfold ret at 1. unfold ret at 1. rewrite std_max_eq. apply Htail.
Qed.

Lemma frame_realloc_output_columns Q i n :
  g_insensitive Q -> alloc_insensitive Q ->
  hoare Q (realloc_output_columns i n) Q.
Proof.
  intros Qg Qa r Hr. rewrite realloc_output_columns_eq.
  destruct (projected_alloc r i n) as [a|]; [|exact I].
  cbv zeta. unfold realloc_done, realloc_started.
  destruct (set_nrows_raises _); cbn [post]; repeat apply Qg; apply Qa, Hr.
Qed.

(** The size asked for is at least the request. *)
Lemma projected_alloc_covers (r : ChunkedDataReader) (i n a : Z) :
  1 <= n < 2 ^ 64 -> 0 <= i < chunkCount r -> chunkCount r < 2 ^ 64 ->
  projected_alloc r i n = Some a -> n <= a.
Proof.
  intros Hn Hi Hc. unfold projected_alloc, sz_sub.
  rewrite (to_size_t_id (chunkCount r - 1)) by lia.
  destruct (Z.eqb_spec i (chunkCount r - 1)) as [E|E].
  - intros H. apply Some_inj in H. lia.
  - unfold exp_nrows, sz_add. rewrite (to_size_t_id (i + 1)) by lia.
    destruct (Double.to_size_t _) as [t|] eqn:Et; [|discriminate].
    intros H. apply Some_inj in H.
    apply projection_covers_request in Et; lia.
Qed.

(** There is a size to ask for: for the last chunk always, and for another
    chunk as long as [n * chunkCount / (i + 1)] is at most [2^63]. *)
Lemma projected_alloc_defined (r : ChunkedDataReader) (i n : Z) :
  1 <= n < 2 ^ 64 -> 0 <= i < chunkCount r -> chunkCount r < 2 ^ 64 ->
  i = chunkCount r - 1 \/ n * chunkCount r <= 2 ^ 63 * (i + 1) ->
  exists a, projected_alloc r i n = Some a.
Proof.
  intros Hn Hi Hc Hfit. unfold projected_alloc, sz_sub.
  rewrite (to_size_t_id (chunkCount r - 1)) by lia.
  destruct (Z.eqb_spec i (chunkCount r - 1)) as [E|E].
  - eexists. reflexivity.
  - destruct Hfit as [E'|Hfit]; [contradiction|].
    unfold exp_nrows, sz_add. rewrite (to_size_t_id (i + 1)) by lia.
    destruct (projection_defined n (chunkCount r) (i + 1)
                Hn ltac:(lia) ltac:(lia) Hfit) as (t & Ht).
    rewrite Ht. eexists. reflexivity.
Qed.

(** A reallocation with a size to ask for ends, when the column store is
    resized and when the resize raises. *)
Lemma realloc_output_columns_ends (r : ChunkedDataReader) (i n a : Z) :
  projected_alloc r i n = Some a ->
  exists r',
    final_state (realloc_output_columns i n r) = Some r' /\
    nrows_allocated r' = Z.min a (nrows_max r) /\
    nrows_max r' = nrows_max r.
Proof.
  intros Ea. rewrite realloc_output_columns_eq, Ea. cbv zeta.
  destruct (set_nrows_raises _); eexists; repeat split; reflexivity.
Qed.

(** What a reallocation leaves is room for the request, up to the row
    limit. *)
Lemma realloc_output_columns_room (r : ChunkedDataReader) (i n : Z) :
  1 <= n < 2 ^ 64 ->
  0 <= i < chunkCount r -> chunkCount r < 2 ^ 64 ->
  post (realloc_output_columns i n r)
    (fun r' => Z.min n (nrows_max r) <= nrows_allocated r' <= nrows_max r).
Proof.
  intros Hn Hi Hc. rewrite realloc_output_columns_eq.
  destruct (projected_alloc r i n) as [a|] eqn:Ea; [|exact I].
  pose proof (projected_alloc_covers r i n a Hn Hi Hc Ea) as Ha.
  cbv zeta. destruct (set_nrows_raises _); cbn; lia.
Qed.

(** Under the conditions in which [read_all] calls it, a reallocation makes
    [nrows_allocated] strictly larger, and never larger than [nrows_max].
    (Where [1024 + nrows_allocated] wraps around, the projection
    [exp_nrows] does not fit a [size_t].) *)
Lemma realloc_output_columns_grows (r : ChunkedDataReader) (i n : Z) :
  nrows_allocated r < n < 2 ^ 64 ->
  0 <= nrows_allocated r < nrows_max r ->
  0 <= i < chunkCount r -> chunkCount r < 2 ^ 64 ->
  post (realloc_output_columns i n r)
    (fun r' => nrows_allocated r < nrows_allocated r' <= nrows_max r' /\
               nrows_max r' = nrows_max r /\
               chunkCount r' = chunkCount r).
Proof.
  intros Hn Hlt Hi Hc. rewrite realloc_output_columns_eq.
  unfold projected_alloc.
  assert (Hfin : forall a, nrows_allocated r < a ->
    post (match set_nrows_raises (Z.min a (nrows_max r)) with
          | Some e => Throw e (realloc_started (Z.min a (nrows_max r)) r)
          | None => Ret tt (realloc_done (Z.min a (nrows_max r)) r)
          end : outcome ChunkedDataReader unit)
      (fun r' => nrows_allocated r < nrows_allocated r' <= nrows_max r' /\
                 nrows_max r' = nrows_max r /\
                 chunkCount r' = chunkCount r)).
  { intros a Ha. destruct (set_nrows_raises _); cbn; lia. }
  unfold sz_sub. rewrite (to_size_t_id (chunkCount r - 1)) by lia.
  destruct (Z.eqb_spec i (chunkCount r - 1)) as [E|E].
  - apply Hfin. lia.
  - destruct (Z.ltb_spec (nrows_allocated r) (2 ^ 64 - 1024)) as [Hs|Hw].
    + destruct (Double.to_size_t _) as [t|]; [|exact I].
      apply Hfin. unfold sz_add. rewrite to_size_t_id by lia. lia.
    + unfold exp_nrows, sz_add. rewrite (to_size_t_id (i + 1)) by lia.
      rewrite projection_overflows by lia. exact I.
Qed.

End Allocator.

(* ------------------------------------------------------------------ *)
(** ** The commit phase *)

Section CommitPhase.

Context {P : Type} {ops : ParseContextOps P} {host : Host}.

(** What a commit phase leaves alone. *)
Lemma frame_order_chunk_loop Q n :
  g_insensitive Q -> lce_insensitive Q ->
  hoare (lift_rdr (P := P) Q) (order_chunk_loop n) (lift_rdr Q).
Proof.
  intros Qg Ql. induction n as [|i IH]; intros t Ht.
  - exact Ht.
  - rewrite order_chunk_loop_step.
    destruct (accepts _ _).
    + apply Ql, Ht.
    + assert (H1 : lift_rdr Q (snd (reparse t))).
      { unfold reparse. destruct (read_chunk _ _ _) as [[res acc] ctx].
        apply Qg, Ht. }
      destruct (reparse t) as [res t1]. cbn [snd] in H1.
      destruct res as [[]|e]; [|exact H1].
      destruct (Nat.eqb i 0); [exact H1|]. apply IH, H1.
Qed.

(** The commit phase without the reconciler: the row counters. *)
Lemma frame_commit_counters Q (i : Z) :
  g_insensitive Q -> alloc_insensitive Q -> written_insensitive Q ->
  hoare (lift_rdr Q)
    (bind get (fun t =>
       let nrows_new :=
         sz_add (nrows_written (rdr t)) (used_nrows (tctx (me t))) in
       bind
         (if nrows_new >? nrows_allocated (rdr t) then
            if nrows_allocated (rdr t) =? nrows_max (rdr t) then
              bind (modify (fun t =>
                      set_me (set_tctx
                                (set_used_nrows
                                   (sz_sub (nrows_allocated (rdr t))
                                      (nrows_written (rdr t)))
                                   (tctx (me t)))
                                (me t)) t))
                (fun _ => ret (nrows_allocated (rdr t)))
            else
              bind (on_reader (realloc_output_columns i nrows_new))
                (fun _ => ret nrows_new)
          else ret nrows_new)
         (fun nrows_new =>
            bind (modify (fun t =>
                    set_rdr (set_nrows_written nrows_new (rdr t)) t))
              (fun _ => ctx_orderBuffer))))
    (lift_rdr Q).
Proof.
  intros Qg Qa Qw.
  apply hoare_get_bind'. intros t.
  apply hoare_seq.
  { repeat apply hoare_if.
    - apply hoare_seq; [apply frame_set_me | intros; apply hoare_ret].
    - apply hoare_seq; [|intros; apply hoare_ret].
      apply frame_on_reader; auto.
      apply frame_realloc_output_columns; auto.
    - apply hoare_ret. }
  intros n. cbv beta.
  apply hoare_seq; [apply hoare_modify; intros s Hs; apply Qw, Hs|].
  intros u. apply frame_ctx_orderBuffer; auto.
Qed.

Lemma frame_commit_phase Q (i : Z) :
  g_insensitive Q -> lce_insensitive Q -> alloc_insensitive Q ->
  written_insensitive Q ->
  hoare (lift_rdr (P := P) Q) (commit_phase i) (lift_rdr Q).
Proof.
  intros Qg Ql Qa Qw. unfold commit_phase.
  apply hoare_seq; [apply frame_set_me|]. intros _.
  apply hoare_seq; [apply frame_order_chunk_loop; auto|]. intros u.
  apply (frame_commit_counters Q i); auto.
Qed.

(** [lastChunkEnd] does not go back in a commit phase. *)
Lemma commit_phase_lce (L i : Z) :
  hoare (fun t : Thread P => L <= lastChunkEnd (rdr t))
    (commit_phase i)
    (fun t => L <= lastChunkEnd (rdr t)).
Proof.
  set (Q := fun r : ChunkedDataReader => L <= lastChunkEnd r).
  assert (Qg : g_insensitive Q) by (intros r x Hr; exact Hr).
  assert (Qa : alloc_insensitive Q) by (intros r x Hr; exact Hr).
  assert (Qw : written_insensitive Q) by (intros r x Hr; exact Hr).
  change (hoare (lift_rdr Q) (commit_phase i) (lift_rdr Q)).
  unfold commit_phase.
  apply hoare_seq; [apply frame_set_me|]. intros _.
  apply hoare_seq; [apply order_chunk_loop_lce|]. intros u.
  apply (frame_commit_counters Q i); auto.
Qed.

(** In the commit phase of chunk [i < chunkCount], from a state with
    [0 <= nrows_allocated <= nrows_max], [nrows_allocated] does not
    decrease, and stays within [nrows_max]. *)
Lemma commit_phase_alloc (a mx c i : Z) :
  0 <= a -> 0 <= i < c -> c < 2 ^ 64 ->
  hoare (fun t : Thread P =>
           nrows_allocated (rdr t) = a /\ a <= mx /\
           nrows_max (rdr t) = mx /\ chunkCount (rdr t) = c)
    (commit_phase i)
    (fun t => a <= nrows_allocated (rdr t) <= mx /\
              nrows_max (rdr t) = mx /\ chunkCount (rdr t) = c).
Proof.
  intros Ha Hi Hc.
  set (Q := fun r : ChunkedDataReader =>
              nrows_allocated r = a /\ a <= mx /\ nrows_max r = mx /\
              chunkCount r = c).
  set (Q' := fun r : ChunkedDataReader =>
               a <= nrows_allocated r <= mx /\ nrows_max r = mx /\
               chunkCount r = c).
  assert (Qg : g_insensitive Q) by (intros r x Hr; exact Hr).
  assert (Ql : lce_insensitive Q) by (intros r x Hr; exact Hr).
  assert (Qg' : g_insensitive Q') by (intros r x Hr; exact Hr).
  change (hoare (lift_rdr Q) (commit_phase i) (lift_rdr Q')).
  unfold commit_phase.
  apply (hoare_bind _ (lift_rdr Q) _); [apply frame_set_me; auto| |].
  { intros s Hs. unfold lift_rdr, Q, Q' in *. lia. }
  intros _.
  apply (hoare_bind _ (lift_rdr Q) _);
    [apply frame_order_chunk_loop; auto | | ].
  { intros s Hs. unfold lift_rdr, Q, Q' in *. lia. }
  intros _.
  apply hoare_get_bind. intros t Ht.
  apply (hoare_bind _ (lift_rdr Q') _).
  - destruct (_ >? nrows_allocated (rdr t)) eqn:Hgt.
    + destruct (Z.eqb_spec (nrows_allocated (rdr t)) (nrows_max (rdr t)))
        as [E|E].
      * apply hoare_seq; [|intros; apply hoare_ret].
        apply hoare_modify. intros s ->. unfold lift_rdr, Q, Q' in *.
        cbn [rdr set_me]. lia.
      * apply hoare_seq; [|intros; apply hoare_ret].
        intros s ->. unfold on_reader, zoom.
        pose proof (realloc_output_columns_grows (rdr t) i
                      (sz_add (nrows_written (rdr t))
                         (used_nrows (tctx (me t))))) as G.
        destruct Ht as (Ha1 & Ha2 & Ha3 & Ha4).
        apply Z.gtb_lt in Hgt.
        pose proof (to_size_t_range
                      (nrows_written (rdr t) + used_nrows (tctx (me t))))
          as Hr.
        fold (sz_add (nrows_written (rdr t)) (used_nrows (tctx (me t))))
          in Hr.
        specialize (G ltac:(lia) ltac:(lia) ltac:(lia) ltac:(lia)).
        destruct (realloc_output_columns _ _ _); cbn in *; auto;
          unfold lift_rdr, Q'; cbn; lia.
    + apply hoare_ret'. intros s ->. unfold lift_rdr, Q, Q' in *. lia.
  - auto.
  - intros n. apply hoare_seq; [apply hoare_modify; auto|]. intros _.
    apply frame_ctx_orderBuffer; auto.
Qed.

End CommitPhase.

(* ------------------------------------------------------------------ *)
(** ** The loop: [lastChunkEnd] and [nrows_allocated] *)

Section Loop.

Context {P : Type} {ops : ParseContextOps P} {host : Host}.

(** The planner sets the chunk count to a [size_t]. *)
Lemma frame_planner Q :
  g_insensitive Q -> plan_insensitive Q ->
  hoare Q determine_chunking_strategy Q.
Proof.
  intros Qg (Qs & Qc & Qn).
  unfold determine_chunking_strategy.
  apply hoare_get_bind'. intros r0.
  apply hoare_seq; [apply hoare_defined|]. intros size1000.
  apply (hoare_bind _ (fun r => Q r /\ 2 ^ 18 <= chunkSize r) Q).
  { apply hoare_modify. intros r Hr. split; [apply Qs, Hr|].
    cbn [chunkSize set_chunkSize]. rewrite std_max_eq.
    change (Z.shiftl 1 18) with (2 ^ 18). lia. }
  { intros r [Hr _]. exact Hr. }
  intros _. apply hoare_get_bind. intros r1 [Hr1 Hcs].
  unfold sz_div at 1.
  destruct (chunkSize r1 =? 0); [apply hoare_bind_undefined|].
  apply hoare_bind_ret.
  apply (hoare_bind _ Q Q).
  { apply hoare_modify. intros s ->. apply Qc; [|exact Hr1].
    rewrite std_max_eq.
    pose proof (to_size_t_range (inputEnd r0 - inputStart r0)) as Hin.
    assert (0 <= to_size_t (inputEnd r0 - inputStart r0) / chunkSize r1
            <= to_size_t (inputEnd r0 - inputStart r0)).
    { split; [apply Z.div_pos; lia|].
      apply Z.div_le_upper_bound; [lia|]. nia. }
    lia. }
  { auto. }
  intros _. apply hoare_get_bind'. intros r2.
  apply hoare_seq.
  { apply hoare_if.
    - unfold sz_div.
      destruct (_ =? 0); [apply hoare_bind_undefined|].
      apply hoare_bind_ret. apply hoare_modify. intros r Hr.
      apply Qc; [apply to_size_t_range | exact Hr].
    - apply hoare_seq; [apply hoare_modify; intros r Hr; apply Qn, Hr|].
      intros _. apply hoare_get_bind'. intros r3.
      apply frame_trace, Qg. }
  intros _. apply hoare_get_bind'. intros r3.
  apply hoare_seq; [apply hoare_sz_div|]. intros cs.
  apply hoare_modify. intros r Hr. apply Qs, Hr.
Qed.

Lemma frame_master_block Q :
  g_insensitive Q -> plan_insensitive Q -> hoare Q master_block Q.
Proof.
  intros Qg Qp. unfold master_block.
  apply hoare_get_bind'. intros r.
  apply hoare_if; [|apply hoare_ret].
  apply hoare_seq.
  { apply hoare_modify. intros r0 Hr. apply Qp, Hr. }
  intros _. apply hoare_seq; [apply frame_trace, Qg|]. intros _.
  apply frame_planner; auto.
Qed.

(** What every commit phase keeps, for the number of chunks of the loop,
    the parallel region keeps. *)
Lemma frame_parallel_region Q :
  g_insensitive Q -> plan_insensitive Q ->
  (forall i c, 0 <= i < c ->
     hoare (lift_rdr (P := P) (at_chunkCount Q c)) (commit_phase i)
       (lift_rdr (at_chunkCount Q c))) ->
  hoare (lift_region (P := P) Q) parallel_region (lift_region Q).
Proof.
  intros Qg Qp Hcommit. unfold parallel_region.
  apply hoare_seq.
  { apply (hoare_zoom Q Q); [apply frame_master_block; auto|auto|auto]. }
  intros _. apply hoare_seq.
  { apply hoare_for_each. intros k _.
    apply frame_on_worker, frame_init_worker. }
  intros _. apply hoare_get_bind. intros rg Hrg.
  set (c := chunkCount (shared_rdr rg)).
  assert (Qgc : g_insensitive (at_chunkCount Q c)).
  { intros r x [Hr Hc]. split; [apply Qg, Hr | exact Hc]. }
  apply (hoare_bind _ (lift_region (at_chunkCount Q c)) _).
  - apply (hoare_conseq _ (lift_region (at_chunkCount Q c)) _
             (lift_region (at_chunkCount Q c))).
    + apply hoare_for_each. intros i Hi. apply in_seq in Hi.
      apply frame_on_worker, frame_chunk_iteration; [exact Qgc|].
      apply Hcommit. lia.
    + intros s ->. split; [exact Hrg | reflexivity].
    + auto.
  - intros s [Hs _]. exact Hs.
  - intros _.
    apply (hoare_conseq _ (lift_region Q) _ (lift_region Q)).
    + apply hoare_for_each. intros k _.
      apply frame_on_worker, frame_thread_epilogue, Qg.
    + intros s [Hs _]. exact Hs.
    + auto.
Qed.

Lemma frame_read_all Q :
  g_insensitive Q -> plan_insensitive Q ->
  (forall i c, 0 <= i < c ->
     hoare (lift_rdr (P := P) (at_chunkCount Q c)) (commit_phase i)
       (lift_rdr (at_chunkCount Q c))) ->
  hoare Q (read_all (P := P)) Q.
Proof.
  intros Qg Qp Hcommit r Hr. unfold read_all.
  pose proof (frame_parallel_region Q Qg Qp Hcommit
                (mkRegion r None 0 (repeat blank_worker team)) Hr) as H.
  destruct (parallel_region _) as [[] rg|e rg|]; cbn [post] in *; auto.
  destruct (shared_oem rg); [exact H|].
  assert (Hfin : hoare Q
            (bind get (fun r' =>
               bind (columns_set_nrows (nrows_written r')) (fun _ =>
                 if nrows_written r' <? nrows_max r'
                 then xassert (lastChunkEnd r' =? inputEnd r')
                 else ret tt))) Q).
  { apply hoare_get_bind'. intros r'.
    apply hoare_seq; [apply frame_columns_set_nrows, Qg|]. intros _.
    apply hoare_if; [apply hoare_xassert | apply hoare_ret]. }
  exact (Hfin (shared_rdr rg) H).
Qed.

(** The chunk count is left alone by a commit phase. *)
Lemma commit_phase_at_chunkCount Q (i c : Z) :
  hoare (lift_rdr (P := P) Q) (commit_phase i) (lift_rdr Q) ->
  hoare (lift_rdr (P := P) (at_chunkCount Q c)) (commit_phase i)
    (lift_rdr (at_chunkCount Q c)).
Proof.
  intros H.
  apply (hoare_conj (lift_rdr Q) (lift_rdr (fun r => chunkCount r = c))
           (lift_rdr Q) (lift_rdr (fun r => chunkCount r = c)));
    [exact H|].
  apply frame_commit_phase; intros r x Hr; exact Hr.
Qed.

(** C7 (as the code has it).  Across the ordered commit stage
    [lastChunkEnd] never decreases: whatever the parser does, the iteration
    of chunk [i], run by any thread [k], leaves [lastChunkEnd] at least as
    large as the iteration before left it; and so does a whole run of
    [read_all]. *)
Theorem lastChunkEnd_monotone :
  (forall (i : Z) (k : nat) (rg : Region P),
     post (on_worker k (chunk_iteration i) rg)
       (fun rg' =>
          lastChunkEnd (shared_rdr rg) <= lastChunkEnd (shared_rdr rg'))) /\
  (forall r : ChunkedDataReader,
     post (read_all (P := P) r)
       (fun r' => lastChunkEnd r <= lastChunkEnd r')).
Proof.
  split.
  - intros i k rg.
    set (L := lastChunkEnd (shared_rdr rg)).
    set (Q := fun r : ChunkedDataReader => L <= lastChunkEnd r).
    assert (Qg : g_insensitive Q) by (intros r x Hr; exact Hr).
    apply (frame_on_worker Q k (chunk_iteration i)).
    + apply frame_chunk_iteration; auto. apply commit_phase_lce.
    + unfold lift_region, Q, L. lia.
  - intros r.
    set (Q := fun r' : ChunkedDataReader => lastChunkEnd r <= lastChunkEnd r').
    apply (frame_read_all Q).
    + intros r' x Hr. exact Hr.
    + repeat split; intros; assumption.
    + intros i c _. apply commit_phase_at_chunkCount, commit_phase_lce.
    + unfold Q. lia.
Qed.

(** The row counters of an iteration: from [nrows_allocated = a]. *)
Lemma chunk_iteration_alloc_from (a mx c i : Z) :
  0 <= a -> 0 <= i < c -> c < 2 ^ 64 ->
  hoare (fun t : Thread P =>
           nrows_allocated (rdr t) = a /\ a <= mx /\
           nrows_max (rdr t) = mx /\ chunkCount (rdr t) = c)
    (chunk_iteration i)
    (fun t => a <= nrows_allocated (rdr t) <= mx /\
              nrows_max (rdr t) = mx /\ chunkCount (rdr t) = c).
Proof.
  intros Ha Hi Hc.
  set (Q0 := fun r : ChunkedDataReader =>
               nrows_allocated r = a /\ a <= mx /\ nrows_max r = mx /\
               chunkCount r = c).
  set (Q := fun r : ChunkedDataReader =>
              a <= nrows_allocated r <= mx /\ nrows_max r = mx /\
              chunkCount r = c).
  assert (Qg0 : g_insensitive Q0) by (intros r x Hr; exact Hr).
  assert (Q0Q : forall s, lift_rdr Q0 s -> lift_rdr (P := P) Q s).
  { intros s. unfold lift_rdr, Q0, Q. lia. }
  change (hoare (lift_rdr Q0) (chunk_iteration i) (lift_rdr Q)).
  unfold chunk_iteration.
  apply (hoare_bind _ (lift_rdr Q0) _);
    [apply frame_exception_caught | exact Q0Q |].
  intros caught. destruct caught; [apply hoare_ret'; exact Q0Q|].
  apply (hoare_bind _ (lift_rdr Q0) _).
  - apply (hoare_try_catch _ (lift_rdr Q0)); auto.
    + apply frame_parse_phase, Qg0.
    + intros e. apply frame_capture_exception.
  - exact Q0Q.
  - intros _. apply (hoare_bind _ (lift_rdr Q0) _);
      [apply frame_exception_caught | exact Q0Q |].
    intros caught. destruct caught; [apply hoare_ret'; exact Q0Q|].
    apply (hoare_try_catch _ (lift_rdr Q)); auto.
    + apply commit_phase_alloc; lia.
    + intros e. apply frame_capture_exception.
Qed.

(** The same, as an invariant. *)
Lemma commit_phase_alloc_between (a mx c i : Z) :
  0 <= a -> 0 <= i < c -> c < 2 ^ 64 ->
  hoare (lift_rdr (P := P) (at_chunkCount (alloc_between a mx) c))
    (commit_phase i) (lift_rdr (at_chunkCount (alloc_between a mx) c)).
Proof.
  intros Ha Hi Hc t [[Hr1 Hr2] Hr3].
  pose proof (commit_phase_alloc (nrows_allocated (rdr t)) mx c i
                ltac:(lia) Hi Hc t ltac:(repeat split; lia)) as H.
  apply (post_impl _ _ _ H).
  intros s. unfold lift_rdr, at_chunkCount, alloc_between. lia.
Qed.

Lemma keeps_by_frame {A} (m : M (Thread P) A) :
  (forall Q, g_insensitive Q -> hoare (lift_rdr Q) m (lift_rdr Q)) ->
  keeps_nrows_allocated m.
Proof.
  intros H t.
  apply (H (fun r => nrows_allocated r = nrows_allocated (rdr t))).
  - intros r x Hr. exact Hr.
  - reflexivity.
Qed.

(** C10.  [nrows_allocated] never decreases during a run.  For a reader
    with [0 <= nrows_allocated <= nrows_max]: a call of
    [realloc_output_columns] under the conditions of its caller (chunk
    [i < chunkCount], a request larger than [nrows_allocated], and
    [nrows_allocated < nrows_max]) ends, with the column store resized or
    with the exception of the resize, and has made [nrows_allocated]
    strictly larger, and no larger than [nrows_max]; this for the last
    chunk, and for another chunk whenever the projection
    [1.2 * new_alloc * chunkCount / (i + 1)] is a [size_t], which it is as
    long as [new_alloc * chunkCount / (i + 1)] is at most [2^63] (when it
    is not, the behaviour of the conversion is undefined);
    an iteration of the loop leaves [nrows_allocated] at least as large, and
    within [nrows_max]; so does a whole run of [read_all]; and the parse
    phase, the reconciler, the planner, the set-up and the epilogue of a
    thread leave it as it is. *)
Theorem nrows_allocated_never_decreases (r : ChunkedDataReader) :
  0 <= nrows_allocated r <= nrows_max r ->
  0 <= chunkCount r < 2 ^ 64 ->
  (forall i new_alloc,
     0 <= i < chunkCount r ->
     nrows_allocated r < new_alloc < 2 ^ 64 ->
     nrows_allocated r < nrows_max r ->
     let run := realloc_output_columns i new_alloc r in
     let grown r' :=
       nrows_allocated r < nrows_allocated r' <= nrows_max r' in
     (if i =? chunkCount r - 1 then
        exists r', final_state run = Some r' /\ grown r'
      else
        match Double.to_size_t (exp_nrows new_alloc (chunkCount r) i) with
        | Some _ => exists r', final_state run = Some r' /\ grown r'
        | None => run = Undefined
        end) /\
     (i = chunkCount r - 1 \/
      new_alloc * chunkCount r <= 2 ^ 63 * (i + 1) ->
      exists r', final_state run = Some r' /\ grown r')) /\
  (forall i (t : Thread P),
     rdr t = r -> 0 <= i < chunkCount r ->
     post (chunk_iteration i t)
       (fun t' => nrows_allocated r <= nrows_allocated (rdr t')
                  <= nrows_max (rdr t'))) /\
  post (read_all (P := P) r)
    (fun r' => nrows_allocated r <= nrows_allocated r' <= nrows_max r') /\
  (forall i, keeps_nrows_allocated (P := P) (parse_phase i)) /\
  keeps_nrows_allocated (P := P) order_chunk /\
  keeps_nrows_allocated (P := P) (on_reader determine_chunking_strategy) /\
  (forall b, keeps_nrows_allocated (P := P) (init_worker b)) /\
  keeps_nrows_allocated (P := P) thread_epilogue.
Proof.
  intros Hinv Hc. split; [|split; [|split]].
  - intros i n Hi Hn Hlt run grown.
    assert (Hends : forall a, projected_alloc r i n = Some a ->
              exists r', final_state run = Some r' /\ grown r').
    { intros a Ea.
      pose proof (projected_alloc_covers r i n a ltac:(lia) Hi ltac:(lia)
                    Ea) as Ha.
      destruct (realloc_output_columns_ends r i n a Ea)
        as (r' & E & Hr & Hm).
      exists r'. split; [exact E|]. unfold grown. lia. }
    split.
    + unfold projected_alloc, sz_sub in Hends.
      rewrite (to_size_t_id (chunkCount r - 1)) in Hends by lia.
      destruct (Z.eqb_spec i (chunkCount r - 1)) as [E|E].
      * apply (Hends n). reflexivity.
      * destruct (Double.to_size_t _) as [t|] eqn:Et.
        -- eapply Hends. reflexivity.
        -- unfold run. rewrite realloc_output_columns_eq.
           unfold projected_alloc, sz_sub.
           rewrite (to_size_t_id (chunkCount r - 1)) by lia.
           destruct (Z.eqb_spec i (chunkCount r - 1)); [contradiction|].
           rewrite Et. reflexivity.
    + intros Hfit.
      destruct (projected_alloc_defined r i n ltac:(lia) Hi ltac:(lia)
                  Hfit) as (a & Ea).
      apply (Hends a Ea).
  - intros i t <- Hi.
    pose proof (chunk_iteration_alloc_from (nrows_allocated (rdr t))
                  (nrows_max (rdr t)) (chunkCount (rdr t)) i
                  ltac:(lia) Hi ltac:(lia) t ltac:(repeat split; lia)) as H.
    apply (post_impl _ _ _ H). intros s. lia.
  - set (Q := fun r' : ChunkedDataReader =>
                alloc_between (nrows_allocated r) (nrows_max r) r' /\
                0 <= chunkCount r' < 2 ^ 64).
    assert (H : hoare Q (read_all (P := P)) Q).
    { apply frame_read_all.
      - intros r' x Hr. exact Hr.
      - unfold Q, alloc_between. repeat split; intros; cbn; lia.
      - intros i c Hi t [[Ht1 Ht2] Ht3].
        pose proof (commit_phase_alloc_between (nrows_allocated r)
                      (nrows_max r) c i ltac:(lia) Hi ltac:(lia) t
                      ltac:(split; assumption)) as H.
        apply (post_impl _ _ _ H).
        intros s [Hs1 Hs2]. repeat split; try apply Hs1; try exact Hs2; lia. }
    specialize (H r ltac:(unfold Q, alloc_between; lia)).
    apply (post_impl _ _ _ H). unfold Q, alloc_between. intros s. lia.
  - split; [|split; [|split; [|split]]].
    + intros i. apply keeps_by_frame. intros Q Qg.
      apply frame_parse_phase, Qg.
    + intros t0.
      apply (frame_order_chunk_loop
               (fun r => nrows_allocated r = nrows_allocated (rdr t0))).
      * intros r0 x Hr. exact Hr.
      * intros r0 x Hr. exact Hr.
      * reflexivity.
    + intros t0. unfold on_reader, zoom.
      assert (H : post (determine_chunking_strategy (rdr t0))
                    (fun r' => nrows_allocated r' = nrows_allocated (rdr t0))).
      { apply (frame_planner
                 (fun r' => nrows_allocated r' = nrows_allocated (rdr t0))).
        - intros r0 x Hr. exact Hr.
        - repeat split; intros; assumption.
        - reflexivity. }
      destruct (determine_chunking_strategy (rdr t0)); cbn in *; auto.
    + intros b. apply keeps_by_frame. intros Q Qg.
      apply frame_init_worker.
    + apply keeps_by_frame. intros Q Qg. apply frame_thread_epilogue, Qg.
Qed.

End Loop.

(* ------------------------------------------------------------------ *)
(** ** The sizing policy of the allocator *)

Section Sizing.

Context {host : Host}.

(** C4 (as the code has it).  For a request [(i, new_required)] with
    [new_required > nrows_allocated]: for the last chunk the new allocation
    is [new_required]; otherwise it is the larger of the projection
    [1.2 * new_required * chunkCount / (i + 1)], computed in double
    precision and truncated toward zero, and of [1024 + nrows_allocated]
    (as a [size_t]); in both cases clamped to [nrows_max].  When the
    projection is not a [size_t] the behaviour is undefined. *)
Theorem realloc_sizing (r : ChunkedDataReader) (i new_required : Z) :
  new_required > nrows_allocated r ->
  1 <= chunkCount r < 2 ^ 64 ->
  let run := realloc_output_columns i new_required r in
  if i =? chunkCount r - 1 then
    exists r', final_state run = Some r' /\
               nrows_allocated r' = Z.min new_required (nrows_max r)
  else
    match Double.to_size_t (exp_nrows new_required (chunkCount r) i) with
    | Some t =>
        exists r', final_state run = Some r' /\
                   nrows_allocated r' =
                     Z.min (Z.max t (to_size_t (1024 + nrows_allocated r)))
                       (nrows_max r)
    | None => run = Undefined
    end.
Proof.
  intros _ Hc run. unfold run. rewrite realloc_output_columns_eq.
  unfold projected_alloc, sz_sub. rewrite to_size_t_id by lia.
  destruct (i =? chunkCount r - 1).
  - cbv zeta. destruct (set_nrows_raises _); eexists; split; reflexivity.
  - destruct (Double.to_size_t _) as [t|]; [|reflexivity].
    cbv zeta. destruct (set_nrows_raises _); eexists; split; reflexivity.
Qed.

End Sizing.

(* ------------------------------------------------------------------ *)
(** ** The end of the parallel region *)

Section Epilogue.

Context {P : Type} {ops : ParseContextOps P} {host : Host}.

Lemma final_progress_eq (t : Thread P) :
  final_progress t =
  if tShowAlways (me t) then
    let status :=
      1 + Z.b2z (oem_exception_caught (oem t))
        + Z.b2z (oem_is_keyboard_interrupt (oem t)) in
    let t' := with_event (Progress (work_done_amount (rdr t)) status) t in
    match progress_raises (work_done_amount (rdr t)) status with
    | Some e => Throw e t'
    | None => Ret tt t'
    end
  else Ret tt t.
Proof.
  unfold final_progress, bind at 1, get at 1.
  destruct (tShowAlways (me t)); [|reflexivity].
  cbv zeta. unfold on_reader, zoom, progress, bind, journal_event, modify.
  destruct (progress_raises _ _); reflexivity.
Qed.


(** With an exception captured, a thread resets [used_nrows] and does not
    push. *)
Lemma epilogue_on_error (t : Thread P) :
  oem_exception_caught (oem t) = true ->
  thread_epilogue t = final_progress (zero_used_nrows t).
Proof.
  intros Hc. unfold thread_epilogue, discard_buffers, final_push.
  unfold bind, exception_caught, gets, get, modify. rewrite Hc.
  cbn [me set_me tctx set_tctx used_nrows set_used_nrows Z.eqb negb].
  reflexivity.
Qed.

End Epilogue.

Lemma replace_nth_length {A} (k : nat) (x : A) (l : list A) :
  length (replace_nth k x l) = length l.
Proof.
  revert k. induction l as [|y l IH]; intros [|k]; cbn; auto.
Qed.

Lemma nth_error_replace_nth {A} (k j : nat) (x : A) (l : list A) :
  nth_error (replace_nth k x l) j =
  if Nat.eqb j k then (if Nat.ltb k (length l) then Some x else None)
  else nth_error l j.
Proof.
  revert k j. induction l as [|y l IH]; intros k j.
  - destruct k, j; cbn; try reflexivity.
    destruct (Nat.eqb j k); reflexivity.
  - destruct k as [|k], j as [|j]; cbn [replace_nth nth_error Nat.eqb];
      try reflexivity.
    rewrite IH. cbn [length].
    change (Nat.ltb (S k) (S (length l))) with (Nat.ltb k (length l)).
    reflexivity.
Qed.

Lemma pushes_app (j : list Event) (ev : Event) :
  pushes (j ++ [ev]) = pushes j ++ (if is_PushBuffers ev then [ev] else []).
Proof.
  unfold pushes. rewrite filter_app. cbn [filter].
  destruct (is_PushBuffers ev); reflexivity.
Qed.

Section ErrorPath.

Context {P : Type} {ops : ParseContextOps P} {host : Host}.

(** With an exception captured, what a thread leaves: no used rows, and no
    push in the journal. *)
Lemma thread_epilogue_on_error (t : Thread P) :
  oem_exception_caught (oem t) = true ->
  exists t',
    final_state (thread_epilogue t) = Some t' /\
    used_nrows (tctx (me t')) = 0 /\
    oem t' = oem t /\
    pushes (journal (g (rdr t'))) = pushes (journal (g (rdr t))).
Proof.
  intros Hc. rewrite (epilogue_on_error t Hc), final_progress_eq.
  destruct (tShowAlways (me (zero_used_nrows t))).
  - cbv zeta. destruct (progress_raises _ _); eexists;
      (split; [reflexivity|]); cbn; rewrite pushes_app; cbn;
      rewrite app_nil_r; auto.
  - eexists. split; [reflexivity|]. cbn. auto.
Qed.

Lemma epilogues_on_error (l : list nat) : forall rg : Region P,
  oem_exception_caught (shared_oem rg) = true ->
  (forall k, In k l -> (k < length (workers rg))%nat) ->
  match for_each l (fun k => on_worker k thread_epilogue) rg with
  | Ret _ rg' =>
      oem_exception_caught (shared_oem rg') = true /\
      region_pushes rg' = region_pushes rg /\
      length (workers rg') = length (workers rg) /\
      forall k w',
        nth_error (workers rg') k = Some w' ->
        In k l \/ (exists w, nth_error (workers rg) k = Some w /\
                             used_nrows (tctx w) = 0) ->
        used_nrows (tctx w') = 0
  | Throw _ rg' => region_pushes rg' = region_pushes rg
  | Undefined => False
  end.
Proof.
  induction l as [|k l IH]; intros rg Hc Hl.
  - cbn. repeat split; auto.
    intros k w' Hw' [[]|(w & Hw & Hz)]. congruence.
  - cbn [for_each]. unfold bind at 1. unfold on_worker at 1.
    assert (Hk : (k < length (workers rg))%nat) by (apply Hl; now left).
    destruct (nth_error (workers rg) k) as [w|] eqn:Hw;
      [|apply nth_error_None in Hw; lia].
    set (t := mkThread (shared_rdr rg) (shared_oem rg) (clock rg) w).
    destruct (thread_epilogue_on_error t Hc) as (t' & Hfin & Hz & Ho & Hp).
    destruct (thread_epilogue t) as [[] t1|e t1|] eqn:Ht;
      cbn [final_state] in Hfin; try discriminate;
      apply Some_inj in Hfin; subst t1.
    + specialize (IH (leave_thread k t' rg)).
      cbn [leave_thread shared_oem workers] in IH.
      rewrite replace_nth_length in IH.
      specialize (IH ltac:(rewrite Ho; exact Hc)
                     ltac:(intros j Hj; apply Hl; now right)).
      destruct (for_each l _ (leave_thread k t' rg)) as [[] rg'|e rg'|];
        auto.
      * destruct IH as (Hc' & Hp' & Hlen & Hall).
        split; [exact Hc'|]. split; [rewrite Hp'; exact Hp|].
        split; [exact Hlen|].
        intros j w' Hj Hcase. apply (Hall j w' Hj).
        destruct Hcase as [[<-|Hin]|(w0 & Hw0 & Hz0)].
        -- right. exists (me t'). split; [|exact Hz].
           rewrite nth_error_replace_nth, Nat.eqb_refl.
           apply Nat.ltb_lt in Hk. now rewrite Hk.
        -- now left.
        -- right. rewrite nth_error_replace_nth.
           destruct (Nat.eqb_spec j k) as [->|Hne].
           ++ exists (me t'). apply Nat.ltb_lt in Hk. rewrite Hk. auto.
           ++ exists w0. auto.
      * rewrite IH. exact Hp.
    + exact Hp.
Qed.

(** C5.  On the error path of [read_all]: when an exception has been
    captured by the end of the loop, every thread of the team resets
    [used_nrows] to zero and makes no final [push_buffers]: the journal
    records no push beyond those made before. *)
Theorem error_path_discards_buffers (rg : Region P) :
  oem_exception_caught (shared_oem rg) = true ->
  length (workers rg) = team ->
  match for_each (seq 0 team) (fun k => on_worker k thread_epilogue) rg with
  | Ret _ rg' =>
      Forall (fun w => used_nrows (tctx w) = 0) (workers rg') /\
      region_pushes rg' = region_pushes rg
  | Throw _ rg' => region_pushes rg' = region_pushes rg
  | Undefined => False
  end.
Proof.
  intros Hc Hlen.
  pose proof (epilogues_on_error (seq 0 team) rg Hc) as H.
  specialize (H ltac:(intros k Hk; apply in_seq in Hk; lia)).
  destruct (for_each _ _ rg) as [[] rg'|e rg'|]; auto.
  destruct H as (_ & Hp & Hl & Hall). split; [|exact Hp].
  apply Forall_forall. intros w Hw.
  apply In_nth_error in Hw as [k Hk].
  apply (Hall k w Hk). left. apply in_seq.
  assert (k < length (workers rg'))%nat
    by (apply nth_error_Some; congruence).
  lia.
Qed.

End ErrorPath.

(* ------------------------------------------------------------------ *)
(** ** The flags of a worker *)

Section WorkerFrames.

Context {P : Type} {ops : ParseContextOps P} {host : Host}.
Variable W : Worker P -> Prop.
Hypothesis Wf : flags_only W.

Lemma me_on_reader {A} (m : M ChunkedDataReader A) :
  hoare (lift_me W) (on_reader m) (lift_me W).
Proof.
  intros t Ht. unfold on_reader, zoom. destruct (m (rdr t)); cbn; auto.
Qed.

Lemma me_set_rdr (f : Thread P -> ChunkedDataReader) :
  hoare (lift_me W) (modify (fun t => set_rdr (f t) t)) (lift_me W).
Proof. apply hoare_modify. auto. Qed.



Lemma me_ctx_read_chunk : hoare (lift_me W) ctx_read_chunk (lift_me W).
Proof.
  destruct Wf as (Wc & Wx & Wa).
  unfold ctx_read_chunk. apply hoare_get_bind'. intros t.
  apply hoare_seq; [apply me_on_reader|]. intros _.
  destruct (read_chunk _ _ _) as [[res acc] ctx].
  apply hoare_seq.
  { apply hoare_modify. intros s Hs. apply Wa, Wc, Hs. }
  intros _. destruct res; hoare_auto.
Qed.

Lemma me_ctx_push_buffers : hoare (lift_me W) ctx_push_buffers (lift_me W).
Proof.
  destruct Wf as (Wc & Wx & Wa).
  unfold ctx_push_buffers. apply hoare_get_bind'. intros t.
  apply hoare_seq; [apply me_on_reader|]. intros _.
  destruct (push_buffers _) as [res ctx].
  apply hoare_seq.
  { apply hoare_modify. intros s Hs. apply Wc, Hs. }
  intros _. destruct res; hoare_auto.
Qed.

Lemma me_ctx_orderBuffer : hoare (lift_me W) ctx_orderBuffer (lift_me W).
Proof.
  destruct Wf as (Wc & Wx & Wa).
  unfold ctx_orderBuffer. apply hoare_get_bind'. intros t.
  apply hoare_seq; [apply me_on_reader|]. intros _.
  destruct (orderBuffer _) as [res ctx].
  apply hoare_seq.
  { apply hoare_modify. intros s Hs. apply Wc, Hs. }
  intros _. destruct res; hoare_auto.
Qed.

Lemma me_order_chunk_loop n :
  hoare (lift_me W) (order_chunk_loop n) (lift_me W).
Proof.
  destruct Wf as (Wc & Wx & Wa).
  induction n as [|i IH]; [apply hoare_ret|].
  cbn [order_chunk_loop]. apply hoare_get_bind'. intros t.
  apply hoare_if; [apply me_set_rdr|].
  apply hoare_seq.
  { apply hoare_modify. intros s Hs. apply Wx, Hs. }
  intros _. apply hoare_seq; [apply me_ctx_read_chunk|]. intros _.
  apply hoare_seq; [apply hoare_xassert|]. intros _. exact IH.
Qed.

Lemma me_commit_phase i : hoare (lift_me W) (commit_phase i) (lift_me W).
Proof.
  destruct Wf as (Wc & Wx & Wa).
  unfold commit_phase.
  apply hoare_seq.
  { apply hoare_modify. intros s Hs. apply Wc, Hs. }
  intros _. apply hoare_seq; [apply me_order_chunk_loop|]. intros _.
  apply hoare_get_bind'. intros t.
  apply hoare_seq.
  { repeat apply hoare_if.
    - apply hoare_seq; [|intros; apply hoare_ret].
      apply hoare_modify. intros s Hs. apply Wc, Hs.
    - apply hoare_seq; [apply me_on_reader | intros; apply hoare_ret].
    - apply hoare_ret. }
  intros n. apply hoare_seq; [apply me_set_rdr|]. intros _.
  apply me_ctx_orderBuffer.
Qed.

(** The part of the parse phase that follows the progress report. *)
Lemma me_parse_phase_rest i :
  hoare (lift_me W)
    (bind ctx_push_buffers (fun _ =>
     bind get (fun t =>
     bind (on_reader (compute_chunk_boundaries i (tctx (me t)))) (fun c =>
     bind (modify (fun t => set_me (set_txcc c (me t)) t)) (fun _ =>
     ctx_read_chunk)))))
    (lift_me W).
Proof.
  destruct Wf as (Wc & Wx & Wa).
  apply hoare_seq; [apply me_ctx_push_buffers|]. intros _.
  apply hoare_get_bind'. intros t'.
  apply hoare_seq; [apply me_on_reader|]. intros c.
  apply hoare_seq.
  { apply hoare_modify. intros s Hs. apply Wx, Hs. }
  intros _. apply me_ctx_read_chunk.
Qed.

End WorkerFrames.

Section Flags.

Context {P : Type} {ops : ParseContextOps P} {host : Host}.




Lemma init_worker_flags (b : bool) (t : Thread P) :
  exists t',
    init_worker b t = Ret tt t' /\
    rdr t' = rdr t /\
    tMaster (me t') = b /\
    tShowProgress (me t') = report_progress (g (rdr t)) && b /\
    tShowAlways (me t') =
      tShowProgress (me t')
      && (inputEnd (rdr t) - inputStart (rdr t) >? 2 ^ 28).
Proof.
  unfold init_worker, bind at 1, get at 1.
  destruct (report_progress (g (rdr t)) && b) eqn:Hsp.
  - unfold read_wallclock, bind, get, modify, ret.
    eexists. split; [reflexivity|]. cbn. auto.
  - unfold bind, modify, ret.
    eexists. split; [reflexivity|]. cbn. auto.
Qed.


End Flags.

(* ------------------------------------------------------------------ *)
(** ** The scenarios *)

(** The scenarios are states that the code reaches. *)
Lemma capped_reader_constructed :
  new_reader capped_g Double.one = Ret tt capped_reader.
Proof. vm_compute. reflexivity. Qed.

Lemma two_chunk_reader_constructed :
  new_reader two_chunk_g Double.one = Ret tt two_chunk_reader.
Proof. vm_compute. reflexivity. Qed.

Lemma lone_thread_initialised :
  @init_worker unit (exact_parser 100) (still_host 1) true
    (mkThread capped_reader None 0 (@blank_worker unit (exact_parser 100)))
  = Ret tt (lone_thread capped_reader).
Proof. vm_compute. reflexivity. Qed.

(** ** The planner on S1 and S2 *)

Lemma planner_computes_strategy_witness :
  exists r',
    determine_chunking_strategy reader_S2 = Ret tt r' /\
    chunkCount r' = 4 /\ nthreads r' = 4 /\ chunkSize r' = 2 ^ 18.
Proof.
  destruct (planner_computes_strategy reader_S2 50000) as (r' & E & _ & H & C).
  - vm_compute. split; [discriminate | reflexivity].
  - vm_compute. reflexivity.
  - vm_compute. reflexivity.
  - vm_compute. split; [discriminate | reflexivity].
  - exists r'. split; [exact E|].
    destruct H as [Hn Hc]; [vm_compute; discriminate|].
    rewrite C, Hc, Hn. repeat split.
Defined.

Lemma planner_idempotent_witness :
  exists r1 r2,
    determine_chunking_strategy reader_S1 = Ret tt r1 /\
    determine_chunking_strategy r1 = Ret tt r2 /\
    chunkSize r2 = chunkSize r1 /\
    chunkCount r2 = chunkCount r1 /\
    nthreads r2 = nthreads r1.
Proof.
  apply (planner_idempotent reader_S1 10000).
  - vm_compute. split; [discriminate | reflexivity].
  - vm_compute. reflexivity.
  - vm_compute. reflexivity.
  - vm_compute. split; [discriminate | reflexivity].
Defined.


(** ** The reconciler with a parser that never converges *)

(** C2, as stated, fails: when the second attempt is not accepted either,
    [read_chunk] has been called a second time before [order_chunk] fails
    with [InternalInvariantError]. *)
Lemma order_chunk_calls_read_chunk_twice :
  exists t1 t',
    @parse_phase unit stubborn_parser (still_host 1) 0
      (lone_thread capped_reader) = Ret tt t1 /\
    @order_chunk unit stubborn_parser t1 = Throw InternalInvariantError t' /\
    accepts (tacc (me t1)) (lastChunkEnd (rdr t1)) = false /\
    calls t' = (calls t1 + 2)%nat.
Proof.
  eexists. eexists. split; [vm_compute; reflexivity|].
  split; [vm_compute; reflexivity|]. split; reflexivity.
Qed.

(** ** The allocator *)

Lemma realloc_sizing_witness :
  exists r',
    final_state
      (@realloc_output_columns (still_host 1) 3 1001 growing_reader)
    = Some r' /\
    nrows_allocated r' = 2402.
Proof.
  apply (@realloc_sizing (still_host 1) growing_reader 3 1001).
  - vm_compute. reflexivity.
  - vm_compute. split; [discriminate | reflexivity].
Defined.

(** C4, as stated, fails: for the request [(3, 1001)] with 8 chunks the
    projection is 2402.4; the code allocates 2402 rows, the documented
    policy (rounding up) asks for 2403. *)
Lemma realloc_truncates_projection :
  exists r',
    @realloc_output_columns (still_host 1) 3 1001 growing_reader
    = Ret tt r' /\
    1001 > nrows_allocated growing_reader /\
    nrows_allocated r' = 2402 /\
    documented_new_alloc growing_reader 3 1001 = 2403.
Proof.
  eexists. split; [vm_compute; reflexivity|].
  split; [reflexivity|]. split; reflexivity.
Qed.

(** ** The row cap *)

(** C1: the capacity discipline is broken by a chunk that commits more
    rows than [nrows_max] while [nrows_allocated < nrows_max].  With a cap
    of 10 rows, nothing allocated, and a single chunk of 100 rows, the
    allocator clamps [nrows_allocated] to 10 but the commit phase writes
    [nrows_written = 100]; the whole run then pushes the 100 rows and
    resizes the table to 100 rows. *)
Theorem capacity_discipline_broken :
  exists t' r',
    @chunk_iteration unit (exact_parser 100) (still_host 1) 0
      (lone_thread capped_reader) = Ret tt t' /\
    oem t' = None /\
    nrows_written (rdr t') = 100 /\
    nrows_allocated (rdr t') = 10 /\
    nrows_max (rdr t') = 10 /\
    @read_all unit (exact_parser 100) (still_host 1) capped_reader
    = Ret tt r' /\
    nrows_written r' = 100 /\
    pushes (journal (g r')) = [PushBuffers 0 0; PushBuffers 0 100] /\
    columns (g r') = 100.
Proof.
  eexists. eexists. split; [vm_compute; reflexivity|].
  do 4 (split; [reflexivity|]).
  split; [vm_compute; reflexivity|].
  repeat split.
Qed.

(** ** Progress *)


(** ** Chunks that do not advance *)

(** C7, as stated, fails: when the first of two chunks has consumed the
    input to its end, the second one is committed with
    [actual.start = actual.end = lastChunkEnd], and [lastChunkEnd] stays
    where it was. *)
Lemma lastChunkEnd_not_strictly_monotone :
  exists rg1 rg2,
    @on_worker unit unit 0
      (@chunk_iteration unit (greedy_parser (2 ^ 19)) (still_host 1) 0)
      (lone_region two_chunk_reader) = Ret tt rg1 /\
    @on_worker unit unit 0
      (@chunk_iteration unit (greedy_parser (2 ^ 19)) (still_host 1) 1)
      rg1 = Ret tt rg2 /\
    shared_oem rg2 = None /\
    nrows_written (shared_rdr rg1) = 1 /\
    lastChunkEnd (shared_rdr rg1) = 2 ^ 19 /\
    lastChunkEnd (shared_rdr rg2) = 2 ^ 19 /\
    ~ lastChunkEnd (shared_rdr rg1) < lastChunkEnd (shared_rdr rg2).
Proof.
  eexists. eexists. split; [vm_compute; reflexivity|].
  split; [vm_compute; reflexivity|].
  do 4 (split; [reflexivity|]).
  vm_compute. discriminate.
Qed.

(** ** The error path and the allocation counter *)

Lemma error_path_discards_buffers_witness :
  match
    for_each (seq 0 (@team (still_host 2)))
      (fun k => on_worker k
                  (@thread_epilogue unit (exact_parser 7) (still_host 2)))
      (mkRegion capped_reader (Some ParseError) 1
         [mkWorker true true false Double.d0_75 (mkCtx 0 7 tt) cc_null
            cc_null;
          mkWorker false false false Double.zero (mkCtx 7 7 tt) cc_null
            cc_null])
  with
  | Ret _ rg' =>
      Forall (fun w => used_nrows (tctx w) = 0) (workers rg') /\
      region_pushes rg' = []
  | Throw _ rg' => region_pushes rg' = []
  | Undefined => False
  end.
Proof.
  apply (@error_path_discards_buffers unit (exact_parser 7) (still_host 2)).
  - reflexivity.
  - reflexivity.
Defined.

Lemma nrows_allocated_never_decreases_witness :
  (exists r',
     final_state
       (@realloc_output_columns (still_host 1) 3 1001 growing_reader)
     = Some r' /\
     1000 < nrows_allocated r' <= nrows_max r') /\
  post
    (@chunk_iteration unit (exact_parser 300) (still_host 1) 1
       (lone_thread growing_reader))
    (fun t' =>
       1000 <= nrows_allocated (rdr t') <= nrows_max (rdr t')).
Proof.
  assert (H1 : 0 <= nrows_allocated growing_reader
               <= nrows_max growing_reader)
    by (vm_compute; split; discriminate).
  assert (H2 : 0 <= chunkCount growing_reader < 2 ^ 64)
    by (vm_compute; split; [discriminate | reflexivity]).
  assert (H3 : 0 <= 1 < chunkCount growing_reader)
    by (vm_compute; split; [discriminate | reflexivity]).
  assert (H4 : 0 <= 3 < chunkCount growing_reader)
    by (vm_compute; split; [discriminate | reflexivity]).
  assert (H5 : nrows_allocated growing_reader < 1001 < 2 ^ 64)
    by (vm_compute; split; reflexivity).
  assert (H6 : nrows_allocated growing_reader < nrows_max growing_reader)
    by reflexivity.
  assert (H7 : 3 = chunkCount growing_reader - 1 \/
               1001 * chunkCount growing_reader <= 2 ^ 63 * (3 + 1))
    by (right; vm_compute; discriminate).
  pose proof (@nrows_allocated_never_decreases unit (exact_parser 300)
                (still_host 1) growing_reader H1 H2) as T.
  split.
  - exact (proj2 (proj1 T 3 1001 H4 H5 H6) H7).
  - exact (proj1 (proj2 T) 1 (lone_thread growing_reader) eq_refl H3).
Defined.

(* ------------------------------------------------------------------ *)
(** * Further properties of the driver *)

(** ** The plan that the planner leaves *)

(** The planner on the inputs it is meant for: it returns, with at least
    one thread, never more threads than before, and a chunk count that is a
    multiple of the number of threads. *)
Lemma planner_plan (r : ChunkedDataReader) (size1000 : Z) :
  0 <= inputEnd r - inputStart r < 2 ^ 64 ->
  Double.to_size_t (Double.mul (Double.of_Z 1000) (lineLength r))
    = Some size1000 ->
  1 <= nthreads r < 2 ^ 31 ->
  exists r',
    determine_chunking_strategy r = Ret tt r' /\
    1 <= nthreads r' <= nthreads r /\
    nthreads r' <= chunkCount r' < 2 ^ 47 /\
    chunkCount r' mod nthreads r' = 0.

Proof.
  intros Hin Hconv Hth.
  pose proof (planner_result r size1000 Hin Hconv Hth) as E. cbv zeta in E.
  pose proof (double_to_size_t_range _ _ Hconv) as Hs.
  set (inputSize := inputEnd r - inputStart r) in *.
  set (c0 := Z.max (inputSize / Z.max size1000 (2 ^ 18)) 1) in *.
  assert (Hq : 0 <= inputSize / Z.max size1000 (2 ^ 18) < 2 ^ 46).
  { split; [apply Z.div_pos; lia|].
    apply Z.div_lt_upper_bound; [lia|]. nia. }
  assert (Hc0 : 1 <= c0 < 2 ^ 46) by (unfold c0; lia).
  destruct (c0 >? nthreads r) eqn:Hgt.
  - apply Z.gtb_lt in Hgt. eexists. split; [exact E|].
    cbn [nthreads chunkCount set_chunkSize set_chunkCount].
    assert (Hd : 0 <= (c0 - 1) / nthreads r) by (apply Z.div_pos; lia).
    pose proof (Z.mul_div_le (c0 - 1) (nthreads r) ltac:(lia)) as Hle.
    split; [lia|]. split; [nia|].
    rewrite Z.mul_comm. apply Z.mod_mul. lia.
  - assert (Hle : c0 <= nthreads r).
    { destruct (Z.gtb_spec c0 (nthreads r)); [discriminate|lia]. }
    eexists. split; [exact E|].
    cbn [nthreads chunkCount set_chunkSize set_chunkCount set_nthreads set_g].
    split; [lia|]. split; [lia|]. apply Z.mod_same. lia.
Qed.

(** The planner never plans more threads than it was given, nor more
    threads than chunks, and gives every thread the same number of chunks:
    on an input of [input_size >= 0] bytes, with a mean line length whose
    thousandfold is a [size_t] and [nthreads >= 1], it returns with
    [1 <= nthreads' <= nthreads], [nthreads' <= chunkCount'] and
    [chunkCount'] a multiple of [nthreads']. *)
Theorem planner_threads_divide_chunks
  (r : ChunkedDataReader) (size1000 : Z) :
  0 <= inputEnd r - inputStart r < 2 ^ 64 ->
  Double.to_size_t (Double.mul (Double.of_Z 1000) (lineLength r))
    = Some size1000 ->
  1 <= nthreads r < 2 ^ 31 ->
  exists r',
    determine_chunking_strategy r = Ret tt r' /\
    1 <= nthreads r' <= nthreads r /\
    nthreads r' <= chunkCount r' /\
    chunkCount r' mod nthreads r' = 0.
Proof.
  intros Hin Hconv Hth.
  destruct (planner_plan r size1000 Hin Hconv Hth) as (r' & E & H1 & H2 & H3).
  exists r'. repeat split; try assumption; lia.
Qed.

(** The chunks of the plan fit in the input, and all but fewer than
    [chunkCount] bytes of it are covered by [chunkCount] chunks of
    [chunkSize] bytes.  When the input is smaller than the target size
    [max(size1000, 2^18)] there is one chunk, the whole input, for one
    thread; otherwise the chunk size is at least half the target size and
    less than twice the target size. *)

Theorem planner_chunk_size_bounds (r : ChunkedDataReader) (size1000 : Z) :
  0 <= inputEnd r - inputStart r < 2 ^ 64 ->
  Double.to_size_t (Double.mul (Double.of_Z 1000) (lineLength r))
    = Some size1000 ->
  1 <= nthreads r < 2 ^ 31 ->
  let input_size := inputEnd r - inputStart r in
  let target := Z.max size1000 (2 ^ 18) in
  exists r',
    determine_chunking_strategy r = Ret tt r' /\
    chunkSize r' * chunkCount r' <= input_size
      < (chunkSize r' + 1) * chunkCount r' /\
    if input_size <? target then
      chunkCount r' = 1 /\ chunkSize r' = input_size /\ nthreads r' = 1
    else target / 2 <= chunkSize r' < 2 * target.
Proof.
  intros Hin Hconv Hth input_size target.
  pose proof (planner_result r size1000 Hin Hconv Hth) as E. cbv zeta in E.
  pose proof (double_to_size_t_range _ _ Hconv) as Hs.
  fold input_size target in E.
  set (c0 := Z.max (input_size / target) 1) in *.
  assert (Ht : 2 ^ 18 <= target < 2 ^ 64) by (unfold target; lia).
  assert (Hq : 0 <= input_size / target) by (apply Z.div_pos; lia).
  pose proof (Z.mul_div_le input_size target ltac:(lia)) as Hlo.
  pose proof (Z.mul_succ_div_gt input_size target ltac:(lia)) as Hhi.
  assert (Hfloor : forall c, 0 < c ->
            input_size / c * c <= input_size < (input_size / c + 1) * c).
  { intros c Hc. pose proof (Z.mul_div_le input_size c Hc).
    pose proof (Z.mul_succ_div_gt input_size c Hc). lia. }
  assert (Hhalf : 2 * (target / 2) <= target)
    by (apply Z.mul_div_le; lia).
  destruct (c0 >? nthreads r) eqn:Hgt.
  - apply Z.gtb_lt in Hgt. eexists. split; [exact E|].
    cbn [nthreads chunkCount chunkSize set_chunkSize set_chunkCount].
    set (n := nthreads r * (1 + (c0 - 1) / nthreads r)).
    assert (Hd : 0 <= (c0 - 1) / nthreads r) by (apply Z.div_pos; lia).
    pose proof (Z.mul_div_le (c0 - 1) (nthreads r) ltac:(lia)) as Hle.
    pose proof (Z.mul_succ_div_gt (c0 - 1) (nthreads r) ltac:(lia)) as Hge.
    assert (Hn : c0 <= n <= 2 * c0 - 2) by (unfold n; lia).
    split; [apply Hfloor; lia|].
    assert (Hc0 : c0 = input_size / target) by (unfold c0 in *; lia).
    destruct (Z.ltb_spec input_size target) as [Hlt|Hge'].
    + rewrite Z.div_small in Hc0 by lia. lia.
    + split.
      * apply Z.div_le_lower_bound; [lia|]. nia.
      * apply Z.div_lt_upper_bound; [lia|]. nia.
  - assert (Hle : c0 <= nthreads r).
    { destruct (Z.gtb_spec c0 (nthreads r)); [discriminate|lia]. }
    eexists. split; [exact E|].
    cbn [nthreads chunkCount chunkSize set_chunkSize set_chunkCount
           set_nthreads set_g].
    split; [apply Hfloor; unfold c0; lia|].
    destruct (Z.ltb_spec input_size target) as [Hlt|Hge'].
    + assert (Hc0 : c0 = 1) by (unfold c0; rewrite Z.div_small by lia; lia).
      rewrite Hc0, Z.div_1_r. auto.
    + assert (Hc0 : c0 = input_size / target /\ 1 <= c0).
      { assert (1 <= input_size / target)
          by (apply Z.div_le_lower_bound; lia).
        unfold c0. lia. }
      destruct Hc0 as [Hc0 Hc1]. split.
      * apply Z.div_le_lower_bound; [lia|]. nia.
      * apply Z.div_lt_upper_bound; [lia|]. nia.
Qed.

(** ** The planner returns *)

(** A valid double above the subnormal range has a mantissa of 53 bits. *)
Lemma valid_normal (s : bool) (m : positive) (e : Z) :
  valid_binary 53 1024 (S754_finite s m e) = true -> -1074 < e ->
  canonical m.
Proof.
  cbn [valid_binary]. unfold bounded, canonical_mantissa, fexp, emin.
  intros H He. apply andb_prop in H as [H _]. apply Z.eqb_eq in H.
  pose proof (digits2_pos_spec m) as Hd.
  assert (E : Z.pos (digits2_pos m) = 53) by lia.
  rewrite E in Hd. exact Hd.
Qed.

(** The thousandfold of a double in [1, 2^53) is a [size_t]. *)
Lemma mul_1000_defined (m : positive) (e : Z) :
  canonical m -> -52 <= e <= 0 ->
  exists t,
    Double.to_size_t (Double.mul (Double.of_Z 1000) (S754_finite false m e))
    = Some t.
Proof.
  intros Hc He.
  replace (Double.of_Z 1000) with (S754_finite false 8796093022208000 (-43))
    by (vm_compute; reflexivity).
  unfold Double.mul, SFmul, Double.prec, Double.emax. cbn [xorb].
  set (p := (8796093022208000 * m)%positive).
  assert (Hp : Z.pos p = 8796093022208000 * Z.pos m) by reflexivity.
  unfold canonical in Hc.
  assert (Hplo : 2 ^ 104 <= Z.pos p) by (rewrite Hp; lia).
  assert (Hphi : Z.pos p < 2 ^ 106) by (rewrite Hp; lia).
  assert (HD : Z.pos (digits2_pos p) = 105 \/ Z.pos (digits2_pos p) = 106).
  { destruct (Z.ltb_spec (Z.pos p) (2 ^ 105)); [left|right];
      apply digits2_pos_unique; lia. }
  assert (Hfin : forall m' e', canonical m' -> -52 <= e' <= 11 ->
            exists t, Double.to_size_t (S754_finite false m' e') = Some t).
  { intros m' e' Hm' He'. unfold Double.to_size_t, Double.truncate.
    unfold canonical in Hm'.
    destruct (Z.leb_spec 0 e') as [H0|H0].
    - rewrite Z.shiftl_mul_pow2 by lia.
      assert (1 <= 2 ^ e' <= 2 ^ 11).
      { split; [apply (Z.pow_le_mono_r 2 0 e'); lia
               | apply Z.pow_le_mono_r; lia]. }
      assert (Hr : 0 <= Z.pos m' * 2 ^ e' < size_modulus).
      { unfold size_modulus. change (2 ^ 64) with (2 ^ 53 * 2 ^ 11). nia. }
      destruct (Z.leb_spec 0 (Z.pos m' * 2 ^ e')); [|lia].
      destruct (Z.ltb_spec (Z.pos m' * 2 ^ e') size_modulus); [|lia].
      eexists. reflexivity.
    - rewrite Z.shiftr_div_pow2 by lia.
      assert (0 < 2 ^ (- e')) by (apply Z.pow_pos_nonneg; lia).
      assert (Hr : 0 <= Z.pos m' / 2 ^ (- e') < size_modulus).
      { split; [apply Z.div_pos; lia|].
        apply Z.div_lt_upper_bound; [lia|]. unfold size_modulus. nia. }
      destruct (Z.leb_spec 0 (Z.pos m' / 2 ^ (- e'))); [|lia].
      destruct (Z.ltb_spec (Z.pos m' / 2 ^ (- e')) size_modulus); [|lia].
      eexists. reflexivity. }
  destruct (binary_round_aux_spec p (-43 + e) loc_Exact)
    as (m' & [(E & Hm & Hcm)|(E & Hm & Hq)]); try lia.
  - rewrite E. apply Hfin; [exact Hcm | lia].
  - rewrite E. apply Hfin; [unfold canonical; lia | lia].
Qed.

(** A mean line length below [2^53], clamped from below at [1.0]. *)
Lemma clamped_line_length (x : Double.double) :
  valid_binary 53 1024 x = true ->
  Double.ltb x (Double.of_Z (2 ^ 53)) = true ->
  exists m e,
    Double.std_max x Double.one = S754_finite false m e /\
    canonical m /\ -52 <= e <= 0.
Proof.
  intros Hv Hlt.
  assert (Hone : exists m e,
            Double.one = S754_finite false m e /\ canonical m /\
            -52 <= e <= 0).
  { eexists _, _. split; [reflexivity|]. unfold canonical. lia. }
  unfold Double.std_max. destruct (Double.ltb x Double.one) eqn:H1;
    [exact Hone|].
  replace (Double.of_Z (2 ^ 53))
    with (S754_finite false 4503599627370496 1) in Hlt
    by (vm_compute; reflexivity).
  destruct x as [s|s| |s m e]; try discriminate.
  - destruct s; discriminate.
  - unfold Double.ltb, SFltb, Double.one in *. cbn [SFcompare] in *.
    destruct s; [discriminate|].
    destruct (Z.compare_spec e (-52)) as [E|L|G]; try discriminate.
    + exists m, e. split; [reflexivity|].
      split; [apply (valid_normal false m e Hv); lia | lia].
    + destruct (Z.compare_spec e 1) as [E1|L1|G1]; try discriminate.
      * exfalso. pose proof (valid_normal false m e Hv ltac:(lia)) as Hc.
        unfold canonical in Hc.
        destruct (PosDef.Pos.compare_cont Eq m 4503599627370496) eqn:C;
          try discriminate.
        apply (proj1 (Pos.compare_lt_iff _ _)) in C.
        apply Pos2Z.pos_lt_pos in C. clear - C Hc. lia.
      * exists m, e. split; [reflexivity|].
        split; [apply (valid_normal false m e Hv); lia | lia].
Qed.

Lemma ge_one_clamped (x : Double.double) :
  Double.leb Double.one x = true -> Double.std_max x Double.one = x.
Proof.
  unfold Double.std_max, Double.leb, Double.ltb, SFleb, SFltb, Double.one.
  destruct x as [s|s| |s m e]; cbn [SFcompare]; try destruct s;
    try discriminate; try reflexivity.
  rewrite (Z.compare_antisym e (-52)).
  destruct (Z.compare_spec e (-52)); cbn [CompOpp]; try discriminate;
    try reflexivity.
  destruct (PosDef.Pos.compare_cont Eq m 4503599627370496) eqn:C;
    try reflexivity.
  apply (proj1 (Pos.compare_lt_iff _ _)) in C.
  destruct (PosDef.Pos.compare_cont Eq 4503599627370496 m) eqn:C';
    try discriminate.
  - apply Pos.compare_eq in C'. apply Pos2Z.pos_lt_pos in C.
    clear - C C'. subst m. lia.
  - apply (proj1 (Pos.compare_lt_iff _ _)) in C'.
    apply Pos2Z.pos_lt_pos in C, C'. clear - C C'. lia.
Qed.

(** The planner is defined on every sensible line length: for a mean
    line length that is a double in [1.0, 2^53), an input of
    [input_size >= 0] bytes and [nthreads >= 1], neither the conversion of
    [1000 * lineLength] to [size_t] nor a division is undefined, and the
    planner returns. *)

Theorem planner_returns (r : ChunkedDataReader) :
  valid_binary 53 1024 (lineLength r) = true ->
  Double.leb Double.one (lineLength r) = true ->
  Double.ltb (lineLength r) (Double.of_Z (2 ^ 53)) = true ->
  0 <= inputEnd r - inputStart r < 2 ^ 64 ->
  1 <= nthreads r < 2 ^ 31 ->
  exists r', determine_chunking_strategy r = Ret tt r'.
Proof.
  intros Hv Hge Hlt Hin Hth.
  destruct (clamped_line_length _ Hv Hlt) as (m & e & E & Hc & He).
  rewrite (ge_one_clamped _ Hge) in E.
  destruct (mul_1000_defined m e Hc He) as (t & Ht). rewrite <- E in Ht.
  pose proof (planner_result r t Hin Ht Hth) as R. cbv zeta in R.
  destruct (_ >? _) in R; eexists; exact R.
Qed.

(** ** The constructor *)

Lemma planner_keeps_counters (r r' : ChunkedDataReader) :
  determine_chunking_strategy r = Ret tt r' ->
  inputStart r' = inputStart r /\ inputEnd r' = inputEnd r /\
  lastChunkEnd r' = lastChunkEnd r /\
  nrows_written r' = nrows_written r /\
  nrows_allocated r' = nrows_allocated r /\
  nrows_max r' = nrows_max r /\
  columns (g r') = columns (g r).
Proof.
  unfold determine_chunking_strategy, trace, bind, get, defined, sz_div,
    modify, ret, undefined.
  intros H. repeat run_step; repeat split; reflexivity.
Qed.

(** The constructor.  When the column store already has more rows than
    [max_nrows], the assertion fails before the chunking is planned.
    Otherwise, for every mean line length that is a double below [2^53]
    (negative numbers, zero and minus infinity included), an input of at
    most [2^64 - 1] bytes and [1 <= nthreads < 2^31], the reader is
    constructed: it starts at the start of the input with no row written,
    [nrows_written = 0 <= nrows_allocated <= nrows_max], and a plan of at
    least one thread, at most the threads asked for, and at least as many
    chunks as threads. *)

Theorem constructor_establishes_invariants
  (reader : GenericReader) (meanLineLen : Double.double) :
  (max_nrows reader < columns reader ->
   exists r, new_reader reader meanLineLen = Throw InternalInvariantError r /\
             chunkCount r = 0) /\
  (columns reader <= max_nrows reader ->
   valid_binary 53 1024 meanLineLen = true ->
   Double.ltb meanLineLen (Double.of_Z (2 ^ 53)) = true ->
   0 <= eof reader - sof reader < 2 ^ 64 ->
   1 <= g_nthreads reader < 2 ^ 31 ->
   exists r,
     new_reader reader meanLineLen = Ret tt r /\
     inputStart r = sof reader /\ inputEnd r = eof reader /\
     lastChunkEnd r = sof reader /\
     nrows_written r = 0 /\
     nrows_allocated r = columns reader /\
     nrows_max r = max_nrows reader /\
     columns (g r) = columns reader /\
     1 <= nthreads r <= g_nthreads reader /\
     nthreads r <= chunkCount r).
Proof.
  unfold new_reader, bind, xassert. cbn [nrows_allocated nrows_max].
  split.
  - intros Hgt. destruct (Z.leb_spec (columns reader) (max_nrows reader));
      [lia|].
    eexists. split; reflexivity.
  - intros Hle Hv Hlt Hin Hth.
    destruct (Z.leb_spec (columns reader) (max_nrows reader)); [|lia].
    cbn [ret].
    destruct (clamped_line_length _ Hv Hlt) as (m & e & E & Hc & He).
    destruct (mul_1000_defined m e Hc He) as (t & Ht). rewrite <- E in Ht.
    match goal with |- exists r, determine_chunking_strategy ?r0 = _ /\ _ =>
      set (r1 := r0) end.
    destruct (planner_plan r1 t Hin Ht Hth)
      as (r' & R & Hn & Hcc & _).
    exists r'. split; [exact R|].
    destruct (planner_keeps_counters r1 r' R)
      as (H1 & H2 & H3 & H4 & H5 & H6 & H7).
    cbn in *. repeat split; lia.
Qed.


(** The clamp of the constructor does not stop a mean line length that is
    not a number, nor plus infinity: [std::max(NaN, 1.0)] is [NaN], and the
    conversion of [1000 * lineLength] to [size_t] in the planner is
    undefined for both. *)
Theorem constructor_undefined_on_nan (reader : GenericReader) :
  columns reader <= max_nrows reader ->
  new_reader reader S754_nan = Undefined /\
  new_reader reader (S754_infinity false) = Undefined.
Proof.
  intros Hle. unfold new_reader, bind, xassert.
  cbn [nrows_allocated nrows_max].
  destruct (Z.leb_spec (columns reader) (max_nrows reader)); [|lia].
  split; reflexivity.
Qed.

(** ** The boundaries of the chunks *)

Section Boundaries.

Context {P : Type} {ops : ParseContextOps P}.

(** The expected chunks of a reader with several threads tile the input.
    For a plan whose chunks fit in the input
    ([chunkSize * chunkCount <= inputEnd - inputStart]) and a parser that
    does not adjust the coordinates, chunk [i >= 1] starts at
    [inputStart + i * chunkSize], lies within the input, and is not marked
    as a true start; the last chunk ends at [inputEnd], marked as a true
    end; every other chunk ends where chunk [i + 1] starts. *)

Theorem chunk_boundaries_tile_input
  (r : ChunkedDataReader) (ctx : LocalParseContext P) (i : Z) :
  (forall c x, adjust_chunk_coordinates c x = c) ->
  0 <= chunkSize r ->
  1 <= chunkCount r < 2 ^ 64 ->
  chunkSize r * chunkCount r <= inputEnd r - inputStart r < 2 ^ 64 ->
  nthreads r <> 1 ->
  1 <= i < chunkCount r ->
  exists c,
    compute_chunk_boundaries i ctx r = Ret c r /\
    start c = inputStart r + i * chunkSize r /\
    inputStart r <= start c <= end_ c /\ end_ c <= inputEnd r /\
    true_start c = false /\
    if i =? chunkCount r - 1 then end_ c = inputEnd r /\ true_end c = true
    else
      true_end c = false /\
      exists c',
        compute_chunk_boundaries (i + 1) ctx r = Ret c' r /\
        start c' = end_ c.
Proof.
  intros Hadj Hs Hc Hfit Hn Hi.
  assert (Hmul : forall j, 0 <= j < chunkCount r ->
            sz_mul j (chunkSize r) = j * chunkSize r /\
            0 <= j * chunkSize r /\
            j * chunkSize r + chunkSize r <= inputEnd r - inputStart r).
  { intros j Hj.
    assert (0 <= j * chunkSize r) by nia.
    assert (j * chunkSize r + chunkSize r <= chunkSize r * chunkCount r)
      by nia.
    unfold sz_mul. rewrite to_size_t_id by lia. lia. }
  assert (Hrun : forall j, 1 <= j < chunkCount r ->
            compute_chunk_boundaries j ctx r =
            Ret (if j =? chunkCount r - 1
                 then mkCC (inputStart r + j * chunkSize r) (inputEnd r)
                        false true
                 else mkCC (inputStart r + j * chunkSize r)
                        (inputStart r + j * chunkSize r + chunkSize r)
                        false false) r).
  { intros j Hj. unfold compute_chunk_boundaries, bind, get, xassert.
    destruct (Z.ltb_spec j (chunkCount r)); [|lia]. cbn [ret].
    destruct (Z.eqb_spec (nthreads r) 1); [contradiction|].
    destruct (Z.eqb_spec j 0); [lia|]. cbn [orb].
    unfold sz_sub. rewrite (to_size_t_id (chunkCount r - 1)) by lia.
    destruct (Hmul j ltac:(lia)) as (-> & _).
    rewrite Hadj. destruct (j =? chunkCount r - 1); reflexivity. }
  destruct (Hmul i ltac:(lia)) as (_ & Hlo & Hhi).
  rewrite (Hrun i Hi).
  destruct (Z.eqb_spec i (chunkCount r - 1)) as [E|E].
  - eexists. split; [reflexivity|]. cbn [start end_ true_start true_end].
    repeat split; lia.
  - eexists. split; [reflexivity|]. cbn [start end_ true_start true_end].
    repeat split; try lia.
    rewrite (Hrun (i + 1)) by lia.
    eexists. split; [reflexivity|].
    destruct (i + 1 =? chunkCount r - 1); cbn [start]; lia.
Qed.

(** The first chunk, and every chunk of a reader with a single thread,
    starts where the last committed chunk ended, marked as a true start; it
    ends at [inputEnd] when it is the last one, and [chunkSize] bytes
    further otherwise.  An index that is not below [chunkCount] fails the
    assertion. *)

Theorem chunk_boundaries_sequential
  (r : ChunkedDataReader) (ctx : LocalParseContext P) (i : Z) :
  (forall c x, adjust_chunk_coordinates c x = c) ->
  1 <= chunkCount r < 2 ^ 64 ->
  (if i <? chunkCount r then
     nthreads r = 1 \/ i = 0 ->
     exists c,
       compute_chunk_boundaries i ctx r = Ret c r /\
       start c = lastChunkEnd r /\ true_start c = true /\
       if i =? chunkCount r - 1
       then end_ c = inputEnd r /\ true_end c = true
       else end_ c = lastChunkEnd r + chunkSize r /\ true_end c = false
   else
     compute_chunk_boundaries i ctx r = Throw InternalInvariantError r).
Proof.
  intros Hadj Hc. unfold compute_chunk_boundaries, bind, get, xassert.
  destruct (i <? chunkCount r); [|reflexivity].
  intros Hseq. cbn [ret].
  assert (E : (nthreads r =? 1) || (i =? 0) = true).
  { destruct Hseq as [-> | ->]; [reflexivity|]. apply orb_true_r. }
  rewrite E. unfold sz_sub. rewrite (to_size_t_id (chunkCount r - 1)) by lia.
  rewrite Hadj.
  destruct (i =? chunkCount r - 1); eexists; (split; [reflexivity|]);
    cbn; auto.
Qed.

End Boundaries.

(** ** The amount of work done *)

Lemma div_same (m : positive) (e : Z) :
  canonical m -> -200 <= e <= 200 ->
  Double.div (S754_finite false m e) (S754_finite false m e) = Double.one.
Proof.
  intros Hc He. unfold Double.div, SFdiv, SFdiv_core_binary.
  cbn [xorb Zdigits2]. rewrite (canonical_digits m Hc).
  unfold Double.prec, Double.emax.
  assert (Hf : Z.min (fexp 53 1024 (53 + e - (53 + e))) (e - e) = -53).
  { unfold fexp, emin. lia. }
  rewrite Hf. replace (e - e - -53) with 53 by lia.
  unfold canonical in Hc.
  rewrite Z.shiftl_mul_pow2 by lia.
  assert (Hq : Z.div_eucl (Z.pos m * 2 ^ 53) (Z.pos m) = (2 ^ 53, 0)).
  { pose proof (Z.div_eucl_eq (Z.pos m * 2 ^ 53) (Z.pos m) ltac:(lia)) as Heq.
    pose proof (Z.mod_pos_bound (Z.pos m * 2 ^ 53) (Z.pos m) ltac:(lia))
      as Hr.
    unfold Z.modulo in Hr.
    destruct (Z.div_eucl (Z.pos m * 2 ^ 53) (Z.pos m)) as [q r0].
    assert (q = 2 ^ 53) by nia. assert (r0 = 0) by nia. subst. reflexivity. }
  rewrite Hq.
  replace (new_location (Z.pos m) 0) with loc_Exact.
  - vm_compute. reflexivity.
  - unfold new_location, new_location_even, new_location_odd.
    destruct (Z.even (Z.pos m)); cbn; try reflexivity.
Qed.

Lemma of_Z_canonical (z : positive) :
  Z.pos z < 2 ^ 64 ->
  exists m e, Double.of_Z (Z.pos z) = S754_finite false m e /\
              canonical m /\ -52 <= e <= 12.
Proof.
  intros Hz. destruct (of_Z_spec z Hz) as (m & e & E & Hc & Hs).
  exists m, e. split; [exact E|]. split; [exact Hc|].
  pose proof (digits2_pos_spec z) as [Hlo Hhi].
  set (D := Z.pos (digits2_pos z)) in *.
  assert (1 <= D) by (unfold D; lia).
  assert (D <= 64).
  { destruct (Z.leb_spec D 64); [assumption|].
    assert (2 ^ 64 <= 2 ^ (D - 1)) by (apply Z.pow_le_mono_r; lia). lia. }
  cbv zeta in Hs. fold D in Hs. lia.
Qed.

(** [work_done_amount] at the ends of a run: nothing done is [0.0], all
    done is exactly [1.0]; on an empty input it is not a number. *)
Theorem work_done_amount_endpoints (r : ChunkedDataReader) :
  let size := inputEnd r - inputStart r in
  (0 < size < 2 ^ 64 ->
   (lastChunkEnd r = inputStart r -> work_done_amount r = Double.zero) /\
   (lastChunkEnd r = inputEnd r -> work_done_amount r = Double.one)) /\
  (size = 0 -> lastChunkEnd r = inputStart r ->
   work_done_amount r = S754_nan).
Proof.
  intros size. unfold work_done_amount. fold size. split.
  - intros Hs. destruct size as [|z|z] eqn:Ez; try lia.
    destruct (of_Z_canonical z ltac:(lia)) as (m & e & E & Hc & He).
    split; intros ->.
    + rewrite Z.sub_diag, E. reflexivity.
    + unfold size in Ez. rewrite Ez, E. apply div_same; [exact Hc | lia].
  - intros -> ->. rewrite Z.sub_diag. reflexivity.
Qed.
(** ** The reconciler, the exception manager and the end of a run *)

Section Run.

Context {P : Type} {ops : ParseContextOps P} {host : Host}.

Lemma order_chunk_loop_adjacent (n : nat) : forall (t t' : Thread P),
  order_chunk_loop (S n) t = Ret tt t' ->
  start (tacc (me t')) = lastChunkEnd (rdr t) /\
  lastChunkEnd (rdr t) <= end_ (tacc (me t')) /\
  lastChunkEnd (rdr t') = end_ (tacc (me t')).
Proof.
  induction n as [|n IH]; intros t t'; rewrite order_chunk_loop_step.
  - destruct (accepts (tacc (me t)) (lastChunkEnd (rdr t))) eqn:Hacc.
    + intros H. apply Ret_inj in H as [_ <-].
      unfold accepts in Hacc. apply andb_prop in Hacc as [Hs He].
      apply Z.eqb_eq in Hs. apply Z.geb_le in He. cbn. lia.
    + destruct (reparse t) as [[[]|e] t1]; cbn [Nat.eqb]; discriminate.
  - destruct (accepts (tacc (me t)) (lastChunkEnd (rdr t))) eqn:Hacc.
    + intros H. apply Ret_inj in H as [_ <-].
      unfold accepts in Hacc. apply andb_prop in Hacc as [Hs He].
      apply Z.eqb_eq in Hs. apply Z.geb_le in He. cbn. lia.
    + pose proof (reparse_facts t) as F. cbv zeta in F.
      destruct (reparse t) as [[[]|e] t1]; [|discriminate].
      cbn [snd] in F. destruct F as (_ & Hl & _).
      cbn [Nat.eqb]. intros H. apply IH in H. rewrite Hl in H. exact H.
Qed.

(** Committed chunks leave no gap and do not overlap: when [order_chunk]
    returns, the actual coordinates it accepted start exactly where the last
    committed chunk ended, do not end before that, and [lastChunkEnd] is now
    their end. *)
Theorem order_chunk_commits_adjacent (t t' : Thread P) :
  order_chunk t = Ret tt t' ->
  start (tacc (me t')) = lastChunkEnd (rdr t) /\
  lastChunkEnd (rdr t) <= end_ (tacc (me t')) /\
  lastChunkEnd (rdr t') = end_ (tacc (me t')).
Proof. apply order_chunk_loop_adjacent. Qed.

(** *** The exception manager *)

(** Only [capture_exception] writes the exception manager. *)

Section OemFrames.

Variable o : OmpExceptionManager.

Lemma oem_on_reader {A} (m : M ChunkedDataReader A) :
  hoare (lift_oem (P := P) o) (on_reader m) (lift_oem (P := P) o).
Proof.
  intros t Ht. unfold on_reader, zoom. destruct (m (rdr t)); cbn; auto.
Qed.

Lemma oem_set_me (f : Thread P -> Worker P) :
  hoare (lift_oem (P := P) o) (modify (fun t => set_me (f t) t)) (lift_oem (P := P) o).
Proof. apply hoare_modify. auto. Qed.

Lemma oem_set_rdr (f : Thread P -> ChunkedDataReader) :
  hoare (lift_oem (P := P) o) (modify (fun t => set_rdr (f t) t)) (lift_oem (P := P) o).
Proof. apply hoare_modify. auto. Qed.

Lemma oem_read_wallclock : hoare (lift_oem (P := P) o) read_wallclock (lift_oem (P := P) o).
Proof. unfold read_wallclock. hoare_auto. apply hoare_modify. auto. Qed.

Lemma oem_ctx_read_chunk : hoare (lift_oem (P := P) o) ctx_read_chunk (lift_oem (P := P) o).
Proof.
  unfold ctx_read_chunk. apply hoare_get_bind'. intros t.
  apply hoare_seq; [apply oem_on_reader|]. intros _.
  destruct (read_chunk _ _ _) as [[res acc] ctx].
  apply hoare_seq; [apply oem_set_me|]. intros _.
  destruct res; hoare_auto.
Qed.

Lemma oem_ctx_push_buffers :
  hoare (lift_oem (P := P) o) ctx_push_buffers (lift_oem (P := P) o).
Proof.
  unfold ctx_push_buffers. apply hoare_get_bind'. intros t.
  apply hoare_seq; [apply oem_on_reader|]. intros _.
  destruct (push_buffers _) as [res ctx].
  apply hoare_seq; [apply oem_set_me|]. intros _.
  destruct res; hoare_auto.
Qed.

Lemma oem_ctx_orderBuffer : hoare (lift_oem (P := P) o) ctx_orderBuffer (lift_oem (P := P) o).
Proof.
  unfold ctx_orderBuffer. apply hoare_get_bind'. intros t.
  apply hoare_seq; [apply oem_on_reader|]. intros _.
  destruct (orderBuffer _) as [res ctx].
  apply hoare_seq; [apply oem_set_me|]. intros _.
  destruct res; hoare_auto.
Qed.

Lemma oem_order_chunk_loop n :
  hoare (lift_oem (P := P) o) (order_chunk_loop n) (lift_oem (P := P) o).
Proof.
  induction n as [|i IH]; [apply hoare_ret|].
  cbn [order_chunk_loop]. apply hoare_get_bind'. intros t.
  apply hoare_if; [apply oem_set_rdr|].
  apply hoare_seq; [apply oem_set_me|]. intros _.
  apply hoare_seq; [apply oem_ctx_read_chunk|]. intros _.
  apply hoare_seq; [apply hoare_xassert|]. intros _. exact IH.
Qed.

Lemma oem_parse_phase i : hoare (lift_oem (P := P) o) (parse_phase i) (lift_oem (P := P) o).
Proof.
  unfold parse_phase. apply hoare_get_bind'. intros t.
  apply hoare_seq.
  { destruct (tShowAlways (me t)); [apply hoare_ret|].
    destruct (tShowProgress (me t)); [|apply hoare_ret].
    apply hoare_seq; [apply oem_read_wallclock|]. intros. apply hoare_ret. }
  intros show. apply hoare_seq.
  { destruct show; [|apply hoare_ret].
    apply hoare_seq; [apply oem_on_reader | intros; apply oem_set_me]. }
  intros _. apply hoare_seq; [apply oem_ctx_push_buffers|]. intros _.
  apply hoare_get_bind'. intros t'.
  apply hoare_seq; [apply oem_on_reader|]. intros c.
  apply hoare_seq; [apply oem_set_me|]. intros _.
  apply oem_ctx_read_chunk.
Qed.

Lemma oem_commit_phase i : hoare (lift_oem (P := P) o) (commit_phase i) (lift_oem (P := P) o).
Proof.
  unfold commit_phase.
  apply hoare_seq; [apply oem_set_me|]. intros _.
  apply hoare_seq; [apply oem_order_chunk_loop|]. intros _.
  apply hoare_get_bind'. intros t.
  apply hoare_seq.
  { repeat apply hoare_if.
    - apply hoare_seq; [apply oem_set_me | intros; apply hoare_ret].
    - apply hoare_seq; [apply oem_on_reader | intros; apply hoare_ret].
    - apply hoare_ret. }
  intros n. apply hoare_seq; [apply oem_set_rdr|]. intros _.
  apply oem_ctx_orderBuffer.
Qed.

End OemFrames.

(** An iteration of the loop, case by case. *)
Lemma chunk_iteration_eq (i : Z) (t : Thread P) :
  chunk_iteration i t =
  if oem_exception_caught (oem t) then Ret tt t
  else
    match parse_phase i t with
    | Throw e t1 => Ret tt (set_oem (Some e) t1)
    | Ret _ t1 =>
        match commit_phase i t1 with
        | Throw e t2 => Ret tt (set_oem (Some e) t2)
        | Ret _ t2 => Ret tt t2
        | Undefined => Undefined
        end
    | Undefined => Undefined
    end.
Proof.
  unfold chunk_iteration, bind at 1, exception_caught at 1, gets.
  destruct (oem t) as [e|] eqn:Ho; [reflexivity|].
  cbn [oem_exception_caught].
  pose proof (oem_parse_phase None i t Ho) as H1.
  unfold bind, exception_caught, gets, try_catch, capture_exception, modify.
  destruct (parse_phase i t) as [[] t1|e t1|]; cbn [post] in H1;
    unfold lift_oem in H1.
  - rewrite H1. cbn [oem_exception_caught].
    pose proof (oem_commit_phase None i t1 H1) as H2.
    destruct (commit_phase i t1) as [[] t2|e t2|]; cbn [post] in H2;
      unfold lift_oem in H2; try reflexivity.
    rewrite H2. reflexivity.
  - rewrite H1. reflexivity.
  - reflexivity.
Qed.

(** An iteration is its two blocks, unless it finds an exception
    captured. *)
Lemma chunk_iteration_blocks (i : Z) (t : Thread P) :
  chunk_iteration i t =
  if oem_exception_caught (oem t) then Ret tt t
  else (parse_block i ;; ordered_block i) t.
Proof.
  unfold chunk_iteration, bind at 1, exception_caught at 1, gets.
  destruct (oem_exception_caught (oem t)); reflexivity.
Qed.

Lemma parse_block_eq (i : Z) (t : Thread P) :
  parse_block i t =
  match parse_phase i t with
  | Ret _ t1 => Ret tt t1
  | Throw e t1 => Ret tt (set_oem (oem_capture_exception e (oem t)) t1)
  | Undefined => Undefined
  end.
Proof.
  unfold parse_block, try_catch, capture_exception, modify.
  pose proof (oem_parse_phase (oem t) i t eq_refl) as H.
  destruct (parse_phase i t) as [[] t1|e t1|]; cbn [post] in H;
    unfold lift_oem in H; try reflexivity.
  rewrite H. reflexivity.
Qed.

Lemma ordered_block_eq (i : Z) (t : Thread P) :
  ordered_block i t =
  if oem_exception_caught (oem t) then Ret tt t
  else
    match commit_phase i t with
    | Ret _ t2 => Ret tt t2
    | Throw e t2 => Ret tt (set_oem (Some e) t2)
    | Undefined => Undefined
    end.
Proof.
  unfold ordered_block, bind at 1, exception_caught at 1, gets.
  destruct (oem t) as [e|] eqn:Ho; [reflexivity|].
  cbn [oem_exception_caught].
  unfold try_catch, capture_exception, modify.
  pose proof (oem_commit_phase None i t Ho) as H.
  destruct (commit_phase i t) as [[] t2|e t2|]; cbn [post] in H;
    unfold lift_oem in H; try reflexivity.
  rewrite H. reflexivity.
Qed.

(** An iteration of the loop lets no exception out, from whatever state
    its blocks start.  Neither its parse block nor its ordered block
    throws.  An iteration that finds an exception captured does nothing, and
    so does an ordered block that finds one captured, whichever thread
    captured it.  An exception raised in the parse phase is captured: the
    exception manager then holds an exception (this one if it held none),
    so the ordered block that comes after is skipped.  An exception raised
    in the commit phase is captured.  A phase that returns leaves the
    exception manager as it was. *)
Theorem chunk_iteration_captures_exceptions (i : Z) (t : Thread P) :
  (never_throws (parse_block i t) /\ never_throws (ordered_block i t) /\
   never_throws (chunk_iteration i t)) /\
  (oem_exception_caught (oem t) = true ->
   chunk_iteration i t = Ret tt t /\ ordered_block i t = Ret tt t) /\
  match parse_phase i t with
  | Ret _ t1 => parse_block i t = Ret tt t1 /\ oem t1 = oem t
  | Throw e t1 =>
      exists t',
        parse_block i t = Ret tt t' /\
        oem_exception_caught (oem t') = true /\
        (oem t = None -> oem t' = Some e)
  | Undefined => parse_block i t = Undefined
  end /\
  (oem t = None ->
   match commit_phase i t with
   | Ret _ t2 => ordered_block i t = Ret tt t2 /\ oem t2 = None
   | Throw e t2 => ordered_block i t = Ret tt (set_oem (Some e) t2)
   | Undefined => ordered_block i t = Undefined
   end).
Proof.
  split; [|split; [|split]].
  - split; [|split].
    + rewrite parse_block_eq.
      destruct (parse_phase i t) as [[] t1|e t1|]; exact I.
    + rewrite ordered_block_eq.
      destruct (oem_exception_caught (oem t)); [exact I|].
      destruct (commit_phase i t) as [[] t2|e t2|]; exact I.
    + rewrite chunk_iteration_eq.
      destruct (oem_exception_caught (oem t)); [exact I|].
      destruct (parse_phase i t) as [[] t1|e t1|]; try exact I.
      destruct (commit_phase i t1) as [[] t2|e t2|]; exact I.
  - intros Hc. rewrite chunk_iteration_eq, ordered_block_eq, Hc.
    split; reflexivity.
  - rewrite parse_block_eq.
    pose proof (oem_parse_phase (oem t) i t eq_refl) as H.
    destruct (parse_phase i t) as [[] t1|e t1|]; cbn [post] in H;
      unfold lift_oem in H.
    + split; [reflexivity | exact H].
    + eexists. split; [reflexivity|].
      assert (Hc : oem_exception_caught
                     (oem (set_oem (oem_capture_exception e (oem t)) t1))
                   = true)
        by (cbn [oem set_oem]; destruct (oem t); reflexivity).
      split; [exact Hc|].
      intros Ho. cbn [oem set_oem]. rewrite Ho. reflexivity.
    + reflexivity.
  - intros Ho. rewrite ordered_block_eq, Ho. cbn [oem_exception_caught].
    pose proof (oem_commit_phase None i t Ho) as H.
    destruct (commit_phase i t) as [[] t2|e t2|]; cbn [post] in H;
      unfold lift_oem in H; try reflexivity.
    split; [reflexivity | exact H].
Qed.

Lemma replace_nth_same {A} (k : nat) (x : A) (l : list A) :
  nth_error l k = Some x -> replace_nth k x l = l.
Proof.
  revert k. induction l as [|y l IH]; intros [|k]; cbn; try discriminate.
  - intros H. apply Some_inj in H. now subst.
  - intros H. now rewrite IH.
Qed.

(** Once an exception has been captured, the remaining iterations of the
    loop, on whatever threads the schedule puts them, parse nothing, commit
    nothing and leave the whole state of the parallel region as it is. *)
Theorem loop_idle_after_exception (l : list nat) (rg : Region P) :
  oem_exception_caught (shared_oem rg) = true ->
  length (workers rg) = team ->
  for_each l
    (fun i => on_worker (Nat.modulo (schedule i) team)
                (chunk_iteration (Z.of_nat i))) rg
  = Ret tt rg.
Proof.
  intros Hc Hlen. induction l as [|i l IH]; [reflexivity|].
  cbn [for_each]. unfold bind at 1. unfold on_worker.
  assert (Hk : (Nat.modulo (schedule i) team < length (workers rg))%nat).
  { rewrite Hlen. apply Nat.mod_upper_bound. unfold team.
    pose proof (Pos2Nat.is_pos omp_get_num_threads). lia. }
  destruct (nth_error (workers rg) _) as [w|] eqn:Hw;
    [|apply nth_error_None in Hw; lia].
  unfold chunk_iteration, bind at 1, exception_caught, gets.
  cbn [oem]. rewrite Hc. cbn [ret].
  unfold leave_thread. cbn [rdr oem ticks me].
  rewrite (replace_nth_same _ _ _ Hw).
  destruct rg. exact IH.
Qed.

(** When [read_all] returns normally, the column store has been resized to
    exactly [nrows_written] rows, as the last thing the run did to the
    outside, and either the whole input was read
    ([lastChunkEnd = inputEnd]) or the row limit was reached
    ([nrows_written >= nrows_max]). *)
Theorem read_all_on_return (r r' : ChunkedDataReader) :
  read_all (P := P) r = Ret tt r' ->
  columns (g r') = nrows_written r' /\
  (nrows_written r' < nrows_max r' -> lastChunkEnd r' = inputEnd r') /\
  exists j, journal (g r') = j ++ [SetNrows (nrows_written r')].
Proof.
  unfold read_all.
  destruct (parallel_region _) as [[] rg|e rg|]; try discriminate.
  destruct (shared_oem rg); [discriminate|].
  unfold bind, get, columns_set_nrows.
  destruct (set_nrows_raises _); [discriminate|].
  unfold modify. cbn [nrows_written nrows_max set_g lastChunkEnd inputEnd].
  destruct (Z.ltb_spec (nrows_written (shared_rdr rg))
              (nrows_max (shared_rdr rg))) as [Hlt|Hge].
  - unfold xassert.
    destruct (Z.eqb_spec (lastChunkEnd (shared_rdr rg))
                (inputEnd (shared_rdr rg))) as [E|E]; [|discriminate].
    intros H. apply Ret_inj in H as [_ <-]. cbn.
    split; [reflexivity|]. split; [auto|]. eexists. reflexivity.
  - intros H. apply Ret_inj in H as [_ <-]. cbn.
    split; [reflexivity|]. split; [lia|]. eexists. reflexivity.
Qed.

End Run.

(** ** The row limit *)

Section Cap.

Context {P : Type} {ops : ParseContextOps P} {host : Host}.

Lemma commit_phase_at_cap (i : Z) :
  hoare (lift_rdr (P := P) at_cap) (commit_phase i) (lift_rdr at_cap).
Proof.
  assert (Qg : g_insensitive at_cap) by (intros r x Hr; exact Hr).
  assert (Ql : lce_insensitive at_cap) by (intros r x Hr; exact Hr).
  unfold commit_phase.
  apply hoare_seq; [apply frame_set_me|]. intros _.
  apply hoare_seq; [apply frame_order_chunk_loop; auto|]. intros _.
  apply hoare_get_bind. intros t [Hw Ha] s ->.
  pose proof (to_size_t_range
                (nrows_written (rdr t) + used_nrows (tctx (me t)))) as Hr.
  fold (sz_add (nrows_written (rdr t)) (used_nrows (tctx (me t)))) in Hr.
  unfold bind at 1.
  destruct (Z.gtb_spec (sz_add (nrows_written (rdr t))
                          (used_nrows (tctx (me t))))
              (nrows_allocated (rdr t))) as [Hgt|Hle].
  - rewrite (proj2 (Z.eqb_eq _ _) Ha).
    unfold bind at 1, modify at 1, ret at 1, bind at 1, modify at 1.
    apply (frame_ctx_orderBuffer at_cap Qg).
    unfold lift_rdr, at_cap. cbn. lia.
  - unfold ret at 1, bind at 1, modify at 1.
    apply (frame_ctx_orderBuffer at_cap Qg).
    unfold lift_rdr, at_cap. cbn. lia.
Qed.

(** At the row limit the capacity discipline is kept: from a reader with
    [0 <= nrows_written <= nrows_allocated = nrows_max], every iteration of
    the loop and a whole run of [read_all] leave
    [0 <= nrows_written <= nrows_allocated = nrows_max]; the rows of a chunk
    that do not fit are cut off, and the column store is not resized. *)
Theorem capacity_discipline_at_cap (r : ChunkedDataReader) :
  0 <= nrows_written r <= nrows_allocated r ->
  nrows_allocated r = nrows_max r ->
  (forall (i : Z) (t : Thread P),
     rdr t = r ->
     post (chunk_iteration i t)
       (fun t' => 0 <= nrows_written (rdr t') <= nrows_allocated (rdr t') /\
                  nrows_allocated (rdr t') = nrows_max r /\
                  nrows_max (rdr t') = nrows_max r)) /\
  post (read_all (P := P) r)
    (fun r' => 0 <= nrows_written r' <= nrows_allocated r' /\
               nrows_allocated r' = nrows_max r /\
               nrows_max r' = nrows_max r).
Proof.
  intros Hw Ha.
  set (Q := fun r' : ChunkedDataReader =>
              at_cap r' /\ nrows_max r' = nrows_max r).
  assert (Qg : g_insensitive Q) by (intros r' x Hr; exact Hr).
  assert (Qc : forall i, hoare (lift_rdr (P := P) Q) (commit_phase i)
                           (lift_rdr Q)).
  { intros i.
    apply (hoare_conj (lift_rdr at_cap)
             (lift_rdr (fun r' => nrows_max r' = nrows_max r))
             (lift_rdr at_cap)
             (lift_rdr (fun r' => nrows_max r' = nrows_max r))).
    - apply commit_phase_at_cap.
    - apply frame_commit_phase; intros r' x Hr; exact Hr. }
  assert (HQ : forall r', Q r' ->
            0 <= nrows_written r' <= nrows_allocated r' /\
            nrows_allocated r' = nrows_max r /\ nrows_max r' = nrows_max r).
  { unfold Q, at_cap. intros r'. lia. }
  assert (Hr : Q r) by (unfold Q, at_cap; lia).
  split.
  - intros i t <-.
    apply (post_impl _ (lift_rdr Q)); [|intros s; apply HQ].
    apply (frame_chunk_iteration Q Qg i (Qc i)). exact Hr.
  - apply (post_impl _ Q); [|exact HQ].
    apply (frame_read_all Q); auto.
    + unfold Q, at_cap. repeat split; intros; cbn; lia.
    + intros i c _. apply commit_phase_at_chunkCount, Qc.
Qed.

End Cap.

(** ** The size of the team *)

Section Master.

Context {host : Host}.

(** The block of the master thread: when OpenMP grants the number of
    threads that was planned for, the reader is left as it is; otherwise
    the granted number is traced and the chunking is planned again for it,
    so that the reader ends with at most the granted number of threads, no
    more threads than chunks, and a chunk count that is a multiple of its
    number of threads. *)
Theorem master_block_adopts_team (r : ChunkedDataReader) (size1000 : Z) :
  0 <= inputEnd r - inputStart r < 2 ^ 64 ->
  Double.to_size_t (Double.mul (Double.of_Z 1000) (lineLength r))
    = Some size1000 ->
  Z.pos omp_get_num_threads < 2 ^ 31 ->
  let granted := Z.pos omp_get_num_threads in
  exists r',
    master_block r = Ret tt r' /\
    1 <= nthreads r' <= granted /\
    (nthreads r = granted -> r' = r) /\
    (nthreads r <> granted ->
     nthreads r' <= chunkCount r' /\
     chunkCount r' mod nthreads r' = 0 /\
     exists j, journal (g r') = journal (g r) ++ Trace granted :: j).
Proof.
  intros Hin Hconv Hg granted. unfold master_block, bind at 1, get at 1.
  rewrite to_int_id by lia. fold granted.
  destruct (Z.eqb_spec granted (nthreads r)) as [E|E]; cbn [negb].
  - exists r. split; [reflexivity|]. split; [lia|]. split; [auto|].
    intros Hne. congruence.
  - unfold bind at 1, modify at 1, bind at 1, trace at 1, modify at 1.
    set (r1 := set_g (emit (Trace granted) (g (set_nthreads granted r)))
                 (set_nthreads granted r)).
    pose proof (planner_result r1 size1000 Hin Hconv) as R.
    cbn [nthreads r1 set_g set_nthreads] in R.
    specialize (R ltac:(unfold granted; lia)). cbv zeta in R.
    cbn [inputEnd inputStart r1 set_g set_nthreads] in R.
    pose proof (double_to_size_t_range _ _ Hconv) as Hs.
    set (inputSize := inputEnd r - inputStart r) in *.
    set (c0 := Z.max (inputSize / Z.max size1000 (2 ^ 18)) 1) in *.
    assert (Hc0 : 1 <= c0) by (unfold c0; lia).
    assert (Hgp : 1 <= granted) by (unfold granted; lia).
    rewrite R. destruct (c0 >? granted) eqn:Hgt.
    + apply Z.gtb_lt in Hgt. eexists. split; [reflexivity|].
      cbn [nthreads chunkCount set_chunkSize set_chunkCount r1 set_g
             set_nthreads g journal emit].
      assert (Hd : 0 <= (c0 - 1) / granted) by (apply Z.div_pos; lia).
      split; [lia|]. split; [intros; congruence|]. intros _.
      split; [nia|]. split; [rewrite Z.mul_comm; apply Z.mod_mul; lia|].
      exists []. reflexivity.
    + assert (Hle : c0 <= granted).
      { destruct (Z.gtb_spec c0 granted); [discriminate|lia]. }
      eexists. split; [reflexivity|].
      cbn [nthreads chunkCount set_chunkSize set_chunkCount r1 set_g
             set_nthreads g journal emit].
      split; [lia|]. split; [intros; congruence|]. intros _.
      split; [lia|]. split; [apply Z.mod_same; lia|].
      exists [Trace c0]. rewrite <- app_assoc. reflexivity.
Qed.

End Master.
(** ** Room for the rows *)

Section Room.

Context {host : Host}.

(** The allocator makes room for the request, up to the row limit.  Called
    for chunk [i < chunkCount] with a request of [n >= 1] rows: for the last
    chunk, and for another chunk whose projection
    [1.2 * n * chunkCount / (i + 1)] (computed in double precision with
    four roundings and then truncated) is a [size_t], the call ends, with
    the column store resized or with the exception of the resize, and
    leaves [min(n, nrows_max) <= nrows_allocated <= nrows_max], the
    projection being at least [n]; when the projection is no [size_t] the
    behaviour is undefined.  The projection is a [size_t], and so the call
    ends with room for the request, whenever [n * chunkCount / (i + 1)] is
    at most [2^63]. *)
Theorem realloc_makes_room (r : ChunkedDataReader) (i n : Z) :
  1 <= n < 2 ^ 64 ->
  0 <= i < chunkCount r -> chunkCount r < 2 ^ 64 ->
  let run := realloc_output_columns i n r in
  let room r' :=
    Z.min n (nrows_max r) <= nrows_allocated r' <= nrows_max r in
  (if i =? chunkCount r - 1 then
     exists r', final_state run = Some r' /\ room r'
   else
     match Double.to_size_t (exp_nrows n (chunkCount r) i) with
     | Some t => n <= t /\ exists r', final_state run = Some r' /\ room r'
     | None => run = Undefined
     end) /\
  (i = chunkCount r - 1 \/ n * chunkCount r <= 2 ^ 63 * (i + 1) ->
   exists r', final_state run = Some r' /\ room r').
Proof.
  intros Hn Hi Hc run room.
  assert (Hends : forall a, projected_alloc r i n = Some a ->
            exists r', final_state run = Some r' /\ room r').
  { intros a Ea.
    pose proof (projected_alloc_covers r i n a Hn Hi Hc Ea) as Ha.
    destruct (realloc_output_columns_ends r i n a Ea) as (r' & E & Hr & _).
    exists r'. split; [exact E|]. unfold room. lia. }
  split.
  - unfold projected_alloc, sz_sub in Hends.
    rewrite (to_size_t_id (chunkCount r - 1)) in Hends by lia.
    destruct (Z.eqb_spec i (chunkCount r - 1)) as [E|E].
    + apply (Hends n). reflexivity.
    + destruct (Double.to_size_t _) as [t|] eqn:Et.
      * split; [|eapply Hends; reflexivity].
        unfold exp_nrows, sz_add in Et.
        rewrite (to_size_t_id (i + 1)) in Et by lia.
        apply projection_covers_request in Et; lia.
      * unfold run. rewrite realloc_output_columns_eq.
        unfold projected_alloc, sz_sub.
        rewrite (to_size_t_id (chunkCount r - 1)) by lia.
        destruct (Z.eqb_spec i (chunkCount r - 1)); [contradiction|].
        rewrite Et. reflexivity.
  - intros Hfit.
    destruct (projected_alloc_defined r i n Hn Hi Hc Hfit) as (a & Ea).
    apply (Hends a Ea).
Qed.

End Room.

Section Unlimited.

Context {P : Type} {ops : ParseContextOps P} {host : Host}.

Lemma commit_phase_unlimited (c i : Z) :
  0 <= i < c -> c < 2 ^ 64 ->
  hoare
    (lift_rdr (P := P)
       (fun r => capacity_discipline r /\ nrows_max r = 2 ^ 64 - 1 /\
                 chunkCount r = c))
    (commit_phase i)
    (lift_rdr
       (fun r => capacity_discipline r /\ nrows_max r = 2 ^ 64 - 1 /\
                 chunkCount r = c)).
Proof.
  intros Hi Hc.
  set (Q := fun r => capacity_discipline r /\ nrows_max r = 2 ^ 64 - 1 /\
                     chunkCount r = c).
  assert (Qg : g_insensitive Q) by (intros r x Hr; exact Hr).
  assert (Ql : lce_insensitive Q) by (intros r x Hr; exact Hr).
  unfold commit_phase.
  apply hoare_seq; [apply frame_set_me|]. intros _.
  apply hoare_seq; [apply frame_order_chunk_loop; auto|]. intros _.
  apply hoare_get_bind. intros t ((Hw & Ha) & Hm & Hcc) s ->.
  pose proof (to_size_t_range
                (nrows_written (rdr t) + used_nrows (tctx (me t)))) as Hr.
  fold (sz_add (nrows_written (rdr t)) (used_nrows (tctx (me t)))) in Hr.
  set (nrows_new := sz_add (nrows_written (rdr t))
                      (used_nrows (tctx (me t)))) in *.
  unfold bind at 1.
  destruct (Z.gtb_spec nrows_new (nrows_allocated (rdr t))) as [Hgt|Hle].
  - destruct (Z.eqb_spec (nrows_allocated (rdr t)) (nrows_max (rdr t)))
      as [E|E].
    + unfold bind at 1, modify at 1, ret at 1, bind at 1, modify at 1.
      apply (frame_ctx_orderBuffer Q Qg).
      unfold lift_rdr, Q, capacity_discipline. cbn. lia.
    + unfold bind at 1, on_reader, zoom.
      pose proof (realloc_output_columns_room (rdr t) i nrows_new
                    ltac:(lia) ltac:(lia) ltac:(lia)) as G.
      pose proof (frame_realloc_output_columns
                    (fun r => nrows_written r = nrows_written (rdr t) /\
                              nrows_max r = nrows_max (rdr t) /\
                              chunkCount r = c)
                    i nrows_new
                    ltac:(intros r0 x H0; exact H0)
                    ltac:(intros r0 x H0; exact H0)
                    (rdr t) (conj eq_refl (conj eq_refl Hcc))) as F.
      destruct (realloc_output_columns i nrows_new (rdr t)) as [[] r'|e r'|];
        cbn [post] in *.
      * unfold ret at 1, bind at 1, modify at 1.
        apply (frame_ctx_orderBuffer Q Qg).
        unfold lift_rdr, Q, capacity_discipline. cbn. lia.
      * unfold lift_rdr, Q, capacity_discipline. cbn. lia.
      * exact I.
  - unfold ret at 1, bind at 1, modify at 1.
    apply (frame_ctx_orderBuffer Q Qg).
    unfold lift_rdr, Q, capacity_discipline. cbn. lia.
Qed.

(** Without a row limit the capacity discipline is kept: from a reader
    with [nrows_max = 2^64 - 1] and
    [0 <= nrows_written <= nrows_allocated <= nrows_max], every iteration of
    the loop and a whole run of [read_all] leave
    [0 <= nrows_written <= nrows_allocated <= nrows_max], whatever the
    parser does. *)
Theorem capacity_discipline_without_limit (r : ChunkedDataReader) :
  nrows_max r = 2 ^ 64 - 1 ->
  0 <= nrows_written r <= nrows_allocated r ->
  nrows_allocated r <= nrows_max r ->
  0 <= chunkCount r < 2 ^ 64 ->
  (forall (i : Z) (t : Thread P),
     rdr t = r -> 0 <= i < chunkCount r ->
     post (chunk_iteration i t)
       (fun t' => 0 <= nrows_written (rdr t') <= nrows_allocated (rdr t') /\
                  nrows_allocated (rdr t') <= nrows_max (rdr t'))) /\
  post (read_all (P := P) r)
    (fun r' => 0 <= nrows_written r' <= nrows_allocated r' /\
               nrows_allocated r' <= nrows_max r').
Proof.
  intros Hm Hw Ha Hc. split.
  - intros i t <- Hi.
    set (Q := fun r => capacity_discipline r /\ nrows_max r = 2 ^ 64 - 1 /\
                       chunkCount r = chunkCount (rdr t)).
    apply (post_impl _ (lift_rdr Q)).
    + apply (frame_chunk_iteration Q).
      * intros r x Hr. exact Hr.
      * apply commit_phase_unlimited; lia.
      * unfold lift_rdr, Q, capacity_discipline. lia.
    + intros s (H1 & _). exact H1.
  - set (Q := fun r => (capacity_discipline r /\ nrows_max r = 2 ^ 64 - 1) /\
                       0 <= chunkCount r < 2 ^ 64).
    apply (post_impl _ Q).
    + apply (frame_read_all Q).
      * intros r' x Hr. exact Hr.
      * split; [|split]; intros r0 x; unfold Q, capacity_discipline;
          cbn; lia.
      * intros i c Hi t [[Ht1 Ht2] Ht3].
        pose proof (commit_phase_unlimited c i Hi ltac:(lia) t
                      ltac:(split; [apply Ht1 | split; [apply Ht1|exact Ht3]]))
          as H.
        apply (post_impl _ _ _ H).
        intros s (Hs1 & Hs2 & Hs3).
        unfold lift_rdr, at_chunkCount, Q, capacity_discipline in *. lia.
      * unfold Q, capacity_discipline. lia.
    + intros s ((H1 & _) & _). exact H1.
Qed.

End Unlimited.

(** ** Progress reports *)

Section ProgressOnly.

Context {P : Type} {ops : ParseContextOps P} {host : Host}.
Variable Q : ChunkedDataReader -> Prop.
Hypothesis Qe : forall r ev, is_Progress ev = false ->
                             Q r -> Q (set_g (emit ev (g r)) r).

Lemma po_journal_event ev :
  is_Progress ev = false -> hoare Q (journal_event ev) Q.
Proof.
  intros Hev. apply hoare_modify. intros r Hr. apply Qe; assumption.
Qed.

Lemma po_trace n : hoare Q (trace n) Q.
Proof. apply hoare_modify. intros r Hr. apply Qe; auto. Qed.

Lemma po_ctx_read_chunk :
  hoare (lift_rdr (P := P) Q) ctx_read_chunk (lift_rdr Q).
Proof.
  unfold ctx_read_chunk. apply hoare_get_bind'. intros t.
  apply hoare_seq; [apply frame_on_reader, po_journal_event; reflexivity|].
  intros _. destruct (read_chunk _ _ _) as [[res acc] ctx].
  apply hoare_seq; [apply frame_set_me|]. intros _.
  destruct res; hoare_auto.
Qed.

Lemma po_ctx_push_buffers :
  hoare (lift_rdr (P := P) Q) ctx_push_buffers (lift_rdr Q).
Proof.
  unfold ctx_push_buffers. apply hoare_get_bind'. intros t.
  apply hoare_seq; [apply frame_on_reader, po_journal_event; reflexivity|].
  intros _. destruct (push_buffers _) as [res ctx].
  apply hoare_seq; [apply frame_set_me|]. intros _.
  destruct res; hoare_auto.
Qed.

Lemma po_ctx_orderBuffer :
  hoare (lift_rdr (P := P) Q) ctx_orderBuffer (lift_rdr Q).
Proof.
  unfold ctx_orderBuffer. apply hoare_get_bind'. intros t.
  apply hoare_seq; [apply frame_on_reader, po_journal_event; reflexivity|].
  intros _. destruct (orderBuffer _) as [res ctx].
  apply hoare_seq; [apply frame_set_me|]. intros _.
  destruct res; hoare_auto.
Qed.

(** The part of the parse phase that follows the progress report. *)
Lemma po_parse_phase_rest i :
  hoare (lift_rdr (P := P) Q)
    (bind ctx_push_buffers (fun _ =>
     bind get (fun t =>
     bind (on_reader (compute_chunk_boundaries i (tctx (me t)))) (fun c =>
     bind (modify (fun t => set_me (set_txcc c (me t)) t)) (fun _ =>
     ctx_read_chunk)))))
    (lift_rdr Q).
Proof.
  apply hoare_seq; [apply po_ctx_push_buffers|]. intros _.
  apply hoare_get_bind'. intros t'.
  apply hoare_seq;
    [apply frame_on_reader, frame_compute_chunk_boundaries|]. intros c.
  apply hoare_seq; [apply frame_set_me|]. intros _.
  apply po_ctx_read_chunk.
Qed.

Hypothesis Ql : lce_insensitive Q.

Lemma po_order_chunk_loop n :
  hoare (lift_rdr (P := P) Q) (order_chunk_loop n) (lift_rdr Q).
Proof.
  induction n as [|i IH]; [apply hoare_ret|].
  cbn [order_chunk_loop]. apply hoare_get_bind'. intros t.
  apply hoare_if.
  - apply hoare_modify. intros s Hs. apply Ql, Hs.
  - apply hoare_seq; [apply frame_set_me|]. intros _.
    apply hoare_seq; [apply po_ctx_read_chunk|]. intros _.
    apply hoare_seq; [apply hoare_xassert|]. intros _. exact IH.
Qed.

Hypothesis Qc : forall r n, Q r -> Q (set_g (set_columns n (g r)) r).

Lemma po_columns_set_nrows n : hoare Q (columns_set_nrows n) Q.
Proof.
  unfold columns_set_nrows. destruct (set_nrows_raises n); hoare_auto.
  apply hoare_modify. intros r Hr.
  apply (Qc (set_g (emit (SetNrows n) (g r)) r) n), Qe; auto.
Qed.

Hypothesis Qa : alloc_insensitive Q.

Lemma po_realloc_output_columns i n :
  hoare Q (realloc_output_columns i n) Q.
Proof.
  unfold realloc_output_columns. apply hoare_get_bind'. intros r.
  apply hoare_seq.
  { apply hoare_if; [apply hoare_ret|].
    apply hoare_seq; [apply hoare_defined | intros; apply hoare_ret]. }
  intros a. apply hoare_seq.
  { apply hoare_modify. intros s Hs. apply Qa, Hs. }
  intros _. apply hoare_seq; [apply po_trace|]. intros _.
  apply po_columns_set_nrows.
Qed.

Hypothesis Qw : written_insensitive Q.

Lemma po_commit_phase i :
  hoare (lift_rdr (P := P) Q) (commit_phase i) (lift_rdr Q).
Proof.
  unfold commit_phase.
  apply hoare_seq; [apply frame_set_me|]. intros _.
  apply hoare_seq; [apply po_order_chunk_loop|]. intros _.
  apply hoare_get_bind'. intros t.
  apply hoare_seq.
  { repeat apply hoare_if.
    - apply hoare_seq; [apply frame_set_me | intros; apply hoare_ret].
    - apply hoare_seq; [|intros; apply hoare_ret].
      apply frame_on_reader, po_realloc_output_columns.
    - apply hoare_ret. }
  intros n. apply hoare_seq.
  { apply hoare_modify. intros s Hs. apply Qw, Hs. }
  intros _. apply po_ctx_orderBuffer.
Qed.

Lemma quiet_flags_only : flags_only (@quiet P).
Proof.
  unfold flags_only, quiet. split; [|split]; intros w x H; exact H.
Qed.

(** A quiet thread stays quiet, and reports no progress. *)
Lemma quiet_parse_phase i :
  hoare (quiet_thread (P := P) Q) (parse_phase i) (quiet_thread Q).
Proof.
  unfold parse_phase. apply hoare_get_bind. intros t (Hq & Hp & Ha).
  rewrite Ha, Hp. apply hoare_bind_ret. apply hoare_bind_ret.
  apply (hoare_conseq _ (quiet_thread Q) _ (quiet_thread Q)); auto.
  - apply (hoare_conj (lift_rdr Q) (lift_me quiet)
             (lift_rdr Q) (lift_me quiet)).
    + apply po_parse_phase_rest.
    + apply me_parse_phase_rest, quiet_flags_only.
  - intros s ->. split; [exact Hq | split; assumption].
Qed.

Lemma quiet_capture_exception e :
  hoare (quiet_thread (P := P) Q) (capture_exception e) (quiet_thread Q).
Proof. apply hoare_modify. auto. Qed.

Lemma quiet_chunk_iteration i :
  hoare (quiet_thread (P := P) Q) (chunk_iteration i) (quiet_thread Q).
Proof.
  unfold chunk_iteration.
  apply hoare_seq; [apply hoare_gets|]. intros c.
  destruct c; [apply hoare_ret|].
  apply hoare_seq.
  { apply (hoare_try_catch _ (quiet_thread Q)); auto.
    - apply quiet_parse_phase.
    - apply quiet_capture_exception. }
  intros _. apply hoare_seq; [apply hoare_gets|]. intros c.
  destruct c; [apply hoare_ret|].
  apply (hoare_try_catch _ (quiet_thread Q)); auto.
  - apply (hoare_conj (lift_rdr Q) (lift_me quiet)
             (lift_rdr Q) (lift_me quiet)).
    + apply po_commit_phase.
    + apply me_commit_phase, quiet_flags_only.
  - apply quiet_capture_exception.
Qed.

Lemma quiet_thread_epilogue :
  hoare (quiet_thread (P := P) Q) thread_epilogue (quiet_thread Q).
Proof.
  unfold thread_epilogue, discard_buffers, final_push, final_progress.
  apply hoare_seq.
  { apply hoare_seq; [apply hoare_gets|]. intros c.
    destruct c; [|apply hoare_ret].
    apply hoare_modify. intros s (Hq & Hp & Ha). repeat split; auto. }
  intros _. apply hoare_seq.
  { apply hoare_get_bind'. intros t.
    destruct (negb _); [|apply hoare_ret].
    apply (hoare_try_catch _ (quiet_thread Q)); auto.
    - apply (hoare_conj (lift_rdr Q) (lift_me quiet)
               (lift_rdr Q) (lift_me quiet)).
      + apply po_ctx_push_buffers.
      + apply me_ctx_push_buffers, quiet_flags_only.
    - apply quiet_capture_exception. }
  intros _. apply hoare_get_bind. intros t (Hq & Hp & Ha).
  rewrite Ha. apply hoare_ret'. intros s ->. repeat split; auto.
Qed.

(** A thread is set up quiet when it is not the master, or when progress
    reports are off. *)
Lemma quiet_init_worker (b : bool) (t : Thread P) :
  Q (rdr t) -> report_progress (g (rdr t)) && b = false ->
  post (init_worker b t) (quiet_thread Q).
Proof.
  intros Hq Hb.
  destruct (init_worker_flags b t) as (t' & E & Hr & _ & Hp & Ha).
  rewrite E. cbn [post]. rewrite Hb in Hp. rewrite Hp in Ha.
  split; [unfold lift_rdr; rewrite Hr; exact Hq|].
  split; [exact Hp | exact Ha].
Qed.

End ProgressOnly.

Lemma Forall_replace_nth {A} (W : A -> Prop) (k : nat) (x : A) (l : list A) :
  W x -> Forall W l -> Forall W (replace_nth k x l).
Proof.
  intros Hx Hl. revert k. induction Hl as [|y l Hy Hl IH]; intros [|k]; cbn;
    constructor; auto.
Qed.

Lemma progress_events_emit (r : ChunkedDataReader) (ev : Event) :
  is_Progress ev = false ->
  progress_events (set_g (emit ev (g r)) r) = progress_events r.
Proof.
  intros Hev. unfold progress_events. cbn [g set_g journal emit].
  rewrite filter_app. cbn [filter]. rewrite Hev. apply app_nil_r.
Qed.

Lemma progress_only_events (J : list Event) :
  progress_only (fun r => progress_events r = J).
Proof.
  unfold progress_only. split; [|split; [|split; [|split; [|split]]]].
  - intros r ev Hev Hr. rewrite progress_events_emit; assumption.
  - intros r n Hr. exact Hr.
  - intros r x Hr. exact Hr.
  - intros r x Hr. exact Hr.
  - intros r x Hr. exact Hr.
  - repeat split; intros; assumption.
Qed.

Lemma progress_only_off (J : list Event) :
  progress_only
    (fun r => progress_events r = J /\ report_progress (g r) = false).
Proof.
  unfold progress_only. split; [|split; [|split; [|split; [|split]]]].
  - intros r ev Hev [Hr Ho]. rewrite progress_events_emit; auto.
  - intros r n Hr. exact Hr.
  - intros r x Hr. exact Hr.
  - intros r x Hr. exact Hr.
  - intros r x Hr. exact Hr.
  - repeat split; intros; tauto.
Qed.

Section Planned.

Context {host : Host}.
Variable Q : ChunkedDataReader -> Prop.
Hypothesis Qe : forall r ev, is_Progress ev = false ->
                             Q r -> Q (set_g (emit ev (g r)) r).
Hypothesis Qplan : plan_insensitive Q.

Lemma po_planner : hoare Q determine_chunking_strategy Q.
Proof.
  destruct Qplan as (Qs & Qc & Qn).
  unfold determine_chunking_strategy.
  apply hoare_get_bind'. intros r0.
  apply hoare_seq; [apply hoare_defined|]. intros size1000.
  apply (hoare_bind _ (fun r => Q r /\ 2 ^ 18 <= chunkSize r) Q).
  { apply hoare_modify. intros r Hr. split; [apply Qs, Hr|].
    cbn [chunkSize set_chunkSize]. rewrite std_max_eq.
    change (Z.shiftl 1 18) with (2 ^ 18). lia. }
  { intros r [Hr _]. exact Hr. }
  intros _. apply hoare_get_bind. intros r1 [Hr1 Hcs].
  unfold sz_div at 1.
  destruct (chunkSize r1 =? 0); [apply hoare_bind_undefined|].
  apply hoare_bind_ret.
  apply (hoare_bind _ Q Q).
  { apply hoare_modify. intros s ->. apply Qc; [|exact Hr1].
    rewrite std_max_eq.
    pose proof (to_size_t_range (inputEnd r0 - inputStart r0)) as Hin.
    assert (0 <= to_size_t (inputEnd r0 - inputStart r0) / chunkSize r1
            <= to_size_t (inputEnd r0 - inputStart r0)).
    { split; [apply Z.div_pos; lia|].
      apply Z.div_le_upper_bound; [lia|]. nia. }
    lia. }
  { auto. }
  intros _. apply hoare_get_bind'. intros r2.
  apply hoare_seq.
  { apply hoare_if.
    - unfold sz_div.
      destruct (_ =? 0); [apply hoare_bind_undefined|].
      apply hoare_bind_ret. apply hoare_modify. intros r Hr.
      apply Qc; [apply to_size_t_range | exact Hr].
    - apply hoare_seq; [apply hoare_modify; intros r Hr; apply Qn, Hr|].
      intros _. apply hoare_get_bind'. intros r3.
      apply po_trace, Qe. }
  intros _. apply hoare_get_bind'. intros r3.
  apply hoare_seq; [apply hoare_sz_div|]. intros cs.
  apply hoare_modify. intros r Hr. apply Qs, Hr.
Qed.

Lemma po_master_block : hoare Q master_block Q.
Proof.
  unfold master_block.
  apply hoare_get_bind'. intros r.
  apply hoare_if; [|apply hoare_ret].
  apply hoare_seq.
  { apply hoare_modify. intros r0 Hr. apply Qplan, Hr. }
  intros _. apply hoare_seq; [apply po_trace, Qe|]. intros _.
  apply po_planner.
Qed.

End Planned.

Section Silent.

Context {P : Type} {ops : ParseContextOps P} {host : Host}.
Variable Q : ChunkedDataReader -> Prop.
Hypothesis HQ : progress_only Q.

Lemma quiet_on_worker {A} (k : nat) (m : M (Thread P) A) :
  hoare (quiet_thread Q) m (quiet_thread Q) ->
  hoare (quiet_region Q) (on_worker k m) (quiet_region Q).
Proof.
  intros H rg [Hq Hw]. unfold on_worker.
  destruct (nth_error (workers rg) k) as [w|] eqn:Ew; [|exact I].
  assert (Hqw : quiet w).
  { apply nth_error_In in Ew. rewrite Forall_forall in Hw. apply Hw, Ew. }
  specialize (H (mkThread (shared_rdr rg) (shared_oem rg) (clock rg) w)
                (conj Hq Hqw)).
  destruct (m _) as [a t'|e t'|]; cbn [post] in *; auto;
    destruct H as [H1 H2]; (split; [exact H1|]);
    cbn [leave_thread workers]; apply Forall_replace_nth; assumption.
Qed.

Hypothesis Hoff : forall r, Q r -> report_progress (g r) = false.

Lemma quiet_parallel_region :
  hoare (quiet_region (P := P) Q) parallel_region (quiet_region Q).
Proof.
  destruct HQ as (Qe & Qc & Ql & Qa & Qw & Qplan).
  unfold parallel_region.
  apply hoare_seq.
  { apply (hoare_zoom Q Q); [apply po_master_block; assumption| |].
    - intros rg [Hq _]. exact Hq.
    - intros rg r [_ Hw] Hr. split; assumption. }
  intros _. apply hoare_seq.
  { apply hoare_for_each. intros k _. apply quiet_on_worker.
    intros t [Hq _]. apply (quiet_init_worker Q); [exact Hq|].
    rewrite (Hoff _ Hq). reflexivity. }
  intros _. apply hoare_get_bind'. intros rg.
  apply hoare_seq.
  { apply hoare_for_each. intros i _. apply quiet_on_worker.
    apply quiet_chunk_iteration; assumption. }
  intros _. apply hoare_for_each. intros k _. apply quiet_on_worker.
  apply quiet_thread_epilogue; assumption.
Qed.

Lemma quiet_read_all : hoare Q (read_all (P := P)) Q.
Proof.
  intros r Hr. unfold read_all.
  assert (Hinit : quiet_region Q
                    (mkRegion r None 0 (repeat (@blank_worker P ops) team))).
  { split; [exact Hr|]. apply Forall_forall. intros w Hw.
    apply repeat_spec in Hw. subst w. split; reflexivity. }
  pose proof (quiet_parallel_region _ Hinit) as H.
  destruct (parallel_region _) as [[] rg|e rg|]; cbn [post] in *; auto.
  destruct H as [H _].
  destruct (shared_oem rg); [exact H|].
  assert (Hfin : hoare Q
            (bind get (fun r' =>
               bind (columns_set_nrows (nrows_written r')) (fun _ =>
                 if nrows_written r' <? nrows_max r'
                 then xassert (lastChunkEnd r' =? inputEnd r')
                 else ret tt))) Q).
  { apply hoare_get_bind'. intros r'.
    apply hoare_seq; [apply po_columns_set_nrows; apply HQ|]. intros _.
    apply hoare_if; [apply hoare_xassert | apply hoare_ret]. }
  exact (Hfin (shared_rdr rg) H).
Qed.

End Silent.

Section Progress.

Context {P : Type} {ops : ParseContextOps P} {host : Host}.

(** With progress reports off ([g.report_progress] false), a whole run of
    [read_all] never calls [g.progress]: the progress events of the journal
    are those that were there before. *)
Theorem progress_off_is_silent (r : ChunkedDataReader) :
  report_progress (g r) = false ->
  post (read_all (P := P) r)
    (fun r' => progress_events r' = progress_events r).
Proof.
  intros Hoff.
  apply (post_impl _
           (fun r' => progress_events r' = progress_events r /\
                      report_progress (g r') = false)).
  - apply (quiet_read_all _ (progress_only_off (progress_events r))).
    + intros r' [_ H]. exact H.
    + split; [reflexivity | exact Hoff].
  - intros r' [H _]. exact H.
Qed.

(** Only the master thread reports progress.  A thread that is not the
    master is set up with neither [tShowProgress] nor [tShowAlways]; and a
    thread without these two flags keeps them off and calls [g.progress]
    neither in an iteration of the loop nor at the end of the parallel
    region. *)
Theorem only_master_reports_progress :
  (forall t : Thread P,
     exists t', init_worker false t = Ret tt t' /\ rdr t' = rdr t /\
                quiet (me t')) /\
  (forall (i : Z) (t : Thread P),
     quiet (me t) ->
     post (chunk_iteration i t)
       (fun t' => quiet (me t') /\
                  progress_events (rdr t') = progress_events (rdr t))) /\
  (forall t : Thread P,
     quiet (me t) ->
     post (thread_epilogue t)
       (fun t' => quiet (me t') /\
                  progress_events (rdr t') = progress_events (rdr t))).
Proof.
  split; [|split].
  - intros t. destruct (init_worker_flags false t)
      as (t' & E & Hr & _ & Hp & Ha).
    exists t'. split; [exact E|]. split; [exact Hr|].
    rewrite andb_false_r in Hp. rewrite Hp in Ha. split; assumption.
  - intros i t Hq.
    apply (post_impl _
             (quiet_thread (fun r => progress_events r
                                     = progress_events (rdr t)))).
    + destruct (progress_only_events (progress_events (rdr t)))
        as (Qe & Qc & Ql & Qa & Qw & Qplan).
      apply quiet_chunk_iteration; try assumption.
      split; [reflexivity | exact Hq].
    + intros s [H1 H2]. split; assumption.
  - intros t Hq.
    apply (post_impl _
             (quiet_thread (fun r => progress_events r
                                     = progress_events (rdr t)))).
    + destruct (progress_only_events (progress_events (rdr t)))
        as (Qe & Qc & Ql & Qa & Qw & Qplan).
      apply quiet_thread_epilogue; try assumption.
      split; [reflexivity | exact Hq].
    + intros s [H1 H2]. split; assumption.
Qed.

End Progress.

(** ** Where the rows go *)

Section Contiguous.

Context {P : Type} {ops : ParseContextOps P} {host : Host}.
Hypothesis Hrow0 : read_chunk_keeps_row0 ops.

Lemma order_chunk_loop_rows_at (w a : Z) (n : nat) :
  hoare (rows_at (P := P) w a) (order_chunk_loop n) (rows_at w a).
Proof.
  induction n as [|i IH]; intros t Ht; [exact Ht|].
  rewrite order_chunk_loop_step.
  destruct (accepts _ _); [exact Ht|].
  assert (H1 : rows_at w a (snd (reparse t))).
  { unfold reparse. specialize (Hrow0 (mkCC (lastChunkEnd (rdr t))
                                       (end_ (txcc (me t))) true
                                       (true_end (txcc (me t))))
                                (tacc (me t)) (tctx (me t))).
    destruct (read_chunk _ _ _) as [[res acc] ctx]. cbn [snd] in *.
    destruct Ht as (H1 & H2 & H3). unfold rows_at. cbn. 
    repeat split; congruence. }
  destruct (reparse t) as [res t1]. cbn [snd] in H1.
  destruct res as [[]|e]; [|exact H1].
  destruct (Nat.eqb i 0); [exact H1|]. apply IH, H1.
Qed.

Lemma ctx_orderBuffer_returns (t t' : Thread P) :
  ctx_orderBuffer t = Ret tt t' ->
  rdr t' = set_g (emit (OrderBuffer (row0 (tctx (me t)))
                          (used_nrows (tctx (me t)))) (g (rdr t))) (rdr t).
Proof.
  unfold ctx_orderBuffer, bind, get, on_reader, zoom, journal_event, modify.
  cbn [rdr set_rdr me].
  destruct (orderBuffer _) as [[[]|e] ctx]; [|discriminate].
  intros H. apply Ret_inj in H as [_ <-]. reflexivity.
Qed.

(** The rows of a committed chunk follow those of the chunk before.  For a
    parser whose [read_chunk] leaves [row0] to the driver: when a commit
    phase returns, the last call it made is [orderBuffer], with [row0] the
    value that [nrows_written] had before the commit, and [nrows_written] is
    now [row0 + used_nrows] (as a [size_t]), also when the rows of the
    chunk were cut off at the row limit or the column store was resized. *)
Theorem commit_rows_contiguous (i : Z) (t t' : Thread P) :
  0 <= nrows_allocated (rdr t) < 2 ^ 64 ->
  commit_phase i t = Ret tt t' ->
  exists used,
    last (journal (g (rdr t'))) (Trace 0)
    = OrderBuffer (nrows_written (rdr t)) used /\
    nrows_written (rdr t') = sz_add (nrows_written (rdr t)) used.
Proof.
  intros Ha. unfold commit_phase. unfold bind at 1, modify at 1.
  set (t0 := set_me _ t). unfold bind at 1.
  assert (H0 : rows_at (nrows_written (rdr t)) (nrows_allocated (rdr t)) t0).
  { repeat split. }
  pose proof (order_chunk_loop_rows_at _ _ 2 t0 H0) as H1.
  fold (@order_chunk P ops) in H1.
  destruct (order_chunk t0) as [[] t1|e t1|]; try discriminate.
  cbn [post] in H1. destruct H1 as (Hr & Hw & Hal).
  clearbody t0. clear H0 t0.
  unfold bind at 1, get at 1.
  set (w := nrows_written (rdr t)) in *.
  set (nrows_new := sz_add (nrows_written (rdr t1))
                      (used_nrows (tctx (me t1)))).
  assert (Hlast : forall (s s' : Thread P) (n : Z),
            ctx_orderBuffer
              (set_rdr (set_nrows_written n (rdr s)) s) = Ret tt s' ->
            last (journal (g (rdr s'))) (Trace 0)
            = OrderBuffer (row0 (tctx (me s))) (used_nrows (tctx (me s))) /\
            nrows_written (rdr s') = n).
  { intros s s' n H. apply ctx_orderBuffer_returns in H. rewrite H.
    cbn. rewrite last_last. split; reflexivity. }
  unfold bind at 1.
  destruct (Z.gtb_spec nrows_new (nrows_allocated (rdr t1))) as [Hgt|Hle].
  - destruct (Z.eqb_spec (nrows_allocated (rdr t1)) (nrows_max (rdr t1)))
      as [E|E].
    + unfold bind at 1, modify at 1, ret at 1, bind at 1, modify at 1.
      intros H. apply Hlast in H. cbn in H. destruct H as [H1 H2].
      eexists. split; [rewrite H1, Hr; reflexivity|].
      rewrite H2, Hal, Hw. unfold sz_add, sz_sub.
      unfold to_size_t, size_modulus.
      rewrite Zplus_mod_idemp_r.
      replace (w + (nrows_allocated (rdr t) - w))
        with (nrows_allocated (rdr t)) by lia.
      rewrite Z.mod_small; lia.
    + unfold bind at 1, on_reader, zoom.
      pose proof (frame_realloc_output_columns
                    (fun r => nrows_written r = w) i nrows_new
                    ltac:(intros r0 x H0; exact H0)
                    ltac:(intros r0 x H0; exact H0)
                    (rdr t1) Hw) as F.
      destruct (realloc_output_columns i nrows_new (rdr t1))
        as [[] r'|e r'|]; try discriminate.
      cbn [post] in F.
      unfold ret at 1, bind at 1, modify at 1.
      intros H. apply Hlast in H. cbn in H. destruct H as [H1 H2].
      eexists. split; [rewrite H1, Hr; reflexivity|].
      rewrite H2. unfold nrows_new. rewrite Hw. reflexivity.
  - unfold ret at 1, bind at 1, modify at 1.
    intros H. apply Hlast in H. destruct H as [H1 H2].
    eexists. split; [rewrite H1, Hr; reflexivity|].
    rewrite H2. unfold nrows_new. rewrite Hw. reflexivity.
Qed.

End Contiguous.
(** ** What the threads share *)

Section Shared.

Context {P : Type} {ops : ParseContextOps P} {host : Host}.

Lemma shared_on_worker {A} Inv (k : nat) (m : M (Thread P) A) :
  hoare (lift_shared Inv) m (lift_shared Inv) ->
  hoare (lift_shared_region Inv) (on_worker k m) (lift_shared_region Inv).
Proof.
  intros H rg Hrg. unfold on_worker.
  destruct (nth_error (workers rg) k) as [w|]; [|exact I].
  specialize (H (mkThread (shared_rdr rg) (shared_oem rg) (clock rg) w) Hrg).
  destruct (m _); cbn in *; auto.
Qed.

(** What holds of the reader unless an exception was captured is kept by
    what keeps it and does not forget an exception. *)
Lemma unless_failed_kept {A} Q (m : M (Thread P) A) :
  hoare (lift_rdr Q) m (lift_rdr Q) -> hoare caught m caught ->
  hoare (lift_shared (unless_failed Q)) m (lift_shared (unless_failed Q)).
Proof.
  intros H1 H2 t Ht.
  destruct (oem t) as [e|] eqn:Ho.
  - assert (Hc : caught t) by (unfold caught; rewrite Ho; reflexivity).
    apply (post_impl _ _ _ (H2 t Hc)).
    intros s Hs Hn. unfold caught in Hs. rewrite Hn in Hs. discriminate.
  - assert (Hq : lift_rdr Q t) by (apply Ht, Ho).
    apply (post_impl _ _ _ (H1 t Hq)).
    intros s Hs _. exact Hs.
Qed.

Lemma caught_thread_epilogue : hoare (@caught P) thread_epilogue caught.
Proof.
  intros t Hc. rewrite (epilogue_on_error t Hc), final_progress_eq.
  destruct (tShowAlways _); [|exact Hc].
  cbv zeta. destruct (progress_raises _ _); exact Hc.
Qed.

Lemma caught_init_worker b : hoare (@caught P) (init_worker b) caught.
Proof.
  unfold init_worker. apply hoare_get_bind'. intros t.
  apply hoare_seq.
  { destruct (_ && b); [|apply hoare_ret].
    apply hoare_seq; [|intros; apply hoare_ret].
    unfold read_wallclock. hoare_auto. apply hoare_modify. auto. }
  intros w. apply hoare_modify. auto.
Qed.

End Shared.

Section Journal.

Context {P : Type} {ops : ParseContextOps P} {host : Host}.
Variable Q : ChunkedDataReader -> Prop.
Hypothesis Qj : journal_insensitive Q.

Lemma jn_nonprogress r ev :
  is_Progress ev = false -> Q r -> Q (set_g (emit ev (g r)) r).
Proof. intros _. apply Qj. Qed.

Lemma jn_progress a s : hoare Q (progress a s) Q.
Proof.
  unfold progress. apply hoare_seq.
  - apply hoare_modify. intros r Hr. apply Qj, Hr.
  - intros _. destruct (progress_raises a s); hoare_auto.
Qed.

Lemma jn_parse_phase i :
  hoare (lift_rdr (P := P) Q) (parse_phase i) (lift_rdr Q).
Proof.
  unfold parse_phase. apply hoare_get_bind'. intros t.
  apply hoare_seq.
  { destruct (tShowAlways (me t)); [apply hoare_ret|].
    destruct (tShowProgress (me t)); [|apply hoare_ret].
    apply hoare_seq; [apply frame_read_wallclock|]. intros. apply hoare_ret. }
  intros show. apply hoare_seq.
  { destruct show; [|apply hoare_ret].
    apply hoare_seq; [|intros; apply frame_set_me].
    apply frame_on_reader. apply hoare_get_bind'. intros.
    apply jn_progress. }
  intros _. apply po_parse_phase_rest, jn_nonprogress.
Qed.

Lemma jn_thread_epilogue :
  hoare (lift_rdr (P := P) Q) thread_epilogue (lift_rdr Q).
Proof.
  unfold thread_epilogue, discard_buffers, final_push, final_progress.
  apply hoare_seq.
  { apply hoare_seq; [apply frame_exception_caught|]. intros c.
    destruct c; [apply frame_set_me | apply hoare_ret]. }
  intros _. apply hoare_seq.
  { apply hoare_get_bind'. intros t.
    destruct (negb _); [|apply hoare_ret].
    apply (hoare_try_catch _ (lift_rdr Q)); auto.
    - apply po_ctx_push_buffers, jn_nonprogress.
    - apply frame_capture_exception. }
  intros _. apply hoare_get_bind'. intros t.
  destruct (tShowAlways (me t)); [|apply hoare_ret].
  apply frame_on_reader, jn_progress.
Qed.

End Journal.

Section Store.

Context {P : Type} {ops : ParseContextOps P} {host : Host}.

Lemma store_in_step_journal : journal_insensitive store_in_step.
Proof. intros r ev Hr. exact Hr. Qed.

(** A commit phase that returns leaves the column store in step. *)
Lemma commit_phase_in_step (i : Z) (t t' : Thread P) :
  commit_phase i t = Ret tt t' ->
  store_in_step (rdr t) -> store_in_step (rdr t').
Proof.
  intros H Hs. revert H.
  assert (Qe : forall r ev, is_Progress ev = false ->
             store_in_step r -> store_in_step (set_g (emit ev (g r)) r))
    by (intros r ev _ Hr; exact Hr).
  assert (Ql : lce_insensitive store_in_step) by (intros r x Hr; exact Hr).
  unfold commit_phase. unfold bind at 1, modify at 1.
  set (t0 := set_me _ t). unfold bind at 1.
  pose proof (po_order_chunk_loop store_in_step Qe Ql 2 t0 Hs) as H1.
  fold (@order_chunk P ops) in H1.
  destruct (order_chunk t0) as [[] t1|e t1|]; try discriminate.
  cbn [post] in H1. clearbody t0. clear t0.
  unfold bind at 1, get at 1.
  assert (Hlast : forall (s : Thread P),
            store_in_step (rdr s) ->
            ctx_orderBuffer s = Ret tt t' -> store_in_step (rdr t')).
  { intros s Hq H.
    pose proof (po_ctx_orderBuffer store_in_step Qe s Hq) as Hp.
    rewrite H in Hp. exact Hp. }
  unfold bind at 1.
  destruct (_ >? nrows_allocated (rdr t1)).
  - destruct (nrows_allocated (rdr t1) =? nrows_max (rdr t1)).
    + unfold bind at 1, modify at 1, ret at 1, bind at 1, modify at 1.
      apply Hlast. exact H1.
    + unfold bind at 1, on_reader, zoom.
      rewrite realloc_output_columns_eq.
      destruct (projected_alloc _ _ _) as [a|]; [|discriminate].
      cbv zeta. destruct (set_nrows_raises _); [discriminate|].
      unfold ret at 1, bind at 1, modify at 1.
      apply Hlast. reflexivity.
  - unfold ret at 1, bind at 1, modify at 1.
    apply Hlast. exact H1.
Qed.

Lemma chunk_iteration_in_step (i : Z) :
  hoare (lift_shared (P := P) (unless_failed store_in_step))
    (chunk_iteration i)
    (lift_shared (unless_failed store_in_step)).
Proof.
  intros t Ht. rewrite chunk_iteration_eq.
  destruct (oem t) as [e|] eqn:Ho; cbn [oem_exception_caught].
  - cbn. unfold lift_shared, unless_failed. rewrite Ho. discriminate.
  - assert (Hs : store_in_step (rdr t)) by (apply Ht, Ho).
    pose proof (jn_parse_phase store_in_step store_in_step_journal i t Hs)
      as H1.
    pose proof (oem_parse_phase None i t Ho) as O1.
    destruct (parse_phase i t) as [[] t1|e t1|]; cbn [post] in *.
    + pose proof (oem_commit_phase None i t1 O1) as O2.
      destruct (commit_phase i t1) as [[] t2|e t2|] eqn:E2; cbn [post] in *.
      * intros _. apply (commit_phase_in_step i t1 t2 E2 H1).
      * unfold lift_shared, unless_failed. cbn. discriminate.
      * exact I.
    + unfold lift_shared, unless_failed. cbn. discriminate.
    + exact I.
Qed.

(** While no exception has been captured, the column store has exactly
    the rows that the reader counts as allocated
    ([g.columns.get_nrows() = nrows_allocated]): a reallocation that
    returns leaves them in step, and so do, as long as the exception manager
    is empty, every iteration of the loop and the whole parallel region. *)
Theorem column_store_in_step :
  (forall (i n : Z) (r r' : ChunkedDataReader),
     realloc_output_columns i n r = Ret tt r' -> store_in_step r') /\
  (forall (i : Z) (t : Thread P),
     (oem t = None -> store_in_step (rdr t)) ->
     post (chunk_iteration i t)
       (fun t' => oem t' = None -> store_in_step (rdr t'))) /\
  (forall rg : Region P,
     (shared_oem rg = None -> store_in_step (shared_rdr rg)) ->
     post (parallel_region rg)
       (fun rg' => shared_oem rg' = None -> store_in_step (shared_rdr rg'))).
Proof.
  assert (Qj := store_in_step_journal).
  assert (Qe : forall r ev, is_Progress ev = false ->
             store_in_step r -> store_in_step (set_g (emit ev (g r)) r))
    by (intros r ev _ Hr; exact Hr).
  split; [|split].
  - intros i n r r'. rewrite realloc_output_columns_eq.
    destruct (projected_alloc r i n) as [a|]; [|discriminate].
    cbv zeta. destruct (set_nrows_raises _); [discriminate|].
    intros H. apply Ret_inj in H as [_ <-]. reflexivity.
  - intros i t Ht. apply (chunk_iteration_in_step i t Ht).
  - intros rg Hrg. unfold parallel_region.
    assert (H : hoare (lift_shared_region (P := P)
                         (unless_failed store_in_step))
                  parallel_region
                  (lift_shared_region (unless_failed store_in_step))).
    { unfold parallel_region. apply hoare_seq.
      { intros rg0 H0. unfold zoom.
        pose proof (po_master_block store_in_step Qe
                      ltac:(repeat split; intros; assumption)
                      (shared_rdr rg0)) as Hm.
        destruct (master_block (shared_rdr rg0)) as [[] r1|e r1|];
          cbn [post] in *; auto;
          intros Hn; apply Hm, H0, Hn. }
      intros _. apply hoare_seq.
      { apply hoare_for_each. intros k _. apply shared_on_worker.
        apply unless_failed_kept;
          [apply frame_init_worker | apply caught_init_worker]. }
      intros _. apply hoare_get_bind'. intros rg0.
      apply hoare_seq.
      { apply hoare_for_each. intros i _. apply shared_on_worker.
        apply chunk_iteration_in_step. }
      intros _. apply hoare_for_each. intros k _. apply shared_on_worker.
      apply unless_failed_kept;
        [apply jn_thread_epilogue, Qj | apply caught_thread_epilogue]. }
    exact (H rg Hrg).
Qed.

(** The first exception captured is the one that stays: once the
    exception manager holds an exception, it holds the same one after the
    rest of the loop and the epilogues of all the threads, whatever the
    parser and the host do in them. *)
Theorem first_exception_wins (e : exn) (l : list nat) (rg : Region P) :
  shared_oem rg = Some e ->
  post
    (bind
       (for_each l
          (fun i => on_worker (Nat.modulo (schedule i) team)
                      (chunk_iteration (Z.of_nat i))))
       (fun _ => for_each (seq 0 team)
                   (fun k => on_worker k thread_epilogue)) rg)
    (fun rg' => shared_oem rg' = Some e).
Proof.
  intros He.
  set (Inv := fun (_ : ChunkedDataReader) (o : OmpExceptionManager) =>
                o = Some e).
  assert (H : hoare (lift_shared_region (P := P) Inv)
                (bind
                   (for_each l
                      (fun i => on_worker (Nat.modulo (schedule i) team)
                                  (chunk_iteration (Z.of_nat i))))
                   (fun _ => for_each (seq 0 team)
                               (fun k => on_worker k thread_epilogue)))
                (lift_shared_region Inv)).
  { apply hoare_seq.
    - apply hoare_for_each. intros i _. apply shared_on_worker.
      intros t Ht. rewrite chunk_iteration_eq.
      unfold lift_shared, Inv in Ht. rewrite Ht. exact Ht.
    - intros _. apply hoare_for_each. intros k _. apply shared_on_worker.
      intros t Ht. unfold lift_shared, Inv in Ht.
      rewrite (epilogue_on_error t) by (rewrite Ht; reflexivity).
      rewrite final_progress_eq.
      destruct (tShowAlways _); [|exact Ht].
      cbv zeta. destruct (progress_raises _ _); exact Ht. }
  exact (H rg He).
Qed.

End Store.

(** ** The calls of the parser *)

Section WhenReturns.

Context {S : Type}.






End WhenReturns.

Section Protocol.

Context {P : Type} {ops : ParseContextOps P} {host : Host}.












(** The last push of a thread.  At the end of the parallel region a
    thread that has seen no exception and still holds rows
    ([used_nrows != 0]) calls [push_buffers] exactly once, for these rows; a
    thread that holds none does not call it. *)
Theorem final_push_on_success (t : Thread P) :
  oem t = None ->
  exists t',
    final_state (thread_epilogue t) = Some t' /\
    pushes (journal (g (rdr t'))) =
    pushes (journal (g (rdr t)))
    ++ (if used_nrows (tctx (me t)) =? 0 then []
        else [PushBuffers (row0 (tctx (me t))) (used_nrows (tctx (me t)))]).
Proof.
  intros Ho. unfold thread_epilogue, discard_buffers.
  unfold bind at 1, bind at 1, exception_caught, gets.
  rewrite Ho. cbn [oem_exception_caught ret].
  unfold bind at 1, final_push, bind at 1, get at 1.
  assert (Hfin : forall s : Thread P,
            exists t', final_state (final_progress s) = Some t' /\
                       pushes (journal (g (rdr t')))
                       = pushes (journal (g (rdr s)))).
  { intros s. rewrite final_progress_eq.
    destruct (tShowAlways (me s)); [|eexists; split; reflexivity].
    cbv zeta. destruct (progress_raises _ _); eexists;
      (split; [reflexivity|]); cbn; rewrite pushes_app; cbn;
      apply app_nil_r. }
  destruct (used_nrows (tctx (me t)) =? 0); cbn [negb].
  - cbn [ret]. destruct (Hfin t) as (t' & E & Hp).
    exists t'. split; [exact E|]. rewrite Hp, app_nil_r. reflexivity.
  - unfold try_catch, ctx_push_buffers, bind, get, on_reader, zoom,
      journal_event, modify, capture_exception.
    cbn [rdr set_rdr me].
    destruct (push_buffers _) as [[[]|e] ctx]; unfold ret, throw, modify;
      cbv beta iota.
    + match goal with |- exists t', final_state (final_progress ?s) = _ /\ _ =>
        destruct (Hfin s) as (t' & E & Hp) end.
      exists t'. split; [exact E|]. rewrite Hp. cbn.
      rewrite pushes_app. reflexivity.
    + match goal with |- exists t', final_state (final_progress ?s) = _ /\ _ =>
        destruct (Hfin s) as (t' & E & Hp) end.
      exists t'. split; [exact E|]. rewrite Hp. cbn.
      rewrite pushes_app. reflexivity.
Qed.

End Protocol.

(** ** The blocks of the loop, side by side *)

Lemma replace_nth_twice {A} (k : nat) (x y : A) (l : list A) :
  replace_nth k y (replace_nth k x l) = replace_nth k y l.
Proof.
  revert k. induction l as [|z l IH]; intros [|k]; cbn; auto.
  now rewrite IH.
Qed.

Section Overlap.

Context {P : Type} {ops : ParseContextOps P} {host : Host}.

(** What the two stages of an iteration keep. *)
Lemma frame_parse_stage Q (i : Z) :
  g_insensitive Q ->
  hoare (lift_rdr (P := P) Q) (parse_stage i) (lift_rdr Q).
Proof.
  intros Qg. unfold parse_stage.
  apply hoare_seq; [apply frame_exception_caught|]. intros c.
  destruct c; [apply hoare_ret|].
  unfold parse_block.
  apply (hoare_try_catch _ (lift_rdr Q)); auto.
  - apply frame_parse_phase, Qg.
  - intros e. apply frame_capture_exception.
Qed.

Lemma frame_ordered_block Q (i : Z) :
  hoare (lift_rdr (P := P) Q) (commit_phase i) (lift_rdr Q) ->
  hoare (lift_rdr (P := P) Q) (ordered_block i) (lift_rdr Q).
Proof.
  intros Hc. unfold ordered_block.
  apply hoare_seq; [apply frame_exception_caught|]. intros c.
  destruct c; [apply hoare_ret|].
  apply (hoare_try_catch _ (lift_rdr Q)); auto.
  intros e. apply frame_capture_exception.
Qed.

(** What every commit phase keeps, the blocks keep in any order. *)
Lemma frame_run_blocks Q (bs : list Block) :
  g_insensitive Q ->
  (forall b, In b bs ->
     hoare (lift_rdr (P := P) Q) (commit_phase (Z.of_nat (block_index b)))
       (lift_rdr Q)) ->
  hoare (lift_region (P := P) Q) (run_blocks bs) (lift_region Q).
Proof.
  intros Qg Hc. unfold run_blocks. apply hoare_for_each.
  intros [i|i] Hb; cbn [run_block]; apply frame_on_worker.
  - apply frame_parse_stage, Qg.
  - apply frame_ordered_block. apply (Hc _ Hb).
Qed.

(** The stages let no exception out. *)
Lemma parse_stage_never_throws (i : Z) (t : Thread P) :
  never_throws (parse_stage i t).
Proof.
  unfold parse_stage, bind, exception_caught, gets.
  destruct (oem_exception_caught (oem t)); [exact I|].
  rewrite parse_block_eq.
  destruct (parse_phase i t) as [[] t1|e t1|]; exact I.
Qed.

Lemma ordered_block_never_throws (i : Z) (t : Thread P) :
  never_throws (ordered_block i t).
Proof.
  rewrite ordered_block_eq.
  destruct (oem_exception_caught (oem t)); [exact I|].
  destruct (commit_phase i t) as [[] t2|e t2|]; exact I.
Qed.

Lemma on_worker_never_throws {A} (k : nat) (m : M (Thread P) A) :
  (forall t, never_throws (m t)) -> forall rg, never_throws (on_worker k m rg).
Proof.
  intros H rg. unfold on_worker.
  destruct (nth_error (workers rg) k) as [w|]; [|exact I].
  specialize (H (mkThread (shared_rdr rg) (shared_oem rg) (clock rg) w)).
  destruct (m _); cbn in *; auto.
Qed.

Lemma run_blocks_never_throw (bs : list Block) (rg : Region P) :
  never_throws (run_blocks bs rg).
Proof.
  unfold run_blocks. revert rg.
  induction bs as [|b bs IH]; intros rg; cbn [for_each]; [exact I|].
  assert (Hb : never_throws (run_block b rg)).
  { destruct b as [i|i]; cbn [run_block]; apply on_worker_never_throws.
    - apply parse_stage_never_throws.
    - apply ordered_block_never_throws. }
  unfold bind. destruct (run_block b rg) as [[] rg1|e rg1|];
    [apply IH | contradiction | exact I].
Qed.

(** A stage that finds an exception captured does nothing. *)
Lemma parse_stage_caught (i : Z) (t : Thread P) :
  oem_exception_caught (oem t) = true -> parse_stage i t = Ret tt t.
Proof.
  intros Hc. unfold parse_stage, bind, exception_caught, gets.
  rewrite Hc. reflexivity.
Qed.

Lemma ordered_block_caught (i : Z) (t : Thread P) :
  oem_exception_caught (oem t) = true -> ordered_block i t = Ret tt t.
Proof. intros Hc. rewrite ordered_block_eq, Hc. reflexivity. Qed.

Lemma run_blocks_keep_exception (e : exn) (bs : list Block) :
  hoare (lift_shared_region (P := P) (fun _ o => o = Some e))
    (run_blocks bs)
    (lift_shared_region (fun _ o => o = Some e)).
Proof.
  unfold run_blocks. apply hoare_for_each.
  intros [i|i] _; cbn [run_block]; apply shared_on_worker;
    intros t Ht; unfold lift_shared in Ht.
  - rewrite parse_stage_caught by (rewrite Ht; reflexivity). exact Ht.
  - rewrite ordered_block_caught by (rewrite Ht; reflexivity). exact Ht.
Qed.

(** An iteration is its two stages. *)
Lemma chunk_iteration_stages (i : Z) (t : Thread P) :
  chunk_iteration i t = (parse_stage i ;; ordered_block i) t.
Proof.
  rewrite chunk_iteration_blocks.
  unfold parse_stage, bind at 2, bind at 2, exception_caught, gets.
  destruct (oem_exception_caught (oem t)) eqn:Hc; [|reflexivity].
  cbn [ret]. rewrite ordered_block_caught by exact Hc. reflexivity.
Qed.

(** A thread that runs one thing after another. *)
Lemma on_worker_seq (k : nat) (a b : M (Thread P) unit) (rg : Region P) :
  on_worker k (a ;; b) rg = (on_worker k a ;; on_worker k b) rg.
Proof.
  unfold on_worker at 1 2, bind.
  destruct (nth_error (workers rg) k) as [w|] eqn:Hk; [|reflexivity].
  destruct (a _) as [[] t1|e t1|]; try reflexivity.
  unfold on_worker, leave_thread.
  cbn [workers shared_rdr shared_oem clock].
  rewrite nth_error_replace_nth, Nat.eqb_refl.
  assert (Hlt : (k < length (workers rg))%nat)
    by (apply nth_error_Some; rewrite Hk; discriminate).
  rewrite (proj2 (Nat.ltb_lt _ _) Hlt).
  assert (E : mkThread (rdr t1) (oem t1) (ticks t1) (me t1) = t1)
    by (destruct t1; reflexivity).
  rewrite E.
  destruct (b t1) as [[] t2|e t2|]; try reflexivity;
    rewrite replace_nth_twice; reflexivity.
Qed.

(** The loop of [parallel_region] is the run of the blocks one by one. *)
Lemma loop_one_by_one (n m : nat) (rg : Region P) :
  for_each (seq m n)
    (fun i => on_worker (Nat.modulo (schedule i) team)
                (chunk_iteration (Z.of_nat i))) rg =
  for_each (flat_map (fun i => [ParseBlock i; OrderedBlock i]) (seq m n))
    run_block rg.
Proof.
  revert m rg. induction n as [|n IH]; intros m rg; [reflexivity|].
  cbn [seq flat_map for_each app run_block].
  assert (E : on_worker (Nat.modulo (schedule m) team)
                (chunk_iteration (Z.of_nat m)) rg =
              (on_worker (Nat.modulo (schedule m) team)
                 (parse_stage (Z.of_nat m)) ;;
               on_worker (Nat.modulo (schedule m) team)
                 (ordered_block (Z.of_nat m))) rg).
  { rewrite <- on_worker_seq. unfold on_worker.
    destruct (nth_error _ _); [|reflexivity].
    rewrite chunk_iteration_stages. reflexivity. }
  unfold bind at 1. rewrite E. unfold bind.
  destruct (on_worker _ (parse_stage _) rg) as [[] rg1|e rg1|];
    try reflexivity.
  destruct (on_worker _ (ordered_block _) rg1) as [[] rg2|e rg2|];
    try reflexivity.
  apply IH.
Qed.

(** A block writes the variables of no thread but its own. *)
Lemma run_block_local (b : Block) (k : nat) (rg : Region P) :
  k <> Nat.modulo (schedule (block_index b)) team ->
  post (run_block b rg)
    (fun rg' => nth_error (workers rg') k = nth_error (workers rg) k).
Proof.
  intros Hk.
  assert (H : forall m : M (Thread P) unit,
            post (on_worker (Nat.modulo (schedule (block_index b)) team) m rg)
              (fun rg' => nth_error (workers rg') k
                          = nth_error (workers rg) k)).
  { intros m. unfold on_worker.
    destruct (nth_error (workers rg) _) as [w|]; [|exact I].
    destruct (m _) as [[] t1|e t1|]; cbn [post leave_thread workers];
      try exact I;
      rewrite nth_error_replace_nth;
      destruct (Nat.eqb_spec k (Nat.modulo (schedule (block_index b)) team));
      try contradiction; reflexivity. }
  destruct b as [i|i]; apply H.
Qed.

(** The order of [parallel_region] is one that the loop allows. *)
Lemma one_by_one_allowed_from (n m : nat) (parsed : list nat) :
  (forall j, In j parsed -> (j < m)%nat) ->
  allowed_from (m + n) parsed [] m
    (flat_map (fun i => [ParseBlock i; OrderedBlock i]) (seq m n)) = true.
Proof.
  revert m parsed. induction n as [|n IH]; intros m parsed Hp.
  - cbn. rewrite Nat.add_0_r, Nat.eqb_refl. reflexivity.
  - cbn [seq flat_map app allowed_from existsb negb andb filter].
    assert (Hn : existsb (Nat.eqb m) parsed = false).
    { destruct (existsb (Nat.eqb m) parsed) eqn:E; [|reflexivity].
      apply existsb_exists in E. destruct E as (j & Hj & E).
      apply Nat.eqb_eq in E. subst j. apply Hp in Hj. lia. }
    rewrite Hn, !Nat.eqb_refl. cbn [negb andb orb].
    replace (m + S n)%nat with (S m + n)%nat by lia.
    apply IH. intros j [<-|Hj]; [lia|]. apply Hp in Hj. lia.
Qed.

(** With a team of one thread the loop allows one order only, that of
    [parallel_region]. *)
Lemma lone_thread_order (n : nat) (bs : list Block) :
  team = 1%nat ->
  forall (m : nat) (parsed : list nat),
    allowed_from n parsed [] m bs = true ->
    bs = flat_map (fun i => [ParseBlock i; OrderedBlock i]) (seq m (n - m)).
Proof.
  intros Ht.
  assert (Hnil : forall m parsed,
            allowed_from n parsed [] m [] = true -> m = n).
  { intros m parsed Ha. cbn in Ha. apply andb_prop in Ha.
    destruct Ha as [Ha _]. apply Nat.eqb_eq in Ha. exact Ha. }
  assert (H : forall k bs, (length bs <= k)%nat ->
            forall m parsed,
              allowed_from n parsed [] m bs = true ->
              bs = flat_map (fun i => [ParseBlock i; OrderedBlock i])
                     (seq m (n - m))).
  { clear bs. induction k as [|k IH]; intros bs Hl m parsed Ha.
    - destruct bs; [|cbn in Hl; lia].
      apply Hnil in Ha. subst m. rewrite Nat.sub_diag. reflexivity.
    - destruct bs as [|[i|i] bs].
      + apply Hnil in Ha. subst m. rewrite Nat.sub_diag. reflexivity.
      + cbn [allowed_from existsb negb] in Ha.
        apply andb_prop in Ha. destruct Ha as [_ Ha].
        destruct bs as [|[j|j] bs].
        * cbn in Ha. rewrite andb_false_r in Ha. discriminate.
        * cbn [allowed_from existsb] in Ha. rewrite Ht in Ha.
          rewrite !Nat.mod_1_r in Ha. cbn in Ha.
          rewrite andb_false_r in Ha. discriminate.
        * cbn [allowed_from existsb filter] in Ha.
          apply andb_prop in Ha. destruct Ha as [Ha Hr].
          apply andb_prop in Ha. destruct Ha as [Hj Hi].
          apply Nat.eqb_eq in Hj. subst j.
          rewrite orb_false_r in Hi. apply Nat.eqb_eq in Hi. subst i.
          rewrite Nat.eqb_refl in Hr. cbn [negb] in Hr.
          pose proof (IH bs ltac:(cbn in Hl; lia) _ _ Hr) as Hbs.
          assert (Hlt : (m < n)%nat).
          { destruct (Nat.lt_ge_cases m n) as [L|L]; [exact L|].
            exfalso.
            replace (n - S m)%nat with 0%nat in Hbs by lia.
            cbn in Hbs. subst bs. apply Hnil in Hr. lia. }
          replace (n - m)%nat with (S (n - S m)) by lia.
          cbn [seq flat_map app]. rewrite <- Hbs. reflexivity.
      + cbn in Ha. rewrite andb_false_r in Ha. discriminate. }
  intros m parsed. apply (H (length bs) bs (le_n _)).
Qed.

Lemma post_conj {S A} (o : outcome S A) (Q1 Q2 : S -> Prop) :
  post o Q1 -> post o Q2 -> post o (fun s => Q1 s /\ Q2 s).
Proof. destruct o; cbn; auto. Qed.

Lemma post_always {S A} (o : outcome S A) (Q : S -> Prop) :
  (forall s, Q s) -> post o Q.
Proof. intros H. destruct o; cbn; auto. Qed.

(** The blocks of the loop, run in any order, each by the thread of its
    iteration.  Whatever the order, and whatever the parser does: no
    exception gets out of the loop; [lastChunkEnd] does not go back; an
    exception that has been captured stays the one that is held;
    [nrows_allocated] does not decrease and stays within [nrows_max] (for
    the iterations [i < chunkCount] of a reader with
    [0 <= nrows_allocated <= nrows_max]); and the capacity discipline
    [0 <= nrows_written <= nrows_allocated <= nrows_max] is kept by a
    reader without a row limit and by a reader whose column store is at
    the row limit. *)
Theorem blocks_in_any_order (bs : list Block) (rg : Region P) :
  let r := shared_rdr rg in
  never_throws (run_blocks bs rg) /\
  post (run_blocks bs rg)
    (fun rg' =>
       lastChunkEnd r <= lastChunkEnd (shared_rdr rg') /\
       forall e, shared_oem rg = Some e -> shared_oem rg' = Some e) /\
  (0 <= nrows_allocated r <= nrows_max r ->
   0 <= chunkCount r < 2 ^ 64 ->
   Forall (fun b => Z.of_nat (block_index b) < chunkCount r) bs ->
   post (run_blocks bs rg)
     (fun rg' =>
        nrows_allocated r <= nrows_allocated (shared_rdr rg')
        <= nrows_max (shared_rdr rg')) /\
   (nrows_max r = 2 ^ 64 - 1 ->
    0 <= nrows_written r <= nrows_allocated r ->
    post (run_blocks bs rg)
      (fun rg' => capacity_discipline (shared_rdr rg')))) /\
  (at_cap r -> post (run_blocks bs rg) (fun rg' => at_cap (shared_rdr rg'))).
Proof.
  intros r. split; [apply run_blocks_never_throw|].
  split; [|split].
  - apply post_conj.
    + set (Q := fun r' : ChunkedDataReader =>
                  lastChunkEnd r <= lastChunkEnd r').
      apply (frame_run_blocks Q bs).
      * intros r' x Hr. exact Hr.
      * intros b _. apply commit_phase_lce.
      * unfold lift_region, Q, r. lia.
    + destruct (shared_oem rg) as [e0|] eqn:Ho.
      * apply (post_impl _ _ _
                 (run_blocks_keep_exception e0 bs rg Ho)).
        intros rg' H e He. apply Some_inj in He. subst e. exact H.
      * apply post_always. intros rg' e He. discriminate.
  - intros Ha Hc Hbs.
    assert (Hin : forall b, In b bs ->
              0 <= Z.of_nat (block_index b) < chunkCount r).
    { intros b Hb. rewrite Forall_forall in Hbs. specialize (Hbs b Hb). lia. }
    split.
    + set (Q := at_chunkCount
                  (alloc_between (nrows_allocated r) (nrows_max r))
                  (chunkCount r)).
      apply (post_impl _ (lift_region Q)).
      * apply (frame_run_blocks Q bs).
        -- intros r' x Hr. exact Hr.
        -- intros b Hb.
           apply commit_phase_alloc_between; [lia | apply Hin, Hb | lia].
        -- unfold lift_region, Q, at_chunkCount, alloc_between. fold r. lia.
      * intros rg'. unfold lift_region, Q, at_chunkCount, alloc_between.
        lia.
    + intros Hm Hw.
      set (Q := fun r' => capacity_discipline r' /\
                          nrows_max r' = 2 ^ 64 - 1 /\
                          chunkCount r' = chunkCount r).
      apply (post_impl _ (lift_region Q)).
      * apply (frame_run_blocks Q bs).
        -- intros r' x Hr. exact Hr.
        -- intros b Hb. apply commit_phase_unlimited; [apply Hin, Hb | lia].
        -- unfold lift_region, Q, capacity_discipline. fold r. lia.
      * intros rg' (H & _). exact H.
  - intros Hcap.
    apply (frame_run_blocks at_cap bs).
    + intros r' x Hr. exact Hr.
    + intros b _. apply commit_phase_at_cap.
    + exact Hcap.
Qed.

(** The orders of the loop.  The order in which [parallel_region] takes
    the blocks, each parse block followed at once by its ordered block, is
    one that the loop allows, and the loop of [parallel_region] is the run
    of the blocks in this order; with a team of one thread it is the only
    order that the loop allows.  In any order, a block leaves the variables
    of the threads other than its own as they are. *)
Theorem loop_orders (n : nat) :
  allowed n (one_by_one n) = true /\
  (forall rg : Region P,
     for_each (seq 0 n)
       (fun i => on_worker (Nat.modulo (schedule i) team)
                   (chunk_iteration (Z.of_nat i))) rg =
     run_blocks (one_by_one n) rg) /\
  (team = 1%nat ->
   forall bs, allowed (host := host) n bs = true -> bs = one_by_one n) /\
  (forall (b : Block) (k : nat) (rg : Region P),
     k <> Nat.modulo (schedule (block_index b)) team ->
     post (run_block b rg)
       (fun rg' => nth_error (workers rg') k = nth_error (workers rg) k)).
Proof.
  split; [|split; [|split]].
  - apply (one_by_one_allowed_from n 0 []). intros j [].
  - intros rg. apply loop_one_by_one.
  - intros Ht bs Ha. unfold one_by_one.
    rewrite (lone_thread_order n bs Ht 0%nat [] Ha), Nat.sub_0_r.
    reflexivity.
  - intros b k rg. apply run_block_local.
Qed.

End Overlap.

(* ------------------------------------------------------------------ *)
(** ** The further properties on the scenarios *)

Lemma planner_threads_divide_chunks_witness :
  exists r',
    determine_chunking_strategy reader_S2 = Ret tt r' /\
    1 <= nthreads r' <= nthreads reader_S2 /\
    nthreads r' <= chunkCount r' /\
    chunkCount r' mod nthreads r' = 0.
Proof.
  apply (planner_threads_divide_chunks reader_S2 50000).
  - vm_compute. split; [discriminate | reflexivity].
  - vm_compute. reflexivity.
  - vm_compute. split; [discriminate | reflexivity].
Defined.

Lemma planner_chunk_size_bounds_witness :
  exists r',
    determine_chunking_strategy reader_S2 = Ret tt r' /\
    chunkSize r' * chunkCount r' <= 2 ^ 20 < (chunkSize r' + 1) * chunkCount r' /\
    2 ^ 17 <= chunkSize r' < 2 ^ 19.
Proof.
  apply (planner_chunk_size_bounds reader_S2 50000).
  - vm_compute. split; [discriminate | reflexivity].
  - vm_compute. reflexivity.
  - vm_compute. split; [discriminate | reflexivity].
Defined.

Lemma planner_returns_witness :
  exists r', determine_chunking_strategy reader_S2 = Ret tt r'.
Proof.
  apply (planner_returns reader_S2).
  - vm_compute. reflexivity.
  - vm_compute. reflexivity.
  - vm_compute. reflexivity.
  - vm_compute. split; [discriminate | reflexivity].
  - vm_compute. split; [discriminate | reflexivity].
Defined.

Lemma constructor_establishes_invariants_witness :
  exists r,
    new_reader capped_g (Double.of_Z (-3)) = Ret tt r /\
    inputStart r = 0 /\ inputEnd r = 100 /\ lastChunkEnd r = 0 /\
    nrows_written r = 0 /\ nrows_allocated r = 0 /\ nrows_max r = 10 /\
    columns (g r) = 0 /\
    1 <= nthreads r <= 1 /\ nthreads r <= chunkCount r.
Proof.
  apply (proj2 (constructor_establishes_invariants capped_g
                  (Double.of_Z (-3)))).
  - vm_compute. discriminate.
  - vm_compute. reflexivity.
  - vm_compute. reflexivity.
  - vm_compute. split; [discriminate | reflexivity].
  - vm_compute. split; [discriminate | reflexivity].
Defined.

Lemma constructor_undefined_on_nan_witness :
  new_reader capped_g S754_nan = Undefined /\
  new_reader capped_g (S754_infinity false) = Undefined.
Proof.
  apply (constructor_undefined_on_nan capped_g).
  vm_compute. discriminate.
Defined.

Lemma chunk_boundaries_tile_input_witness :
  exists c,
    @compute_chunk_boundaries unit (exact_parser 5) 2 (mkCtx 0 0 tt)
      planned_S2 = Ret c planned_S2 /\
    start c = 2 ^ 19 /\
    0 <= start c <= end_ c /\ end_ c <= 2 ^ 20 /\
    true_start c = false /\
    true_end c = false /\
    exists c',
      @compute_chunk_boundaries unit (exact_parser 5) 3 (mkCtx 0 0 tt)
        planned_S2 = Ret c' planned_S2 /\
      start c' = end_ c.
Proof.
  apply (@chunk_boundaries_tile_input unit (exact_parser 5) planned_S2
           (mkCtx 0 0 tt) 2).
  - reflexivity.
  - vm_compute. discriminate.
  - vm_compute. split; [discriminate | reflexivity].
  - vm_compute. split; [discriminate | reflexivity].
  - vm_compute. discriminate.
  - vm_compute. split; [discriminate | reflexivity].
Defined.

Lemma chunk_boundaries_sequential_witness :
  exists c,
    @compute_chunk_boundaries unit (exact_parser 5) 0 (mkCtx 0 0 tt)
      two_chunk_reader = Ret c two_chunk_reader /\
    start c = 0 /\ true_start c = true /\
    end_ c = 2 ^ 18 /\ true_end c = false.
Proof.
  apply (@chunk_boundaries_sequential unit (exact_parser 5) two_chunk_reader
           (mkCtx 0 0 tt) 0).
  - reflexivity.
  - vm_compute. split; [discriminate | reflexivity].
  - left. reflexivity.
Defined.

Lemma work_done_amount_endpoints_witness :
  work_done_amount two_chunk_reader = Double.zero /\
  work_done_amount (set_lastChunkEnd (2 ^ 19) two_chunk_reader) = Double.one.
Proof.
  split.
  - apply (proj1 (work_done_amount_endpoints two_chunk_reader)).
    + vm_compute. split; reflexivity.
    + reflexivity.
  - apply (proj1 (work_done_amount_endpoints
                    (set_lastChunkEnd (2 ^ 19) two_chunk_reader))).
    + vm_compute. split; reflexivity.
    + reflexivity.
Defined.

Lemma order_chunk_commits_adjacent_witness :
  start (tacc (me (advance parsed_thread))) = 0 /\
  0 <= end_ (tacc (me (advance parsed_thread))) /\
  lastChunkEnd (rdr (advance parsed_thread)) = 2 ^ 18 + 3.
Proof.
  apply (@order_chunk_commits_adjacent unit (exact_parser 5) parsed_thread
           (advance parsed_thread)).
  vm_compute. reflexivity.
Defined.

Lemma chunk_iteration_captures_exceptions_witness :
  exists t',
    @parse_block unit failing_parser (still_host 1) 0
      (lone_thread two_chunk_reader) = Ret tt t' /\
    oem t' = Some ParseError /\
    @ordered_block unit failing_parser (still_host 1) 0 t' = Ret tt t'.
Proof.
  destruct (@chunk_iteration_captures_exceptions unit failing_parser
              (still_host 1) 0 (lone_thread two_chunk_reader))
    as (_ & _ & T & _).
  set (o := parse_phase 0 _) in T. vm_compute in o. subst o.
  cbv beta iota in T.
  destruct T as (t' & E & Hc & Ho).
  exists t'. split; [exact E|]. split; [apply Ho; reflexivity|].
  exact (proj2 (proj1 (proj2 (@chunk_iteration_captures_exceptions unit
                                failing_parser (still_host 1) 0 t')) Hc)).
Defined.

Lemma loop_idle_after_exception_witness :
  for_each [0%nat; 1%nat; 2%nat]
    (fun i => on_worker (Nat.modulo (@schedule (still_host 2) i)
                           (@team (still_host 2)))
                (@chunk_iteration unit (exact_parser 7) (still_host 2)
                   (Z.of_nat i))) failed_region
  = Ret tt failed_region.
Proof.
  apply (@loop_idle_after_exception unit (exact_parser 7) (still_host 2)).
  - reflexivity.
  - reflexivity.
Defined.

Lemma read_all_on_return_witness :
  columns (g short_run_result) = 5 /\
  lastChunkEnd short_run_result = inputEnd short_run_result /\
  exists j, journal (g short_run_result) = j ++ [SetNrows 5].
Proof.
  destruct (@read_all_on_return unit (exact_parser 5) (still_host 1)
              capped_reader short_run_result) as (H1 & H2 & H3).
  - vm_compute. reflexivity.
  - split; [exact H1|]. split; [|exact H3].
    apply H2. vm_compute. reflexivity.
Defined.

Lemma capacity_discipline_at_cap_witness :
  post (@read_all unit (exact_parser 20) (still_host 1) full_reader)
    (fun r' => 0 <= nrows_written r' <= nrows_allocated r' /\
               nrows_allocated r' = 10 /\ nrows_max r' = 10).
Proof.
  apply (proj2 (@capacity_discipline_at_cap unit (exact_parser 20)
                  (still_host 1) full_reader
                  ltac:(vm_compute; split; discriminate) eq_refl)).
Defined.

Lemma master_block_adopts_team_witness :
  exists r',
    @master_block (still_host 2) reader_S2 = Ret tt r' /\
    1 <= nthreads r' <= 2 /\
    (nthreads reader_S2 = 2 -> r' = reader_S2) /\
    (nthreads reader_S2 <> 2 ->
     nthreads r' <= chunkCount r' /\
     chunkCount r' mod nthreads r' = 0 /\
     exists j, journal (g r') = journal (g reader_S2) ++ Trace 2 :: j).
Proof.
  apply (@master_block_adopts_team (still_host 2) reader_S2 50000).
  - vm_compute. split; [discriminate | reflexivity].
  - vm_compute. reflexivity.
  - reflexivity.
Defined.

Lemma realloc_makes_room_witness :
  exists r',
    final_state (@realloc_output_columns (still_host 1) 3 1001 growing_reader)
    = Some r' /\
    1001 <= nrows_allocated r' <= 1000000.
Proof.
  assert (H1 : 1 <= 1001 < 2 ^ 64)
    by (split; [discriminate | reflexivity]).
  assert (H2 : 0 <= 3 < chunkCount growing_reader)
    by (vm_compute; split; [discriminate | reflexivity]).
  assert (H3 : chunkCount growing_reader < 2 ^ 64) by reflexivity.
  assert (H4 : 3 = chunkCount growing_reader - 1 \/
               1001 * chunkCount growing_reader <= 2 ^ 63 * (3 + 1))
    by (right; vm_compute; discriminate).
  destruct (proj2 (@realloc_makes_room (still_host 1) growing_reader 3 1001
                     H1 H2 H3) H4) as (r' & E & Hr).
  exists r'. split; [exact E | exact Hr].
Defined.

Lemma capacity_discipline_without_limit_witness :
  post (@read_all unit (exact_parser 20) (still_host 1) unlimited_reader)
    (fun r' => 0 <= nrows_written r' <= nrows_allocated r' /\
               nrows_allocated r' <= nrows_max r').
Proof.
  apply (proj2 (@capacity_discipline_without_limit unit (exact_parser 20)
                  (still_host 1) unlimited_reader eq_refl
                  ltac:(vm_compute; split; discriminate)
                  ltac:(vm_compute; discriminate)
                  ltac:(vm_compute; split; [discriminate | reflexivity]))).
Defined.

Lemma progress_off_is_silent_witness :
  post (@read_all unit (exact_parser 20) (still_host 1) full_reader)
    (fun r' => progress_events r' = []).
Proof.
  apply (@progress_off_is_silent unit (exact_parser 20) (still_host 1)
           full_reader).
  reflexivity.
Defined.

Lemma commit_rows_contiguous_witness :
  exists used,
    last (journal (g (rdr committed_thread))) (Trace 0)
    = OrderBuffer 0 used /\
    nrows_written (rdr committed_thread) = sz_add 0 used.
Proof.
  apply (@commit_rows_contiguous unit (exact_parser 5) (still_host 1)
           ltac:(intros xcc acc ctx; reflexivity) 0 parsed_thread
           committed_thread).
  - vm_compute. split; [discriminate | reflexivity].
  - vm_compute. reflexivity.
Defined.

Lemma first_exception_wins_witness :
  post
    (bind
       (for_each [0%nat; 1%nat]
          (fun i => on_worker (Nat.modulo (@schedule (still_host 2) i)
                                 (@team (still_host 2)))
                      (@chunk_iteration unit (exact_parser 7) (still_host 2)
                         (Z.of_nat i))))
       (fun _ => for_each (seq 0 (@team (still_host 2)))
                   (fun k => on_worker k
                               (@thread_epilogue unit (exact_parser 7)
                                  (still_host 2)))) failed_region)
    (fun rg' => shared_oem rg' = Some ParseError).
Proof.
  apply (@first_exception_wins unit (exact_parser 7) (still_host 2)
           ParseError [0%nat; 1%nat] failed_region).
  reflexivity.
Defined.


Lemma final_push_on_success_witness :
  exists t',
    final_state
      (@thread_epilogue unit (exact_parser 5) (still_host 1) parsed_thread)
    = Some t' /\
    pushes (journal (g (rdr t'))) = [PushBuffers 0 7].
Proof.
  apply (@final_push_on_success unit (exact_parser 5) (still_host 1)
           parsed_thread).
  reflexivity.
Defined.

Lemma blocks_in_any_order_witness :
  allowed (host := still_host 4) 4 parse_ahead = true /\
  post
    (@run_blocks unit (exact_parser 7) (still_host 4) parse_ahead team_region)
    (fun rg' =>
       0 <= nrows_allocated (shared_rdr rg') <= nrows_max (shared_rdr rg')).
Proof.
  split; [vm_compute; reflexivity|].
  assert (H1 : 0 <= nrows_allocated (shared_rdr team_region)
               <= nrows_max (shared_rdr team_region))
    by (vm_compute; split; discriminate).
  assert (H2 : 0 <= chunkCount (shared_rdr team_region) < 2 ^ 64)
    by (vm_compute; split; [discriminate | reflexivity]).
  assert (H3 : Forall
                 (fun b => Z.of_nat (block_index b)
                           < chunkCount (shared_rdr team_region))
                 parse_ahead)
    by (repeat constructor).
  exact (proj1 (proj1 (proj2 (proj2
           (@blocks_in_any_order unit (exact_parser 7) (still_host 4)
              parse_ahead team_region))) H1 H2 H3)).
Defined.

Lemma loop_orders_witness :
  for_each (seq 0 4)
    (fun i => on_worker (Nat.modulo (@schedule (still_host 4) i)
                           (@team (still_host 4)))
                (@chunk_iteration unit (exact_parser 7) (still_host 4)
                   (Z.of_nat i))) team_region =
  @run_blocks unit (exact_parser 7) (still_host 4) (one_by_one 4) team_region.
Proof.
  exact (proj1 (proj2 (@loop_orders unit (exact_parser 7) (still_host 4) 4))
           team_region).
Defined.
